(** * FerreteriaSearchSystem: catalog normalisation, inverted index, ranked
      search with a query cache, and windowed result delivery.

    Shallow embedding of the class [FerreteriaSearchSystem] (the commercial
    search engine of the hardware-store catalog) and the properties of its
    indexing, ranking, caching and paging code.

    Modelling conventions

    - A JavaScript string is a list of code units.  The development covers
      strings whose code units lie in U+0000..U+00FF, one [ascii] per code
      unit.  On that range [toLowerCase], [normalize('NFD')] and the removal
      of U+0300..U+036F compose to a map on single code units, which is
      written out below.
    - A JavaScript number is [NaN], a signed infinity, or a finite binary64
      value held as the rational it denotes.  [Number(string)] rounds to the
      nearest binary64 (ties to even, with overflow to an infinity and
      underflow to zero); the two zeros are one value, which the code cannot
      tell apart.  A comparator only tests the sign of a difference, which
      rounding does not change, and every score is an integer multiple of 5
      divided by 100, on which the rational order and the binary64 order
      agree; differences and scores are therefore kept exact.
    - Arrays are objects: the state holds a store of arrays and refers to
      them by address, so that two references to one array are visible.
    - DOM, timers and logging are left out; the rendered container is kept as
      the list of results that were turned into cards. *)

From Stdlib Require Import Ascii String DecimalString List QArith ZArith Lia Lqa Bool Sorted Permutation.
From Stdlib Require Import SpecFloat.
From stdpp Require Import gmap strings.
Close Scope Q_scope.
Import ListNotations.


(** ** JavaScript strings *)

Module Js.

Definition jstring := list ascii.

Definition str (s : string) : jstring := list_ascii_of_string s.

Definition code (c : ascii) : nat := nat_of_ascii c.

Definition between (lo hi n : nat) : bool := (lo <=? n) && (n <=? hi).

(** [\s] of a regular expression, and the characters removed by [trim]:
    TAB, LF, VT, FF, CR, SPACE and NBSP are the ones below U+0100. *)
Definition isWhitespace (c : ascii) : bool :=
  let n := code c in between 9 13 n || (n =? 32) || (n =? 160).

Definition isDigit (c : ascii) : bool := between 48 57 (code c).
Definition isLowerAZ (c : ascii) : bool := between 97 122 (code c).
Definition isUpperAZ (c : ascii) : bool := between 65 90 (code c).

(** [\w] of a regular expression: [A-Za-z0-9_]. *)
Definition isWordChar (c : ascii) : bool :=
  isLowerAZ c || isUpperAZ c || isDigit c || (code c =? 95).

Definition space : ascii := " "%char.

(** [String.prototype.toLowerCase] on one code unit: A-Z and the letters
    U+00C0..U+00DE except the multiplication sign U+00D7. *)
Definition toLowerCaseChar (c : ascii) : ascii :=
  let n := code c in
  if between 65 90 n then ascii_of_nat (n + 32)
  else if between 192 222 n && negb (n =? 215) then ascii_of_nat (n + 32)
  else c.

(** [normalize('NFD')] followed by [replace(/[\u0300-\u036f]/g, '')] on one
    lower-case code unit: the canonical decomposition is the base letter and
    one combining mark of that block, and the mark is removed. *)
Definition stripMarksChar (c : ascii) : ascii :=
  let n := code c in
  if between 224 229 n then "a"%char
  else if n =? 231 then "c"%char
  else if between 232 235 n then "e"%char
  else if between 236 239 n then "i"%char
  else if n =? 241 then "n"%char
  else if between 242 246 n then "o"%char
  else if between 249 252 n then "u"%char
  else if (n =? 253) || (n =? 255) then "y"%char
  else c.

(** Upper-case letters are decomposed the same way; the code only ever
    decomposes after lowering, so the upper-case rows are not needed. *)
Definition toLowerCase (s : jstring) : jstring := map toLowerCaseChar s.
Definition normalizeNFD_stripMarks (s : jstring) : jstring := map stripMarksChar s.

Fixpoint dropWhile {A} (p : A -> bool) (l : list A) : list A :=
  match l with
  | [] => []
  | x :: l' => if p x then dropWhile p l' else l
  end.

Definition trimStart (s : jstring) : jstring := dropWhile isWhitespace s.
Definition trimEnd (s : jstring) : jstring := rev (dropWhile isWhitespace (rev s)).
Definition trim (s : jstring) : jstring := trimEnd (trimStart s).

(** [s.replace(/\s+/g, ' ')]: every maximal run of white space becomes one
    space (emitted at the last character of the run). *)
Fixpoint replaceWsRuns (s : jstring) : jstring :=
  match s with
  | [] => []
  | c :: s' =>
      if isWhitespace c then
        match s' with
        | c' :: _ => if isWhitespace c' then replaceWsRuns s' else space :: replaceWsRuns s'
        | [] => [space]
        end
      else c :: replaceWsRuns s'
  end.

(** [s.split(/\s+/)]: the pieces between maximal runs of white space; a
    leading or trailing run yields an empty first or last piece, and the
    empty string yields one empty piece. *)
Fixpoint split_ws (s : jstring) : list jstring :=
  match s with
  | [] => [[]]
  | c :: s' =>
      if isWhitespace c then
        match s' with
        | c' :: _ => if isWhitespace c' then split_ws s' else [] :: split_ws s'
        | [] => [[]; []]
        end
      else
        match split_ws s' with
        | t :: ts => (c :: t) :: ts
        | [] => [[c]]
        end
  end.

Definition ascii_eqb (a b : ascii) : bool := Ascii.eqb a b.

Fixpoint jstring_eqb (a b : jstring) : bool :=
  match a, b with
  | [], [] => true
  | x :: a', y :: b' => ascii_eqb x y && jstring_eqb a' b'
  | _, _ => false
  end.

(** [s.startsWith(w)] *)
Fixpoint startsWith (s w : jstring) : bool :=
  match w, s with
  | [], _ => true
  | y :: w', x :: s' => ascii_eqb x y && startsWith s' w'
  | _ :: _, [] => false
  end.

(** [s.includes(w)] on strings *)
Fixpoint includes (s w : jstring) : bool :=
  startsWith s w ||
  match s with
  | [] => false
  | _ :: s' => includes s' w
  end.

(** [arr.includes(w)] on an array of strings *)
Definition arrayIncludes (arr : list jstring) (w : jstring) : bool :=
  existsb (jstring_eqb w) arr.

(** [text.match(new RegExp('\\b' + word + '\\b', 'g'))], as the number of
    matches ([null] is 0).  [word] is made of [a-z0-9] only wherever the code
    builds this expression, so the pattern is the literal [word] between two
    word boundaries; matches are found left to right and do not overlap. *)
Definition boundary (prev next : option ascii) : bool :=
  let w o := match o with Some c => isWordChar c | None => false end in
  negb (Bool.eqb (w prev) (w next)).

Fixpoint countWordMatches_from (word : jstring) (prev : option ascii) (skip : nat)
    (text : jstring) : nat :=
  match text with
  | [] => 0
  | c :: text' =>
      match skip with
      | S k => countWordMatches_from word (Some c) k text'
      | O =>
          if boundary prev (Some c) && startsWith text word
             && boundary (nth_error text (length word - 1)) (nth_error text (length word))
          then S (countWordMatches_from word (Some c) (length word - 1) text')
          else countWordMatches_from word (Some c) 0 text'
      end
  end.

Definition countWordMatches (word text : jstring) : nat :=
  countWordMatches_from word None 0 text.

(** ** JavaScript numbers and scalar values *)

Inductive JsNumber :=
  | NaN
  | Inf (negative : bool)
  | Fin (q : Q).

Definition isNaN (n : JsNumber) : bool :=
  match n with NaN => true | _ => false end.

(** [a - b] *)
Definition sub (a b : JsNumber) : JsNumber :=
  match a, b with
  | NaN, _ | _, NaN => NaN
  | Inf s, Inf t => if Bool.eqb s t then NaN else Inf s
  | Inf s, Fin _ => Inf s
  | Fin _, Inf t => Inf (negb t)
  | Fin x, Fin y => Fin (x - y)%Q
  end.

(** [v > 0], the test a sort makes on a comparator's result ([NaN] counts
    as [+0]). *)
Definition positive (v : JsNumber) : bool :=
  match v with
  | NaN => false
  | Inf s => negb s
  | Fin q => negb (Qle_bool q 0)
  end.

(** [0 <= v] *)
Definition nonNegative (v : JsNumber) : bool :=
  match v with
  | NaN => false
  | Inf s => negb s
  | Fin q => Qle_bool 0 q
  end.

Inductive JsValue :=
  | JUndefined
  | JNull
  | JBool (b : bool)
  | JNum (n : JsNumber)
  | JStr (s : jstring).

Definition ToBoolean (v : JsValue) : bool :=
  match v with
  | JUndefined | JNull => false
  | JBool b => b
  | JNum NaN => false
  | JNum (Inf _) => true
  | JNum (Fin q) => negb (Qeq_bool q 0)
  | JStr s => negb (Nat.eqb (length s) 0)
  end.

(** [a || b] *)
Definition or (a b : JsValue) : JsValue := if ToBoolean a then a else b.

(** *** [Number(v)] *)

(** The value of a binary64 datum. *)
Definition ofBinary64 (f : spec_float) : JsNumber :=
  match f with
  | S754_nan => NaN
  | S754_infinity s => Inf s
  | S754_zero _ => Fin 0
  | S754_finite s m e =>
      let magnitude :=
        if (0 <=? e)%Z then inject_Z (Z.pos m * 2 ^ e)
        else Qmake (Z.pos m) (Z.to_pos (2 ^ (- e))) in
      Fin (Qred (if s then Qopp magnitude else magnitude))
  end.

(** The Number value for a mathematical value: the nearest binary64, ties
    to even; an infinity from 2^1024 - 2^970 on, and zero up to 2^-1075. *)
Definition roundToNumber (q : Q) : JsNumber :=
  let divide negative m :=
    ofBinary64 (SFdiv 53 1024 (S754_finite negative m 0) (S754_finite false (Qden q) 0)) in
  match Qnum q with
  | Z0 => Fin 0
  | Zpos m => divide false m
  | Zneg m => divide true m
  end.

Fixpoint spanDigits (s : jstring) : jstring * jstring :=
  match s with
  | [] => ([], [])
  | c :: s' =>
      if isDigit c then let (d, r) := spanDigits s' in (c :: d, r) else ([], s)
  end.

(** The value of a digit in a base up to 16, if it is one. *)
Definition digitValue (base : N) (c : ascii) : option N :=
  let n := N.of_nat (code c) in
  let v :=
    if isDigit c then Some (n - 48)%N
    else if between 97 102 (code c) then Some (n - 87)%N
    else if between 65 70 (code c) then Some (n - 55)%N
    else None in
  match v with
  | Some d => if (d <? base)%N then Some d else None
  | None => None
  end.

Fixpoint digitsValue (base : N) (acc : N) (s : jstring) : option N :=
  match s with
  | [] => Some acc
  | c :: s' =>
      match digitValue base c with
      | Some d => digitsValue base (acc * base + d)%N s'
      | None => None
      end
  end.

Definition radixLiteral (base : N) (digits : jstring) : JsNumber :=
  match digits with
  | [] => NaN
  | _ => match digitsValue base 0 digits with
         | Some n => roundToNumber (inject_Z (Z.of_N n))
         | None => NaN
         end
  end.

(** [m * 10^e] *)
Definition scale10 (m e : Z) : Q :=
  if (0 <=? e)%Z then inject_Z (m * 10 ^ e) else Qmake m (Z.to_pos (10 ^ (- e))).

Definition applySign (negative : bool) (q : Q) : Q := if negative then Qopp q else q.

(** StrDecimalLiteral without its sign: digits, an optional fraction and an
    optional exponent, up to the end of the string. *)
Definition decimalLiteral (negative : bool) (s : jstring) : JsNumber :=
  let (ip, r1) := spanDigits s in
  let '(fp, r2, dot) :=
    match r1 with
    | c :: r => if ascii_eqb c "."%char
                then let (f, r') := spanDigits r in (f, r', true)
                else ([], r1, false)
    | [] => ([], r1, false)
    end in
  match ip ++ fp with
  | [] => NaN
  | ds =>
      match digitsValue 10 0 ds with
      | None => NaN
      | Some m =>
          let frac := Z.of_nat (length fp) in
          match r2 with
          | [] => roundToNumber (applySign negative (scale10 (Z.of_N m) (- frac)))
          | c :: r =>
              if ascii_eqb c "e"%char || ascii_eqb c "E"%char then
                let (eneg, r') :=
                  match r with
                  | d :: r'' => if ascii_eqb d "-"%char then (true, r'')
                                else if ascii_eqb d "+"%char then (false, r'')
                                else (false, r)
                  | [] => (false, r)
                  end in
                match spanDigits r' with
                | ((_ :: _) as es, []) =>
                    match digitsValue 10 0 es with
                    | Some e =>
                        let ez := if eneg then (- Z.of_N e)%Z else Z.of_N e in
                        roundToNumber (applySign negative (scale10 (Z.of_N m) (ez - frac)))
                    | None => NaN
                    end
                | _ => NaN
                end
              else NaN
          end
      end
  end.

Definition signedLiteral (negative : bool) (s : jstring) : JsNumber :=
  if jstring_eqb s (str "Infinity") then Inf negative else decimalLiteral negative s.

(** StringToNumber: white space is trimmed, the empty string is 0, then a
    radix literal, or a signed decimal literal or [Infinity]; anything else
    is [NaN].  The mathematical value of a literal is rounded to the nearest
    binary64. *)
Definition StringToNumber (s : jstring) : JsNumber :=
  match trim s with
  | [] => Fin 0
  | (c :: r) as t =>
      if startsWith t (str "0x") || startsWith t (str "0X") then radixLiteral 16 (skipn 2 t)
      else if startsWith t (str "0o") || startsWith t (str "0O") then radixLiteral 8 (skipn 2 t)
      else if startsWith t (str "0b") || startsWith t (str "0B") then radixLiteral 2 (skipn 2 t)
      else if ascii_eqb c "-"%char then signedLiteral true r
      else if ascii_eqb c "+"%char then signedLiteral false r
      else signedLiteral false t
  end.

Definition ToNumber (v : JsValue) : JsNumber :=
  match v with
  | JUndefined => NaN
  | JNull => Fin 0
  | JBool true => Fin 1
  | JBool false => Fin 0
  | JNum n => n
  | JStr s => StringToNumber s
  end.

(** *** [String(v)] *)

Definition decimalOfZ (z : Z) : jstring :=
  str (NilZero.string_of_int (Z.to_int z)).

(** The digits after the decimal point of [r / d], for [0 <= r < d], until
    the remainder is zero or [fuel] digits are written. *)
Fixpoint fractionDigits (fuel : nat) (r d : Z) : jstring :=
  match fuel with
  | O => []
  | S k =>
      if (r =? 0)%Z then []
      else ascii_of_nat (48 + Z.to_nat (10 * r / d)) :: fractionDigits k ((10 * r) mod d) d
  end.

(** Number::toString.  Exact on integers below 10^21 in magnitude and on
    terminating decimal fractions of at most 20 places.  On a record that
    [processProducts] keeps, a text field that is not a string is falsy, so
    the only numbers that reach it are 0 and NaN. *)
Definition NumberToString (n : JsNumber) : jstring :=
  match n with
  | NaN => str "NaN"
  | Inf false => str "Infinity"
  | Inf true => str "-Infinity"
  | Fin q =>
      let num := Qnum q in
      let den := Z.pos (Qden q) in
      let a := Z.abs num in
      let sign := if (num <? 0)%Z then str "-" else [] in
      if (a mod den =? 0)%Z then
        (if (a =? 0)%Z then [] else sign) ++ decimalOfZ (a / den)
      else sign ++ decimalOfZ (a / den) ++ str "." ++ fractionDigits 20 (a mod den) den
  end.

Definition ToString (v : JsValue) : jstring :=
  match v with
  | JUndefined => str "undefined"
  | JNull => str "null"
  | JBool true => str "true"
  | JBool false => str "false"
  | JNum n => NumberToString n
  | JStr s => s
  end.

(** *** [Array.prototype.sort]

    [arr.sort(compare)] is a stable sort: [x] stays before a later [y]
    unless [compare(x, y) > 0].  Any stable sort gives the same array when
    [compare] is a consistent comparison; insertion from the right is the
    one written here. *)
Section Sort.
Context {A : Type} (compare : A -> A -> JsNumber).

Fixpoint insertSorted (x : A) (l : list A) : list A :=
  match l with
  | [] => [x]
  | y :: l' => if positive (compare x y) then y :: insertSorted x l' else x :: l
  end.

Fixpoint sort (l : list A) : list A :=
  match l with
  | [] => []
  | x :: l' => insertSorted x (sort l')
  end.
End Sort.

(** [arr.slice(start, end)] for [0 <= start] and [0 <= end]. *)
Definition slice {A} (start stop : nat) (l : list A) : list A :=
  firstn (stop - start) (skipn start l).

(** A [Set]: members in insertion order, each once. *)
Section SetOps.
Context {A : Type} (eqb : A -> A -> bool).

Definition setHas (s : list A) (x : A) : bool := existsb (eqb x) s.
Definition setAdd (s : list A) (x : A) : list A := if setHas s x then s else s ++ [x].
(** [new Set(iterable)] *)
Definition setFrom (l : list A) : list A := fold_left setAdd l [].
End SetOps.

(** A [Map] with string keys whose iteration order is observed: entries in
    insertion order, each key once.  [set] on a key that is present keeps
    the entry's place. *)
Section MapOps.
Context {V : Type}.

Definition mapHas (m : list (jstring * V)) (k : jstring) : bool :=
  existsb (fun e => jstring_eqb k (fst e)) m.

Fixpoint mapGet (m : list (jstring * V)) (k : jstring) : option V :=
  match m with
  | [] => None
  | (k', v) :: m' => if jstring_eqb k k' then Some v else mapGet m' k
  end.

Fixpoint mapSet (m : list (jstring * V)) (k : jstring) (v : V) : list (jstring * V) :=
  match m with
  | [] => [(k, v)]
  | (k', v') :: m' => if jstring_eqb k k' then (k', v) :: m' else (k', v') :: mapSet m' k v
  end.

Definition mapDelete (m : list (jstring * V)) (k : jstring) : list (jstring * V) :=
  List.filter (fun e => negb (jstring_eqb k (fst e))) m.

(** [m.keys().next().value] *)
Definition mapFirstKey (m : list (jstring * V)) : option jstring :=
  match m with
  | [] => None
  | (k, _) :: _ => Some k
  end.
End MapOps.

End Js.

(** ** The data of the search system *)

(** A record of [products.json]; an absent field reads as [undefined]. *)
Module Raw.
Record t := mk {
  codigo : Js.JsValue;
  descripcion : Js.JsValue;
  rubro : Js.JsValue;
  marca : Js.JsValue;
  precio_venta : Js.JsValue
}.
End Raw.

(** An entry of [state.products]: the raw record with its five fields
    replaced by their cleaned values. *)
Module Product.
Record t := mk {
  codigo : Js.jstring;
  descripcion : Js.jstring;
  rubro : Js.jstring;
  marca : Js.jstring;
  precio_venta : Js.JsNumber
}.
Definition undefined : t := mk [] [] [] [] Js.NaN.
End Product.

(** An entry of [state.normalizedData]. *)
Module Normalized.
Record t := mk {
  index : nat;
  codigo : Js.jstring;
  descripcion : Js.jstring;
  rubro : Js.jstring;
  marca : Js.jstring;
  precio_venta : Js.JsNumber;
  searchText : Js.jstring;
  codigoNormalized : Js.jstring;
  descripcionNormalized : Js.jstring;
  marcaNormalized : Js.jstring;
  rubroNormalized : Js.jstring
}.
Definition undefined : t := mk 0 [] [] [] [] Js.NaN [] [] [] [] [].
End Normalized.

(** What [findRelevantProducts] returns for one position. *)
Module Candidate.
Record t := mk {
  product : Product.t;
  normalized : Normalized.t;
  index : nat
}.
End Candidate.

(** A candidate with its score: an element of [state.results]. *)
Module ScoredResult.
Record t := mk {
  product : Product.t;
  normalized : Normalized.t;
  index : nat;
  score : Q
}.
End ScoredResult.

Import Js.

Record ScoreWeights := {
  CODIGO_EXACTO : Z;
  CODIGO_STARTS_WITH : Z;
  CODIGO_CONTAINS : Z;
  DESCRIPCION_EXACTA : Z;
  DESCRIPCION_PALABRA : Z;
  DESCRIPCION_CONTAINS : Z;
  MARCA_EXACTA : Z;
  MARCA_CONTAINS : Z;
  RUBRO_EXACTO : Z;
  MULTIPLE_MATCHES : Z
}.

Record Config := {
  MAX_RESULTS : nat;
  DEBOUNCE_MS : nat;
  MIN_SCORE : Q;
  BATCH_SIZE : nat;
  CACHE_SIZE : nat;
  SCORE_WEIGHTS : ScoreWeights
}.

(** [this.CONFIG] as the constructor sets it. *)
Definition defaultConfig : Config := {|
  MAX_RESULTS := 25;
  DEBOUNCE_MS := 350;
  MIN_SCORE := 15 # 100;
  BATCH_SIZE := 15;
  CACHE_SIZE := 50;
  SCORE_WEIGHTS := {|
    CODIGO_EXACTO := 100;
    CODIGO_STARTS_WITH := 50;
    CODIGO_CONTAINS := 30;
    DESCRIPCION_EXACTA := 40;
    DESCRIPCION_PALABRA := 35;
    DESCRIPCION_CONTAINS := 20;
    MARCA_EXACTA := 25;
    MARCA_CONTAINS := 15;
    RUBRO_EXACTO := 10;
    MULTIPLE_MATCHES := 5
  |}
|}.

(** The address of an array in the store. *)
Definition addr := nat.

(** The instance: [this.CONFIG], [this.state], [this.searchCache],
    [this.nodePool], and the store of the arrays that [state.results] and
    the cache entries refer to.  [container] is the children of
    [refs.productsContainer], each card standing for the result it shows;
    [nodePool] is the number of pooled nodes. *)
Record State := mkState {
  CONFIG : Config;
  products : list Product.t;
  normalizedData : list Normalized.t;
  searchIndex : gmap (list ascii) (list nat);
  rubros : list jstring;
  searchTerm : jstring;
  currentRubro : jstring;
  results : addr;
  offset : nat;
  hasMore : bool;
  isLoading : bool;
  searchCache : list (jstring * addr);
  nodePool : nat;
  container : list ScoredResult.t;
  heap : list (list ScoredResult.t)
}.

Definition set_CONFIG (v : Config) (st : State) : State :=
  mkState v (products st) (normalizedData st) (searchIndex st) (rubros st) (searchTerm st)
    (currentRubro st) (results st) (offset st) (hasMore st) (isLoading st) (searchCache st)
    (nodePool st) (container st) (heap st).
Definition set_products (v : list Product.t) (st : State) : State :=
  mkState (CONFIG st) v (normalizedData st) (searchIndex st) (rubros st) (searchTerm st)
    (currentRubro st) (results st) (offset st) (hasMore st) (isLoading st) (searchCache st)
    (nodePool st) (container st) (heap st).
Definition set_normalizedData (v : list Normalized.t) (st : State) : State :=
  mkState (CONFIG st) (products st) v (searchIndex st) (rubros st) (searchTerm st)
    (currentRubro st) (results st) (offset st) (hasMore st) (isLoading st) (searchCache st)
    (nodePool st) (container st) (heap st).
Definition set_searchIndex (v : gmap (list ascii) (list nat)) (st : State) : State :=
  mkState (CONFIG st) (products st) (normalizedData st) v (rubros st) (searchTerm st)
    (currentRubro st) (results st) (offset st) (hasMore st) (isLoading st) (searchCache st)
    (nodePool st) (container st) (heap st).
Definition set_rubros (v : list jstring) (st : State) : State :=
  mkState (CONFIG st) (products st) (normalizedData st) (searchIndex st) v (searchTerm st)
    (currentRubro st) (results st) (offset st) (hasMore st) (isLoading st) (searchCache st)
    (nodePool st) (container st) (heap st).
Definition set_searchTerm (v : jstring) (st : State) : State :=
  mkState (CONFIG st) (products st) (normalizedData st) (searchIndex st) (rubros st) v
    (currentRubro st) (results st) (offset st) (hasMore st) (isLoading st) (searchCache st)
    (nodePool st) (container st) (heap st).
Definition set_currentRubro (v : jstring) (st : State) : State :=
  mkState (CONFIG st) (products st) (normalizedData st) (searchIndex st) (rubros st)
    (searchTerm st) v (results st) (offset st) (hasMore st) (isLoading st) (searchCache st)
    (nodePool st) (container st) (heap st).
Definition set_results (v : addr) (st : State) : State :=
  mkState (CONFIG st) (products st) (normalizedData st) (searchIndex st) (rubros st)
    (searchTerm st) (currentRubro st) v (offset st) (hasMore st) (isLoading st)
    (searchCache st) (nodePool st) (container st) (heap st).
Definition set_offset (v : nat) (st : State) : State :=
  mkState (CONFIG st) (products st) (normalizedData st) (searchIndex st) (rubros st)
    (searchTerm st) (currentRubro st) (results st) v (hasMore st) (isLoading st)
    (searchCache st) (nodePool st) (container st) (heap st).
Definition set_hasMore (v : bool) (st : State) : State :=
  mkState (CONFIG st) (products st) (normalizedData st) (searchIndex st) (rubros st)
    (searchTerm st) (currentRubro st) (results st) (offset st) v (isLoading st)
    (searchCache st) (nodePool st) (container st) (heap st).
Definition set_isLoading (v : bool) (st : State) : State :=
  mkState (CONFIG st) (products st) (normalizedData st) (searchIndex st) (rubros st)
    (searchTerm st) (currentRubro st) (results st) (offset st) (hasMore st) v
    (searchCache st) (nodePool st) (container st) (heap st).
Definition set_searchCache (v : list (jstring * addr)) (st : State) : State :=
  mkState (CONFIG st) (products st) (normalizedData st) (searchIndex st) (rubros st)
    (searchTerm st) (currentRubro st) (results st) (offset st) (hasMore st) (isLoading st)
    v (nodePool st) (container st) (heap st).
Definition set_nodePool (v : nat) (st : State) : State :=
  mkState (CONFIG st) (products st) (normalizedData st) (searchIndex st) (rubros st)
    (searchTerm st) (currentRubro st) (results st) (offset st) (hasMore st) (isLoading st)
    (searchCache st) v (container st) (heap st).
Definition set_container (v : list ScoredResult.t) (st : State) : State :=
  mkState (CONFIG st) (products st) (normalizedData st) (searchIndex st) (rubros st)
    (searchTerm st) (currentRubro st) (results st) (offset st) (hasMore st) (isLoading st)
    (searchCache st) (nodePool st) v (heap st).
Definition set_heap (v : list (list ScoredResult.t)) (st : State) : State :=
  mkState (CONFIG st) (products st) (normalizedData st) (searchIndex st) (rubros st)
    (searchTerm st) (currentRubro st) (results st) (offset st) (hasMore st) (isLoading st)
    (searchCache st) (nodePool st) (container st) v.

(** The array at an address. *)
Definition deref (h : list (list ScoredResult.t)) (a : addr) : list ScoredResult.t :=
  nth a h [].

(** [state.results], read through its reference. *)
Definition resultList (st : State) : list ScoredResult.t := deref (heap st) (results st).

(** A new array holding [l]; the state's [results] refers to it. *)
Definition assignNewResults (l : list ScoredResult.t) (st : State) : State :=
  set_results (length (heap st)) (set_heap (heap st ++ [l]) st).

(** An assignment into the array at [a], in place. *)
Fixpoint store (h : list (list ScoredResult.t)) (a : addr) (l : list ScoredResult.t)
    : list (list ScoredResult.t) :=
  match h, a with
  | [], _ => []
  | _ :: h', O => l :: h'
  | x :: h', S a' => x :: store h' a' l
  end.

(** The state the constructor builds, before [init] runs. *)
Definition constructed : State := {|
  CONFIG := defaultConfig;
  products := [];
  normalizedData := [];
  searchIndex := ∅;
  rubros := [];
  searchTerm := [];
  currentRubro := [];
  results := 0;
  offset := 0;
  hasMore := false;
  isLoading := false;
  searchCache := [];
  nodePool := 0;
  container := [];
  heap := [[]]
|}.

(** ** Loading and normalising the catalog *)

(** [normalizeText(text)] on a string. *)
Definition normalizeText (text : jstring) : jstring :=
  normalizeNFD_stripMarks (toLowerCase text).

(** One character of [replace(/[^a-z0-9\s]/g, ' ')]. *)
Definition replaceSymbol (c : ascii) : ascii :=
  if isLowerAZ c || isDigit c || isWhitespace c then c else space.

Definition normalizeSearchText (text : jstring) : jstring :=
  trim (replaceWsRuns (map replaceSymbol (normalizeText text))).

(** [this.normalizeText(v)] on a value read from a record: [v.toLowerCase]
    exists on strings only, so any other value raises a TypeError ([None]). *)
Definition normalizeTextOf (v : JsValue) : option jstring :=
  match v with
  | JStr s => Some (normalizeText s)
  | _ => None
  end.

Definition emptyString : JsValue := JStr [].

Inductive Outcome :=
  | Skipped
  | Thrown
  | Kept (p : Product.t) (n : Normalized.t).

(** The body of the [forEach] of [processProducts] for one record. *)
Definition normalizeProduct (index : nat) (product : Raw.t) : Outcome :=
  if negb (ToBoolean (Raw.codigo product)) || negb (ToBoolean (Raw.descripcion product))
     || negb (ToBoolean (Raw.precio_venta product))
  then Skipped
  else
    let codigo := trim (ToString (Raw.codigo product)) in
    let descripcion := trim (ToString (Raw.descripcion product)) in
    let rubro := trim (ToString (or (Raw.rubro product) emptyString)) in
    let marca := trim (ToString (or (Raw.marca product) emptyString)) in
    let precio_venta :=
      let n := ToNumber (Raw.precio_venta product) in
      if ToBoolean (JNum n) then n else Fin 0 in
    let searchText :=
      normalizeSearchText
        (ToString (Raw.codigo product) ++ [space] ++ ToString (Raw.descripcion product)
         ++ [space] ++ ToString (Raw.marca product) ++ [space] ++ ToString (Raw.rubro product)) in
    match normalizeTextOf (Raw.codigo product),
          normalizeTextOf (Raw.descripcion product),
          normalizeTextOf (or (Raw.marca product) emptyString),
          normalizeTextOf (or (Raw.rubro product) emptyString) with
    | Some codigoNormalized, Some descripcionNormalized,
      Some marcaNormalized, Some rubroNormalized =>
        Kept (Product.mk codigo descripcion rubro marca precio_venta)
             (Normalized.mk index codigo descripcion rubro marca precio_venta searchText
                codigoNormalized descripcionNormalized marcaNormalized rubroNormalized)
    | _, _, _, _ => Thrown
    end.

(** The [forEach] over the raw records from position [index] on; a TypeError
    leaves the load unfinished ([None]). *)
Fixpoint processProducts_from (index : nat) (raw : list Raw.t) (st : State) : option State :=
  match raw with
  | [] => Some st
  | product :: rest =>
      match normalizeProduct index product with
      | Skipped => processProducts_from (S index) rest st
      | Thrown => None
      | Kept p n =>
          let st1 := set_products (products st ++ [p]) st in
          let st2 := set_normalizedData (normalizedData st1 ++ [n]) st1 in
          let st3 :=
            if negb (Nat.eqb (length (Normalized.rubro n)) 0)
            then set_rubros (setAdd jstring_eqb (rubros st2) (Normalized.rubro n)) st2
            else st2 in
          processProducts_from (S index) rest st3
      end
  end.

Definition processProducts (raw : list Raw.t) (st : State) : option State :=
  processProducts_from 0 raw (set_rubros [] (set_normalizedData [] (set_products [] st))).

(** ** The inverted index *)

Definition indexWord (index : nat) (idx : gmap (list ascii) (list nat)) (word : jstring)
    : gmap (list ascii) (list nat) :=
  if 2 <=? length word then
    let idx1 := match idx !! word with
                | Some _ => idx
                | None => <[word := []]> idx
                end in
    match idx1 !! word with
    | Some positions => <[word := setAdd Nat.eqb positions index]> idx1
    | None => idx1
    end
  else idx.

Definition indexProduct (index : nat) (idx : gmap (list ascii) (list nat))
    (product : Normalized.t) : gmap (list ascii) (list nat) :=
  let words := setFrom jstring_eqb (split_ws (Normalized.searchText product)) in
  fold_left (indexWord index) words idx.

Fixpoint buildIndex_from (index : nat) (data : list Normalized.t)
    (idx : gmap (list ascii) (list nat)) : gmap (list ascii) (list nat) :=
  match data with
  | [] => idx
  | product :: rest => buildIndex_from (S index) rest (indexProduct index idx product)
  end.

Definition buildSearchStructures (st : State) : State :=
  set_searchIndex (buildIndex_from 0 (normalizedData st) ∅) st.

(** ** Searching *)

(** [normalizeSearchText(searchTerm).split(/\s+/).filter(w => w.length >= 2)] *)
Definition searchWords (term : jstring) : list jstring :=
  List.filter (fun word => 2 <=? length word) (split_ws (normalizeSearchText term)).

(** [state.searchIndex.get(word) || new Set()] *)
Definition indicesOf (st : State) (word : jstring) : list nat :=
  match searchIndex st !! word with
  | Some indices => indices
  | None => []
  end.

(** The [forEach] that intersects the position sets of the words. *)
Definition intersectWords (st : State) (words : list jstring) : option (list nat) :=
  match words with
  | [] => None
  | first :: others =>
      Some (fold_left
              (fun productIndices word =>
                 setFrom Nat.eqb
                   (List.filter (fun idx => setHas Nat.eqb (indicesOf st word) idx) productIndices))
              others
              (setFrom Nat.eqb (indicesOf st first)))
  end.

(** [state.products[index]] and [state.normalizedData[index]].  Every
    position the index of a running instance holds is in range, so
    the [undefined] of an out-of-range read never reaches the scoring. *)
Definition candidateAt (st : State) (index : nat) : Candidate.t :=
  Candidate.mk (nth index (products st) Product.undefined)
               (nth index (normalizedData st) Normalized.undefined)
               index.

Definition findRelevantProducts (st : State) : list Candidate.t :=
  if Nat.eqb (length (searchTerm st)) 0 then []
  else
    let words := searchWords (searchTerm st) in
    if Nat.eqb (length words) 0 then []
    else
      match intersectWords st words with
      | None => []
      | Some productIndices =>
          if Nat.eqb (length productIndices) 0 then []
          else map (candidateAt st) productIndices
      end.

(** What one query word adds to a candidate's score. *)
Definition wordScore (w : ScoreWeights) (normalized : Normalized.t) (word : jstring) : Z :=
  let byCode :=
    if jstring_eqb (Normalized.codigoNormalized normalized) word then CODIGO_EXACTO w
    else if startsWith (Normalized.codigoNormalized normalized) word then CODIGO_STARTS_WITH w
    else if includes (Normalized.codigoNormalized normalized) word then CODIGO_CONTAINS w
    else 0%Z in
  let descWords := split_ws (Normalized.descripcionNormalized normalized) in
  let byDescription :=
    if arrayIncludes descWords word then DESCRIPCION_PALABRA w
    else if includes (Normalized.descripcionNormalized normalized) word then DESCRIPCION_CONTAINS w
    else 0%Z in
  let byBrand :=
    if jstring_eqb (Normalized.marcaNormalized normalized) word then MARCA_EXACTA w
    else if includes (Normalized.marcaNormalized normalized) word then MARCA_CONTAINS w
    else 0%Z in
  let byCategory :=
    if jstring_eqb (Normalized.rubroNormalized normalized) word then RUBRO_EXACTO w else 0%Z in
  let matches := countWordMatches word (Normalized.searchText normalized) in
  (byCode + byDescription + byBrand + byCategory + Z.of_nat matches * MULTIPLE_MATCHES w)%Z.

(** The sum over the query words, before the category veto. *)
Definition textScore (w : ScoreWeights) (normalized : Normalized.t) (words : list jstring) : Z :=
  fold_left (fun score word => (score + wordScore w normalized word)%Z) words 0%Z.

(** [state.currentRubro && item.product.rubro !== state.currentRubro] *)
Definition vetoed (st : State) (item : Candidate.t) : bool :=
  negb (Nat.eqb (length (currentRubro st)) 0)
  && negb (jstring_eqb (Product.rubro (Candidate.product item)) (currentRubro st)).

Definition scoreItem (st : State) (words : list jstring) (item : Candidate.t) : ScoredResult.t :=
  let score := textScore (SCORE_WEIGHTS (CONFIG st)) (Candidate.normalized item) words in
  let score := if vetoed st item then 0%Z else score in
  ScoredResult.mk (Candidate.product item) (Candidate.normalized item) (Candidate.index item)
                  (inject_Z score / 100)%Q.

Definition calculateProductScores (st : State) (items : list Candidate.t)
    : list ScoredResult.t :=
  if Nat.eqb (length (searchTerm st)) 0 || Nat.eqb (length items) 0 then []
  else map (scoreItem st (searchWords (searchTerm st))) items.

Definition getCacheKey (st : State) : jstring :=
  searchTerm st ++ str "-" ++ currentRubro st.

(** [(a, b) => b.score - a.score] *)
Definition byScoreDesc (a b : ScoredResult.t) : JsNumber :=
  Fin (ScoredResult.score b - ScoredResult.score a)%Q.

(** [(a, b) => a.product.precio_venta - b.product.precio_venta] *)
Definition byPriceAsc (a b : ScoredResult.t) : JsNumber :=
  sub (Product.precio_venta (ScoredResult.product a))
      (Product.precio_venta (ScoredResult.product b)).

(** [(a, b) => b.product.precio_venta - a.product.precio_venta] *)
Definition byPriceDesc (a b : ScoredResult.t) : JsNumber :=
  sub (Product.precio_venta (ScoredResult.product b))
      (Product.precio_venta (ScoredResult.product a)).

(** [filter(r => r.score >= MIN_SCORE).sort(...).slice(0, MAX_RESULTS)] *)
Definition rank (cfg : Config) (scored : list ScoredResult.t) : list ScoredResult.t :=
  slice 0 (MAX_RESULTS cfg)
    (sort byScoreDesc
       (List.filter (fun result => Qle_bool (MIN_SCORE cfg) (ScoredResult.score result)) scored)).

(** [cacheSearchResults(key)]: the oldest entry is deleted when the cache is
    full, then the key is set to a copy of the result array. *)
Definition cacheSearchResults (key : jstring) (st : State) : State :=
  let cache1 :=
    if CACHE_SIZE (CONFIG st) <=? length (searchCache st) then
      match mapFirstKey (searchCache st) with
      | Some oldestKey => mapDelete (searchCache st) oldestKey
      | None => searchCache st
      end
    else searchCache st in
  let copy := length (heap st) in
  set_searchCache (mapSet cache1 key copy) (set_heap (heap st ++ [resultList st]) st).

(** ** Delivering the results in batches *)

(** [clearProductsContainer]: the children go to the pool. *)
Definition clearProductsContainer (st : State) : State :=
  set_container [] (set_nodePool (nodePool st + length (container st)) st).

(** The [batch] of [renderProductBatch]. *)
Definition productBatch (st : State) : list ScoredResult.t :=
  let start := offset st in
  let stop := Nat.min (start + BATCH_SIZE (CONFIG st)) (length (resultList st)) in
  slice start stop (resultList st).

Definition renderProductBatch (st : State) : State :=
  if Nat.eqb (length (resultList st)) 0 then st
  else
    let start := offset st in
    let stop := Nat.min (start + BATCH_SIZE (CONFIG st)) (length (resultList st)) in
    let batch := slice start stop (resultList st) in
    let st1 := set_nodePool (nodePool st - length batch) st in
    let st2 := set_container (container st1 ++ batch) st1 in
    let st3 := set_offset stop st2 in
    set_hasMore (stop <? length (resultList st)) st3.

Definition renderResults (st : State) : State :=
  let st1 := set_offset 0 st in
  let st2 := set_hasMore (BATCH_SIZE (CONFIG st1) <? length (resultList st1)) st1 in
  let st3 := clearProductsContainer st2 in
  if Nat.eqb (length (resultList st3)) 0 then st3
  else renderProductBatch st3.

(** [handleScroll], with the position test of the viewport given as
    [nearBottom]; the animation-frame callback is run before the next
    event. *)
Definition handleScroll (nearBottom : bool) (st : State) : State :=
  if negb (hasMore st) || isLoading st then st
  else if nearBottom then
    set_isLoading false (renderProductBatch (set_isLoading true st))
  else st.

Definition performSearch (st : State) : State :=
  let cacheKey := getCacheKey st in
  if mapHas (searchCache st) cacheKey then
    match mapGet (searchCache st) cacheKey with
    | Some cached => renderResults (set_results cached st)
    | None => st
    end
  else
    let relevantProducts := findRelevantProducts st in
    let scoredResults := calculateProductScores st relevantProducts in
    let st1 := assignNewResults (rank (CONFIG st) scoredResults) st in
    let st2 := cacheSearchResults cacheKey st1 in
    renderResults st2.

(** [sortResults(sortType)]: the array [state.results] refers to is sorted
    in place. *)
Definition sortResults (sortType : jstring) (st : State) : State :=
  if Nat.eqb (length (resultList st)) 0 then st
  else
    let compare :=
      if jstring_eqb sortType (str "price_asc") then byPriceAsc
      else if jstring_eqb sortType (str "price_desc") then byPriceDesc
      else byScoreDesc in
    set_heap (store (heap st) (results st) (sort compare (resultList st))) st.

Definition clearSearch (st : State) : State :=
  assignNewResults [] (set_currentRubro [] (set_searchTerm [] st)).

(** ** The operations and the event handlers *)

(** The query engine's operation: the query text and the category filter
    are put in the state and [performSearch] runs. *)
Definition search (queryText categoryFilter : jstring) (st : State) : State :=
  performSearch (set_currentRubro categoryFilter (set_searchTerm queryText st)).

(** [handleSearchInput(text)], with the debounce timer firing before the
    next event. *)
Definition handleSearchInput (text : jstring) (st : State) : State :=
  let st1 := set_searchTerm (trim text) st in
  if Nat.eqb (length text) 0 then st1
  else performSearch st1.

(** The [change] listener of the category filter. *)
Definition handleRubroChange (value : jstring) (st : State) : State :=
  performSearch (set_currentRubro value st).

(** The [change] listener of the sort control. *)
Definition handleSortChange (value : jstring) (st : State) : State :=
  renderResults (sortResults value st).

(** The events the listeners of [setupEventListeners] pass to the search
    state: input, clear, category, sort and scroll.  The modal and product
    click listeners read the state only.  The two listeners on [window] for
    [online] and [offline] write the container's markup without the state;
    they are no event here, and no statement below speaks of a container
    that they have rewritten. *)
Inductive Event :=
  | SearchInput (text : jstring)
  | RubroChange (value : jstring)
  | SortChange (value : jstring)
  | Scroll (nearBottom : bool)
  | ClearClick.

Definition handle (st : State) (e : Event) : State :=
  match e with
  | SearchInput text => handleSearchInput text st
  | RubroChange value => handleRubroChange value st
  | SortChange value => handleSortChange value st
  | Scroll nearBottom => handleScroll nearBottom st
  | ClearClick => clearSearch st
  end.

(** [init] after a successful fetch: [processProducts],
    [buildSearchStructures], and the ten nodes [setupInitialUI] pools. *)
Definition init (raw : list Raw.t) : option State :=
  match processProducts raw constructed with
  | Some st => Some (set_nodePool 10 (buildSearchStructures st))
  | None => None
  end.

(** The states of a running instance: what [init] leaves, and what the
    operations make of it. *)
Inductive reachable (raw : list Raw.t) : State -> Prop :=
  | reach_init st : init raw = Some st -> reachable raw st
  | reach_search st q r : reachable raw st -> reachable raw (search q r st)
  | reach_event st e : reachable raw st -> reachable raw (handle st e).

(** ** Sample catalogs used by the examples *)

Definition rawProduct (codigo descripcion marca rubro : string) (precio : Q) : Raw.t :=
  Raw.mk (JStr (str codigo)) (JStr (str descripcion)) (JStr (str rubro)) (JStr (str marca))
         (JNum (Fin precio)).

(** A record whose price is the number 0. *)
Definition recordPriceZero : Raw.t :=
  rawProduct "100" "MARTILLO DE OREJAS" "ACME" "HERRAMIENTAS" 0.

(** A record whose price is the number -5. *)
Definition recordPriceNegative : Raw.t :=
  rawProduct "100" "MARTILLO DE OREJAS" "ACME" "HERRAMIENTAS" (-5 # 1).


(** A record whose price is a string that is not a number. *)
Definition recordPriceText : Raw.t :=
  Raw.mk (JStr (str "100")) (JStr (str "MARTILLO DE OREJAS")) (JStr (str "HERRAMIENTAS"))
         (JStr (str "ACME")) (JStr (str "consultar")).

(** ** Properties of the normaliser *)

(** A field is present when the record has it with a value. *)
Definition present (v : JsValue) : Prop := v <> JUndefined /\ v <> JNull.

Definition isString (v : JsValue) : bool :=
  match v with JStr _ => true | _ => false end.

(** [Number(v) || 0] *)
Definition coercedPrice (v : JsValue) : JsNumber :=
  if ToBoolean (JNum (ToNumber v)) then ToNumber v else Fin 0.

Lemma normalizeTextOf_isString v :
  (exists s, normalizeTextOf v = Some s) <-> isString v = true.
Proof.
  destruct v; simpl; split; intros H; try discriminate; try (destruct H; discriminate);
    eauto.
Qed.

Lemma normalizeTextOf_None v : normalizeTextOf v = None <-> isString v = false.
Proof. destruct v; simpl; split; intros H; congruence. Qed.

Lemma coercedPrice_not_NaN v : coercedPrice v <> NaN.
Proof.
  unfold coercedPrice. destruct (ToNumber v) as [|s|q]; simpl; try discriminate.
  destruct (negb (Qeq_bool q 0)); discriminate.
Qed.

Lemma coercedPrice_NaN v : ToNumber v = NaN -> coercedPrice v = Fin 0.
Proof. unfold coercedPrice. intros ->. reflexivity. Qed.


(** The two-record catalog of the specification's scenarios. *)
Definition catalogScenario : list Raw.t :=
  [ rawProduct "100" "MARTILLO DE OREJAS" "ACME" "HERRAMIENTAS" 1000;
    rawProduct "200" "TORNILLO 3X25" "ACME" "TORNILLOS" 50 ].

(** The codes and scores of a result list, for display. *)
Definition codesAndScores (l : list ScoredResult.t) : list (jstring * Q) :=
  map (fun r => (Product.codigo (ScoredResult.product r), ScoredResult.score r)) l.

(** The catalog fields and the configuration, which no operation after
    [init] assigns. *)
Definition sameCatalog (st st' : State) : Prop :=
  CONFIG st' = CONFIG st /\ products st' = products st
  /\ normalizedData st' = normalizedData st /\ searchIndex st' = searchIndex st.

(** What the index records about the catalog [data]: every token has at
    least two characters, and every position a token maps to is a position
    of [data] whose search text has the token among its words. *)
Definition indexSound (data : list Normalized.t) (idx : gmap (list ascii) (list nat)) : Prop :=
  (forall word positions, idx !! word = Some positions -> 2 <= length word)
  /\ (forall word positions p, idx !! word = Some positions -> In p positions ->
        exists n, nth_error data p = Some n
                  /\ In word (split_ws (Normalized.searchText n))).

(** What a step appended to the rendered container. *)
Definition page (before after : State) : list ScoredResult.t :=
  skipn (length (container before)) (container after).

(** A result with a given code, price and score, for the examples. *)
Definition sampleResult (codigo : string) (precio score : Q) (index : nat) : ScoredResult.t :=
  ScoredResult.mk
    (Product.mk (str codigo) (str codigo) [] [] (Fin precio))
    (Normalized.mk index (str codigo) (str codigo) [] [] (Fin precio) (str codigo)
       (str codigo) (str codigo) [] [])
    index score.

Definition fiveResults : list ScoredResult.t :=
  [ sampleResult "a1" 10 (90 # 100) 0; sampleResult "a2" 20 (80 # 100) 1;
    sampleResult "a3" 30 (70 # 100) 2; sampleResult "a4" 40 (60 # 100) 3;
    sampleResult "a5" 50 (50 # 100) 4 ].

(** An instance configured with a batch size of 2 whose result list holds
    five ranked results. *)
Definition windowScenario : State :=
  assignNewResults fiveResults
    (set_CONFIG {| MAX_RESULTS := 25; DEBOUNCE_MS := 350; MIN_SCORE := 15 # 100;
                   BATCH_SIZE := 2; CACHE_SIZE := 50;
                   SCORE_WEIGHTS := SCORE_WEIGHTS defaultConfig |} constructed).

(** The state of the window over the list [rs] with page size [size]. *)
Definition windowOver (rs : list ScoredResult.t) (size : nat) (w : State) : Prop :=
  resultList w = rs /\ BATCH_SIZE (CONFIG w) = size /\ isLoading w = false
  /\ offset w <= length rs /\ hasMore w = (offset w <? length rs).

(** The keys of the query cache, oldest first. *)
Definition cacheKeys (st : State) : list jstring := map fst (searchCache st).

(** The cache key of a query text and a category filter. *)
Definition cacheKeyOf (queryText categoryFilter : jstring) : jstring :=
  queryText ++ str "-" ++ categoryFilter.

(** A sequence of searches, each given as query text and category filter. *)
Definition runSearches (l : list (jstring * jstring)) (st : State) : State :=
  fold_left (fun s qr => search (fst qr) (snd qr) s) l st.

Definition keysOf (l : list (jstring * jstring)) : list jstring :=
  map (fun qr => cacheKeyOf (fst qr) (snd qr)) l.

(** The query texts [q0], [q1], ...: [n] letters [q]. *)
Definition numberedQuery (n : nat) : jstring * jstring := (repeat "q"%char (S n), []).

Definition fiftyQueries : list (jstring * jstring) := map numberedQuery (seq 0 50).

(** [x] may stay before [y] under a comparator: the sort does not move [y]
    in front of [x]. *)
Definition inOrder {A} (compare : A -> A -> JsNumber) (x y : A) : Prop :=
  positive (compare x y) = false.

(** The result list computed on a cache miss. *)
Definition freshResults (st : State) : list ScoredResult.t :=
  rank (CONFIG st) (calculateProductScores st (findRelevantProducts st)).

(** A catalog in which the query [100] is the code of one product and a
    word of the description of a cheaper one. *)
Definition catalogCodeAndMention : list Raw.t :=
  [ rawProduct "100" "MARTILLO DE OREJAS" "ACME" "HERRAMIENTAS" 1000;
    rawProduct "200" "REPUESTO 100" "ACME" "HERRAMIENTAS" 50 ].

(** A catalog with the categories [ELECTRICIDAD-LAMPARAS] and [LAMPARAS]. *)
Definition catalogHyphenCategory : list Raw.t :=
  [ rawProduct "100" "PORTALAMPARA" "ACME" "ELECTRICIDAD-LAMPARAS" 1000;
    rawProduct "200" "PORTALAMPARA" "ACME" "LAMPARAS" 50 ].

(** The codes and categories of a result list, for display. *)
Definition codesAndCategories (l : list ScoredResult.t) : list (jstring * jstring) :=
  map (fun r => (Product.codigo (ScoredResult.product r),
                 Product.rubro (ScoredResult.product r))) l.

(** The instance [init] leaves for a catalog that loads (the constructed
    one otherwise). *)
Definition loaded (raw : list Raw.t) : State :=
  match init raw with
  | Some st => st
  | None => constructed
  end.

(** The cache after the eviction step of [cacheSearchResults]. *)
Definition evicted (capacity : nat) (cache : list (jstring * addr)) : list (jstring * addr) :=
  if capacity <=? length cache then
    match mapFirstKey cache with
    | Some oldestKey => mapDelete cache oldestKey
    | None => cache
    end
  else cache.

(** ** Words of a text, for the statements about search text *)

Definition nonEmpty (w : jstring) : bool := negb (length w =? 0).

(** The non-empty pieces of [split(/\s+/)]: the maximal runs of characters
    that are not white space. *)
Definition tokens (s : jstring) : list jstring := List.filter nonEmpty (split_ws s).

Definition firstPiece (s : jstring) : jstring := hd [] (split_ws s).
Definition restPieces (s : jstring) : list jstring := tl (split_ws s).

(** What [normalizeSearchText] makes of one character before the white
    space is collapsed and trimmed. *)
Definition searchChar (c : ascii) : ascii :=
  replaceSymbol (stripMarksChar (toLowerCaseChar c)).

(** A product and its normalised record come from one raw record. *)
Definition catalogPair (p : Product.t) (n : Normalized.t) : Prop :=
  exists index raw, normalizeProduct index raw = Kept p n.

(** The loaded catalog: the index is sound and the two arrays are paired. *)
Definition catalogOk (st : State) : Prop :=
  indexSound (normalizedData st) (searchIndex st)
  /\ Forall2 catalogPair (products st) (normalizedData st)
  /\ (0 < MIN_SCORE (CONFIG st))%Q.

(** A cached result is good for a key when its search text has every query
    word of every query text that, with some category, makes that key. *)
Definition entryGood (key : jstring) (result : ScoredResult.t) : Prop :=
  forall q r, cacheKeyOf q r = key ->
    forall word, In word (searchWords q) ->
      In word (split_ws (Normalized.searchText (ScoredResult.normalized result))).

(** Every cache entry refers to an array of the store whose results are
    good for the entry's key. *)
Definition cacheInv (st : State) : Prop :=
  forall key a, In (key, a) (searchCache st) ->
    a < length (heap st)
    /\ forall result, In result (deref (heap st) a) -> entryGood key result.

(** The first piece, if it is not empty, and the non-empty later pieces. *)
Definition emit (piece : jstring) : list jstring :=
  if nonEmpty piece then [piece] else [].

(** ** Further vocabulary for the statements *)

(** A character of [a-z0-9]. *)
Definition isAlnum (c : ascii) : bool := isLowerAZ c || isDigit c.

(** The records [processProducts] keeps, in order, each with the position
    of its raw record. *)
Fixpoint keptRecords (index : nat) (raw : list Raw.t) : list (Product.t * Normalized.t) :=
  match raw with
  | [] => []
  | product :: rest =>
      match normalizeProduct index product with
      | Kept p n => (p, n) :: keptRecords (S index) rest
      | _ => keptRecords (S index) rest
      end
  end.

(** A result is an entry of the catalog: its product and its normalised
    record are the ones at its position. *)
Definition catalogEntry (st : State) (result : ScoredResult.t) : Prop :=
  nth_error (products st) (ScoredResult.index result) = Some (ScoredResult.product result)
  /\ nth_error (normalizedData st) (ScoredResult.index result)
     = Some (ScoredResult.normalized result).

(** Every array of the store holds at most [MAX_RESULTS] results, each a
    catalog entry with a score of at least [MIN_SCORE]. *)
Definition heapInv (st : State) : Prop :=
  forall a,
    length (deref (heap st) a) <= MAX_RESULTS (CONFIG st)
    /\ forall result, In result (deref (heap st) a) ->
         (MIN_SCORE (CONFIG st) <= ScoredResult.score result)%Q /\ catalogEntry st result.

(** The comparator [sortResults] uses for a sort type. *)
Definition comparatorOf (sortType : jstring) : ScoredResult.t -> ScoredResult.t -> JsNumber :=
  if jstring_eqb sortType (str "price_asc") then byPriceAsc
  else if jstring_eqb sortType (str "price_desc") then byPriceDesc
  else byScoreDesc.

(** A catalog with a skipped record between two kept ones. *)
Definition catalogWithGap : list Raw.t :=
  [ rawProduct "100" "MARTILLO DE OREJAS" "ACME" "HERRAMIENTAS" 1000;
    recordPriceZero;
    rawProduct "200" "TORNILLO 3X25" "ACME" "TORNILLOS" 50 ].

(** No token of the index maps to an empty set. *)
Definition indexNonEmpty (idx : gmap (list ascii) (list nat)) : Prop :=
  forall word positions, idx !! word = Some positions -> positions <> [].

(** A score numerator: a non-negative multiple of 5. *)
Definition multipleOfFive (z : Z) : Prop := exists k : nat, z = (5 * Z.of_nat k)%Z.

(** What [heapInv] asks of one array. *)
Definition arrayOk (st : State) (l : list ScoredResult.t) : Prop :=
  length l <= MAX_RESULTS (CONFIG st)
  /\ forall result, In result l ->
       (MIN_SCORE (CONFIG st) <= ScoredResult.score result)%Q /\ catalogEntry st result.

(** The scenario instance after a search, a second search that hits the
    cache, a price sort and a third search. *)
Definition stateAfterPriceSort : State :=
  search (str "100") []
    (handle (search (str "100") [] (search (str "100") [] (loaded catalogCodeAndMention)))
            (SortChange (str "price_asc"))).

(** The scenario instance after the search for [acme]. *)
Definition stateAfterAcme : State := search (str "acme") [] (loaded catalogScenario).

(** [words.join(' ')] *)
Fixpoint joinWords (words : list jstring) : jstring :=
  match words with
  | [] => []
  | word :: rest =>
      match rest with
      | [] => word
      | _ :: _ => word ++ space :: joinWords rest
      end
  end.

(** The later words of a join, each after its separating space. *)
Definition joinRest (rest : list jstring) : jstring :=
  match rest with
  | [] => []
  | _ :: _ => space :: joinWords rest
  end.

(** [a <= b] on numbers; false when one of them is NaN. *)
Definition numLe (a b : JsNumber) : bool :=
  match a, b with
  | NaN, _ | _, NaN => false
  | Inf true, _ => true
  | _, Inf false => true
  | Inf false, _ => false
  | _, Inf true => false
  | Fin x, Fin y => Qle_bool x y
  end.

(** [result.product.precio_venta] *)
Definition priceOf (result : ScoredResult.t) : JsNumber :=
  Product.precio_venta (ScoredResult.product result).

(** An element of the array parsed from the file: an object, read through
    its five fields, or [null].  A number, a string, a boolean or an array
    has none of the five fields and behaves as an object without them. *)
Inductive Element :=
  | Null
  | Object (product : Raw.t).

(** The body of the [forEach] of [processProducts] on an element: reading
    [product.codigo] of [null] raises a TypeError. *)
Definition normalizeElement (index : nat) (element : Element) : Outcome :=
  match element with
  | Null => Thrown
  | Object product => normalizeProduct index product
  end.








(** Reduction of the field projections through the field assignments. *)
Ltac fields :=
  cbn [CONFIG products normalizedData searchIndex rubros searchTerm currentRubro results
       offset hasMore isLoading searchCache nodePool container heap
       set_CONFIG set_products set_normalizedData set_searchIndex set_rubros set_searchTerm
       set_currentRubro set_results set_offset set_hasMore set_isLoading set_searchCache
       set_nodePool set_container set_heap assignNewResults] in *.

(** ** Examples of the string and number primitives *)
Example StringToNumber_examples :
  Js.StringToNumber (Js.str " 12.50 ") = Js.Fin (25 # 2)
  /\ Js.StringToNumber (Js.str "abc") = Js.NaN
  /\ Js.StringToNumber (Js.str "-7e2") = Js.Fin (-700 # 1)
  /\ Js.StringToNumber (Js.str "0x1F") = Js.Fin (31 # 1)
  /\ Js.StringToNumber (Js.str "") = Js.Fin 0
  /\ Js.StringToNumber (Js.str "1.") = Js.Fin (1 # 1)
  /\ Js.StringToNumber (Js.str ".") = Js.NaN
  /\ Js.StringToNumber (Js.str "-Infinity") = Js.Inf true
  /\ Js.StringToNumber (Js.str "12px") = Js.NaN.
Proof. vm_compute. repeat split. Qed.

(** Rounding to binary64: one tenth is the nearest binary64, a magnitude
    below the smallest subnormal is zero, one above the largest finite value
    is an infinity, and 2^53 + 1 is a tie that goes to the even 2^53. *)
Example StringToNumber_rounds :
  Js.StringToNumber (Js.str "0.1") = Js.Fin (3602879701896397 # 36028797018963968)
  /\ Js.StringToNumber (Js.str "-1e-400") = Js.Fin 0
  /\ Js.StringToNumber (Js.str "1e400") = Js.Inf false
  /\ Js.StringToNumber (Js.str "-1e400") = Js.Inf true
  /\ Js.StringToNumber (Js.str "5e-324") = Js.Fin (1 # Pos.pow 2 1074)
  /\ Js.StringToNumber (Js.str "2e-324") = Js.Fin 0
  /\ Js.StringToNumber (Js.str "9007199254740993") = Js.Fin (9007199254740992 # 1)
  /\ Js.StringToNumber (Js.str "1000") = Js.Fin (1000 # 1).
Proof. vm_compute. repeat split. Qed.

Example split_ws_examples :
  Js.split_ws (Js.str "a  b") = [Js.str "a"; Js.str "b"]
  /\ Js.split_ws (Js.str " a") = [[]; Js.str "a"]
  /\ Js.split_ws (Js.str "a ") = [Js.str "a"; []]
  /\ Js.split_ws (Js.str "") = [[]]
  /\ Js.split_ws (Js.str "  ") = [[]; []].
Proof. vm_compute. repeat split. Qed.

Example countWordMatches_examples :
  Js.countWordMatches (Js.str "ab") (Js.str "ab ab abc ab") = 3
  /\ Js.countWordMatches (Js.str "ab") (Js.str "xab ab") = 1
  /\ Js.ToString (Js.JNum (Js.Fin (-1250 # 100))) = Js.str "-12.5"
  /\ Js.ToString (Js.JNum (Js.Fin 0)) = Js.str "0".
Proof. vm_compute. repeat split. Qed.


(** The outcome of [normalizeProduct], case by case. *)
Lemma normalizeProduct_cases (index : nat) (product : Raw.t) :
  let truthy :=
    ToBoolean (Raw.codigo product) && ToBoolean (Raw.descripcion product)
    && ToBoolean (Raw.precio_venta product) in
  let strings :=
    isString (Raw.codigo product) && isString (Raw.descripcion product)
    && isString (or (Raw.marca product) emptyString)
    && isString (or (Raw.rubro product) emptyString) in
  match normalizeProduct index product with
  | Skipped => truthy = false
  | Thrown => truthy = true /\ strings = false
  | Kept p n =>
      truthy = true /\ strings = true
      /\ Product.precio_venta p = coercedPrice (Raw.precio_venta product)
      /\ Normalized.precio_venta n = coercedPrice (Raw.precio_venta product)
  end.
Proof.
  unfold normalizeProduct.
  destruct (ToBoolean (Raw.codigo product));
    destruct (ToBoolean (Raw.descripcion product));
    destruct (ToBoolean (Raw.precio_venta product)); cbn [negb orb andb]; try reflexivity.
  destruct (normalizeTextOf (Raw.codigo product)) eqn:Ec;
    [apply mk_is_Some, normalizeTextOf_isString in Ec
    | apply normalizeTextOf_None in Ec];
    rewrite Ec; cbn [andb]; [| now split].
  destruct (normalizeTextOf (Raw.descripcion product)) eqn:Ed;
    [apply mk_is_Some, normalizeTextOf_isString in Ed
    | apply normalizeTextOf_None in Ed];
    rewrite Ed; cbn [andb]; [| now split].
  destruct (normalizeTextOf (or (Raw.marca product) emptyString)) eqn:Em;
    [apply mk_is_Some, normalizeTextOf_isString in Em
    | apply normalizeTextOf_None in Em];
    rewrite Em; cbn [andb]; [| now split].
  destruct (normalizeTextOf (or (Raw.rubro product) emptyString)) eqn:Er;
    [apply mk_is_Some, normalizeTextOf_isString in Er
    | apply normalizeTextOf_None in Er];
    rewrite Er; cbn [andb]; [| now split].
  repeat split.
Qed.

(** C3, as the code has it.  A record whose text fields are strings (code
    and description, and brand and category unless they are falsy) is kept
    exactly when its code, description and price are truthy: not absent,
    not null, not false, not the empty string, not 0.  Any record is skipped
    exactly when one of the three is falsy.  A kept record's price is
    [Number(raw) || 0]: never NaN, 0 when the raw price is not numeric, and
    the raw price itself when that is a number, so that a negative number
    stays negative. *)
Theorem normalizeProduct_kept_iff (index : nat) (product : Raw.t) :
  (isString (Raw.codigo product) = true -> isString (Raw.descripcion product) = true ->
   isString (or (Raw.marca product) emptyString) = true ->
   isString (or (Raw.rubro product) emptyString) = true ->
   ((exists p n, normalizeProduct index product = Kept p n) <->
      ToBoolean (Raw.codigo product) = true /\ ToBoolean (Raw.descripcion product) = true
      /\ ToBoolean (Raw.precio_venta product) = true))
  /\ (normalizeProduct index product = Skipped <->
        ~ (ToBoolean (Raw.codigo product) = true /\ ToBoolean (Raw.descripcion product) = true
           /\ ToBoolean (Raw.precio_venta product) = true))
  /\ (forall p n, normalizeProduct index product = Kept p n ->
        Product.precio_venta p = coercedPrice (Raw.precio_venta product)
        /\ Normalized.precio_venta n = coercedPrice (Raw.precio_venta product)
        /\ Product.precio_venta p <> NaN
        /\ (ToNumber (Raw.precio_venta product) = NaN -> Product.precio_venta p = Fin 0)
        /\ (forall x, Raw.precio_venta product = JNum x -> Product.precio_venta p = x)
        /\ (forall q, Raw.precio_venta product = JNum (Fin q) -> (q < 0)%Q ->
              nonNegative (Product.precio_venta p) = false)).
Proof.
  pose proof (normalizeProduct_cases index product) as H. cbv zeta in H.
  assert (Hnum : forall x, Raw.precio_venta product = JNum x ->
            ToBoolean (Raw.precio_venta product) = true ->
            coercedPrice (Raw.precio_venta product) = x).
  { intros x -> Hx. unfold coercedPrice. simpl ToNumber. now rewrite Hx. }
  destruct (normalizeProduct index product) as [| |p n].
  - apply andb_false_iff in H. rewrite andb_false_iff in H.
    split; [intros _ _ _ _; split; [intros (p & n & E); discriminate |]|].
    + intros (Hc & Hd & Hp). rewrite Hc, Hd, Hp in H. intuition discriminate.
    + split; [split; [intros _ (Hc & Hd & Hp) | reflexivity] | intros p n E; discriminate].
      rewrite Hc, Hd, Hp in H. intuition discriminate.
  - destruct H as [Ht Hs]. apply andb_true_iff in Ht as [Ht Hp].
    apply andb_true_iff in Ht as [Hc Hd].
    split; [intros Sc Sd Sm Sr; rewrite Sc, Sd, Sm, Sr in Hs; discriminate |].
    split; [split; [discriminate | intros N; exfalso; apply N; auto]
           | intros p n E; discriminate].
  - destruct H as (Ht & Hs & Pp & Pn). apply andb_true_iff in Ht as [Ht Hp].
    apply andb_true_iff in Ht as [Hc Hd].
    split; [intros _ _ _ _; split; [auto | eauto] |].
    split; [split; [discriminate | intros N; exfalso; apply N; auto]|].
    intros p' n' E. injection E as <- <-. rewrite Pp, Pn.
    repeat split; auto using coercedPrice_not_NaN, coercedPrice_NaN.
    intros q Hq Hneg. rewrite (Hnum _ Hq Hp). simpl.
    destruct (Qle_bool 0 q) eqn:E; [| reflexivity].
    apply Qle_bool_iff in E. lra.
Qed.

(** The rule at two records whose text fields are strings: a price that is
    not a number becomes 0, and a price of -5 stays -5. *)
Lemma normalizeProduct_kept_iff_witness :
  (exists p n, normalizeProduct 0 recordPriceText = Kept p n
               /\ Product.precio_venta p = Fin 0)
  /\ (exists p n, normalizeProduct 0 recordPriceNegative = Kept p n
                  /\ Product.precio_venta p = Fin (-5 # 1)
                  /\ nonNegative (Product.precio_venta p) = false).
Proof.
  destruct (normalizeProduct_kept_iff 0 recordPriceText) as (Hk & _ & Hprice).
  destruct (normalizeProduct_kept_iff 0 recordPriceNegative) as (Hk' & _ & Hprice').
  split.
  - destruct (proj2 (Hk eq_refl eq_refl eq_refl eq_refl)) as (p & n & E);
      [vm_compute; repeat split |].
    exists p, n. split; [exact E |].
    destruct (Hprice p n E) as (_ & _ & _ & Hnan & _). apply Hnan. vm_compute. reflexivity.
  - destruct (proj2 (Hk' eq_refl eq_refl eq_refl eq_refl)) as (p & n & E);
      [vm_compute; repeat split |].
    exists p, n. split; [exact E |].
    destruct (Hprice' p n E) as (_ & _ & _ & _ & Hsame & Hneg).
    split; [apply Hsame; reflexivity |].
    apply (Hneg (-5 # 1)%Q); [reflexivity | reflexivity].
Defined.

(** C3 as the specification words it fails on the code: a record whose
    three fields are present is skipped when its price is 0, and a record
    with a negative price is kept with that negative price. *)
Lemma normalizeProduct_counterexample :
  (present (Raw.codigo recordPriceZero) /\ present (Raw.descripcion recordPriceZero)
   /\ present (Raw.precio_venta recordPriceZero)
   /\ normalizeProduct 0 recordPriceZero = Skipped)
  /\ (present (Raw.codigo recordPriceNegative)
      /\ present (Raw.descripcion recordPriceNegative)
      /\ present (Raw.precio_venta recordPriceNegative)
      /\ exists p n, normalizeProduct 0 recordPriceNegative = Kept p n
                     /\ Product.precio_venta p = Fin (-5 # 1)
                     /\ nonNegative (Product.precio_venta p) = false).
Proof.
  unfold present. repeat split; try discriminate.
  eexists _, _. vm_compute. repeat split.
Qed.

(** ** Sets and maps *)

Lemma jstring_eqb_eq (a b : jstring) : jstring_eqb a b = true <-> a = b.
Proof.
  revert b; induction a as [|x a IH]; intros [|y b]; simpl; split; intros H;
    try discriminate; try reflexivity.
  - apply andb_true_iff in H as [H1 H2]. apply Ascii.eqb_eq in H1. apply IH in H2.
    congruence.
  - injection H as -> ->. apply andb_true_iff. split.
    + apply Ascii.eqb_refl.
    + now apply IH.
Qed.

Lemma jstring_eqb_refl (a : jstring) : jstring_eqb a a = true.
Proof. now apply jstring_eqb_eq. Qed.

Lemma jstring_eqb_neq (a b : jstring) : jstring_eqb a b = false <-> a <> b.
Proof.
  split; intros H.
  - intros E. apply jstring_eqb_eq in E. congruence.
  - destruct (jstring_eqb a b) eqn:E; [apply jstring_eqb_eq in E; contradiction | reflexivity].
Qed.

Lemma setHas_nat (s : list nat) (x : nat) : setHas Nat.eqb s x = true <-> In x s.
Proof.
  unfold setHas. rewrite existsb_exists. split.
  - intros (y & Hy & E). apply Nat.eqb_eq in E. now subst.
  - intros H. exists x. split; [assumption | apply Nat.eqb_refl].
Qed.

Lemma setAdd_In {A} (eqb : A -> A -> bool) (s : list A) (x y : A) :
  In y (setAdd eqb s x) -> In y s \/ y = x.
Proof.
  unfold setAdd. destruct (setHas eqb s x); [now left |].
  rewrite in_app_iff. simpl. intuition.
Qed.

Lemma fold_setAdd_In {A} (eqb : A -> A -> bool) (l acc : list A) (y : A) :
  In y (fold_left (setAdd eqb) l acc) -> In y acc \/ In y l.
Proof.
  revert acc; induction l as [|x l IH]; intros acc H; simpl in *; [now left |].
  apply IH in H as [H | H]; [| now right; right].
  apply setAdd_In in H as [H | ->]; [now left | now right; left].
Qed.

Lemma setFrom_In {A} (eqb : A -> A -> bool) (l : list A) (y : A) :
  In y (setFrom eqb l) -> In y l.
Proof. intros H. apply fold_setAdd_In in H as [[] | H]. exact H. Qed.

(** ** The index is sound for the catalog it is built from *)

Lemma indexSound_empty data : indexSound data ∅.
Proof.
  split; intros word positions; [| intros p]; rewrite lookup_empty; discriminate.
Qed.

Lemma indexWord_sound data index idx word n :
  nth_error data index = Some n ->
  In word (split_ws (Normalized.searchText n)) ->
  indexSound data idx -> indexSound data (indexWord index idx word).
Proof.
  intros Hn Hw [Hlen Hpos]. unfold indexWord.
  destruct (2 <=? length word) eqn:E; [| now split].
  apply Nat.leb_le in E.
  destruct (idx !! word) as [old|] eqn:Hold.
  - rewrite Hold. split.
    + intros w ps. rewrite lookup_insert. case_decide; eauto. now subst.
    + intros w ps p. rewrite lookup_insert. case_decide; eauto.
      subst w. intros [= <-] Hp. apply setAdd_In in Hp as [Hp | ->]; eauto.
  - rewrite lookup_insert_eq. split.
    + intros w ps. rewrite !lookup_insert. repeat case_decide; eauto; now subst.
    + intros w ps p. rewrite !lookup_insert. repeat case_decide; eauto; try congruence.
      subst w. intros [= <-] Hp. apply setAdd_In in Hp as [[] | ->]; eauto.
Qed.

Lemma indexProduct_sound data index idx n :
  nth_error data index = Some n ->
  indexSound data idx -> indexSound data (indexProduct index idx n).
Proof.
  intros Hn. unfold indexProduct.
  assert (Hall : forall w, In w (setFrom jstring_eqb (split_ws (Normalized.searchText n))) ->
                           In w (split_ws (Normalized.searchText n)))
    by (intros w; apply setFrom_In).
  revert idx Hall.
  induction (setFrom jstring_eqb (split_ws (Normalized.searchText n))) as [|w ws IH];
    intros idx Hall Hidx; simpl; [assumption |].
  apply IH; [intros w' Hw'; apply Hall; now right |].
  eapply indexWord_sound; eauto. apply Hall. now left.
Qed.

Lemma buildIndex_from_sound data : forall rest done idx,
  data = done ++ rest ->
  indexSound data idx -> indexSound data (buildIndex_from (length done) rest idx).
Proof.
  induction rest as [|n rest IH]; intros done idx Hdata Hidx; simpl; [assumption |].
  replace (S (length done)) with (length (done ++ [n])) by (rewrite length_app; simpl; lia).
  apply IH.
  - now rewrite <- app_assoc.
  - apply indexProduct_sound; [| assumption].
    subst data. rewrite nth_error_app2 by lia. now rewrite Nat.sub_diag.
Qed.

Lemma buildSearchStructures_sound st :
  indexSound (normalizedData (buildSearchStructures st))
             (searchIndex (buildSearchStructures st)).
Proof.
  unfold buildSearchStructures. cbn [normalizedData searchIndex set_searchIndex].
  apply (buildIndex_from_sound (normalizedData st) (normalizedData st) []);
    [reflexivity | apply indexSound_empty].
Qed.

Lemma init_indexSound raw st :
  init raw = Some st -> indexSound (normalizedData st) (searchIndex st).
Proof.
  unfold init. destruct (processProducts raw constructed) as [st1|]; [| discriminate].
  intros [= <-]. apply (buildSearchStructures_sound st1).
Qed.

(** ** The catalog is not assigned after [init] *)

Lemma sameCatalog_refl st : sameCatalog st st.
Proof. repeat split. Qed.

Lemma sameCatalog_trans a b c : sameCatalog a b -> sameCatalog b c -> sameCatalog a c.
Proof. unfold sameCatalog. intros (?&?&?&?) (?&?&?&?). repeat split; congruence. Qed.

Lemma renderProductBatch_sameCatalog st : sameCatalog st (renderProductBatch st).
Proof.
  unfold renderProductBatch. destruct (length (resultList st) =? 0); repeat split.
Qed.

Lemma renderResults_sameCatalog st : sameCatalog st (renderResults st).
Proof.
  unfold renderResults.
  match goal with |- context [if ?b then _ else _] => destruct b end.
  - repeat split.
  - eapply sameCatalog_trans; [| apply renderProductBatch_sameCatalog]. repeat split.
Qed.

Lemma performSearch_sameCatalog st : sameCatalog st (performSearch st).
Proof.
  unfold performSearch. destruct (mapHas (searchCache st) (getCacheKey st)).
  - destruct (mapGet (searchCache st) (getCacheKey st)); [| apply sameCatalog_refl].
    eapply sameCatalog_trans; [| apply renderResults_sameCatalog]. repeat split.
  - eapply sameCatalog_trans; [| apply renderResults_sameCatalog]. repeat split.
Qed.

Lemma sortResults_sameCatalog t st : sameCatalog st (sortResults t st).
Proof. unfold sortResults. destruct (length (resultList st) =? 0); repeat split. Qed.

Lemma search_sameCatalog q r st : sameCatalog st (search q r st).
Proof.
  unfold search. eapply sameCatalog_trans; [| apply performSearch_sameCatalog]. repeat split.
Qed.

Lemma handle_sameCatalog st e : sameCatalog st (handle st e).
Proof.
  destruct e as [text|value|value|nearBottom|]; simpl.
  - unfold handleSearchInput. destruct (length text =? 0); [repeat split |].
    eapply sameCatalog_trans; [| apply performSearch_sameCatalog]. repeat split.
  - unfold handleRubroChange.
    eapply sameCatalog_trans; [| apply performSearch_sameCatalog]. repeat split.
  - unfold handleSortChange.
    eapply sameCatalog_trans; [apply sortResults_sameCatalog | apply renderResults_sameCatalog].
  - unfold handleScroll. destruct (negb (hasMore st) || isLoading st); [repeat split |].
    destruct nearBottom; [| repeat split].
    apply (sameCatalog_trans st (set_isLoading true st)); [repeat split |].
    apply (sameCatalog_trans _ (renderProductBatch (set_isLoading true st)));
      [apply renderProductBatch_sameCatalog | repeat split].
  - repeat split.
Qed.

Lemma reachable_sameCatalog raw st :
  reachable raw st -> exists st0, init raw = Some st0 /\ sameCatalog st0 st.
Proof.
  induction 1 as [st H | st q r _ (st0 & H0 & IH) | st e _ (st0 & H0 & IH)].
  - exists st. split; [assumption | apply sameCatalog_refl].
  - exists st0. split; [assumption |].
    eapply sameCatalog_trans; [exact IH | apply search_sameCatalog].
  - exists st0. split; [assumption |].
    eapply sameCatalog_trans; [exact IH | apply handle_sameCatalog].
Qed.

Lemma reachable_indexSound raw st :
  reachable raw st -> indexSound (normalizedData st) (searchIndex st).
Proof.
  intros H. apply reachable_sameCatalog in H as (st0 & H0 & _ & _ & Hn & Hi).
  rewrite Hn, Hi. eapply init_indexSound; eauto.
Qed.

(** C7: in every state of an instance whose catalog was loaded, the
    inverted index has no token shorter than two characters, and every
    position in a token's set is smaller than the length of the catalog. *)
Theorem index_tokens_and_positions (raw : list Raw.t) (st : State) :
  reachable raw st ->
  forall word positions, searchIndex st !! word = Some positions ->
    2 <= length word
    /\ forall p, In p positions -> p < length (normalizedData st).
Proof.
  intros Hreach word positions Hlookup.
  destruct (reachable_indexSound raw st Hreach) as [Hlen Hpos]. split.
  - eapply Hlen; eauto.
  - intros p Hp. destruct (Hpos word positions p Hlookup Hp) as (n & Hn & _).
    apply nth_error_Some. congruence.
Qed.

(** The index of the scenario catalog at the token [acme]: both positions,
    each below the catalog length 2. *)
Lemma index_tokens_and_positions_witness :
  exists st, init catalogScenario = Some st
    /\ searchIndex st !! str "acme" = Some [0; 1]
    /\ 2 <= length (str "acme")
    /\ forall p, In p [0; 1] -> p < length (normalizedData st).
Proof.
  assert (E : init catalogScenario = Some (loaded catalogScenario))
    by (vm_compute; reflexivity).
  assert (Hl : searchIndex (loaded catalogScenario) !! str "acme" = Some [0; 1])
    by (vm_compute; reflexivity).
  exists (loaded catalogScenario). split; [exact E |]. split; [exact Hl |].
  apply (index_tokens_and_positions catalogScenario _ (reach_init _ _ E) _ _ Hl).
Defined.

(** ** The result window *)

Lemma renderProductBatch_resultList st : resultList (renderProductBatch st) = resultList st.
Proof. unfold renderProductBatch. destruct (length (resultList st) =? 0); reflexivity. Qed.

Lemma renderResults_resultList st : resultList (renderResults st) = resultList st.
Proof.
  unfold renderResults.
  match goal with |- context [if ?b then _ else _] => destruct b end;
    [| rewrite renderProductBatch_resultList]; reflexivity.
Qed.

Lemma resultList_eq st st' :
  heap st' = heap st -> results st' = results st -> resultList st' = resultList st.
Proof. unfold resultList. now intros -> ->. Qed.

(** Reads of the result list through states that differ from [st] in other
    fields only. *)
Ltac same_resultList st :=
  repeat match goal with
         | |- context [resultList ?s] =>
             lazymatch s with
             | st => fail
             | _ => rewrite (resultList_eq st s) by reflexivity
             end
         end.

Lemma renderResults_window st :
  isLoading st = false ->
  windowOver (resultList st) (BATCH_SIZE (CONFIG st)) (renderResults st)
  /\ container (renderResults st)
     = slice 0 (Nat.min (BATCH_SIZE (CONFIG st)) (length (resultList st))) (resultList st)
  /\ offset (renderResults st) = Nat.min (BATCH_SIZE (CONFIG st)) (length (resultList st)).
Proof.
  intros Hload. unfold windowOver. rewrite renderResults_resultList.
  unfold renderResults, renderProductBatch, clearProductsContainer.
  same_resultList st.
  destruct (length (resultList st) =? 0) eqn:E; fields.
  - apply Nat.eqb_eq in E. rewrite E, Nat.min_0_r.
    assert (F : (BATCH_SIZE (CONFIG st) <? 0) = false) by (apply Nat.ltb_ge; lia).
    rewrite F. repeat split; try assumption; lia.
  - rewrite Nat.add_0_l. repeat split; try assumption; lia.
Qed.

Lemma handleScroll_window rs size w :
  windowOver rs size w ->
  windowOver rs size (handleScroll true w)
  /\ (hasMore w = true ->
        container (handleScroll true w)
        = container w ++ slice (offset w) (Nat.min (offset w + size) (length rs)) rs
        /\ offset (handleScroll true w) = Nat.min (offset w + size) (length rs))
  /\ (hasMore w = false -> handleScroll true w = w).
Proof.
  intros (Hrs & Hsize & Hload & Hoff & Hmore). unfold handleScroll.
  rewrite Hload, orb_false_r. destruct (hasMore w) eqn:Hm; cbn [negb].
  2:{ split; [repeat split; auto; congruence |]. split; [discriminate | reflexivity]. }
  symmetry in Hmore. apply Nat.ltb_lt in Hmore.
  unfold renderProductBatch.
  same_resultList w. rewrite Hrs.
  destruct (length rs =? 0) eqn:E; [apply Nat.eqb_eq in E; lia |].
  unfold windowOver. same_resultList w. fields.
  rewrite Hsize. repeat split; auto; lia.
Qed.

Lemma window_iter st k :
  isLoading st = false ->
  windowOver (resultList st) (BATCH_SIZE (CONFIG st))
             (Nat.iter k (handleScroll true) (renderResults st)).
Proof.
  intros Hload. induction k as [|k IH]; simpl.
  - now apply renderResults_window.
  - now apply handleScroll_window.
Qed.

Lemma length_slice {A} (a b : nat) (l : list A) :
  b <= length l -> length (slice a b l) = b - a.
Proof. intros H. unfold slice. rewrite length_firstn, length_skipn. lia. Qed.

Lemma page_app before after extra :
  container after = container before ++ extra -> page before after = extra.
Proof.
  intros H. unfold page. rewrite H, skipn_app, skipn_all, Nat.sub_diag. reflexivity.
Qed.

(** C9: [renderResults] is the reset and delivers the first page; every
    page request ([handleScroll] near the bottom) while [hasMore] holds
    appends the slice from the offset to the smaller of offset plus page
    size and the length, and moves the offset to the end of that slice, so
    the offset never exceeds the length; a request once [hasMore] is false
    changes nothing and delivers nothing.  With page size 2 over 5 results
    the pages have lengths 2, 2, 1 and the fourth request is empty. *)
Theorem result_window_pages (st : State) (k : nat) :
  isLoading st = false ->
  let rs := resultList st in
  let size := BATCH_SIZE (CONFIG st) in
  let w := Nat.iter k (handleScroll true) (renderResults st) in
  let w' := handleScroll true w in
  (container (renderResults st) = slice 0 (Nat.min size (length rs)) rs
   /\ offset (renderResults st) = Nat.min size (length rs))
  /\ (resultList w = rs /\ offset w <= length rs /\ hasMore w = (offset w <? length rs))
  /\ (hasMore w = true ->
        page w w' = slice (offset w) (Nat.min (offset w + size) (length rs)) rs
        /\ offset w' = Nat.min (offset w + size) (length rs))
  /\ (hasMore w = false -> w' = w /\ page w w' = [])
  /\ (size = 2 -> length rs = 5 ->
        let w1 := renderResults st in
        let w2 := handleScroll true w1 in
        let w3 := handleScroll true w2 in
        let w4 := handleScroll true w3 in
        length (container w1) = 2 /\ length (page w1 w2) = 2 /\ length (page w2 w3) = 1
        /\ hasMore w3 = false /\ w4 = w3 /\ page w3 w4 = []).
Proof.
  intros Hload rs size w w'.
  pose proof (renderResults_window st Hload) as (_ & Hc1 & Ho1).
  pose proof (window_iter st k Hload) as Hw. fold rs size w in Hw.
  pose proof (handleScroll_window rs size w Hw) as (_ & Hnext & Hstop). fold w' in Hnext, Hstop.
  split; [now split |].
  split; [destruct Hw as (? & _ & _ & ? & ?); now repeat split |].
  split; [intros Hm; destruct (Hnext Hm) as [Hc Ho]; split; [now apply page_app | exact Ho] |].
  split.
  { intros Hm. rewrite (Hstop Hm). split; [reflexivity |].
    unfold page. apply skipn_all. }
  intros Hsize Hlen w1 w2 w3 w4.
  pose proof (renderResults_window st Hload) as (W1 & C1 & O1).
  fold rs size w1 in W1, C1, O1. rewrite Hsize, Hlen in C1, O1. cbn in O1.
  assert (M1 : hasMore w1 = true)
    by (destruct W1 as (_ & _ & _ & _ & ->); rewrite O1, Hlen; reflexivity).
  pose proof (handleScroll_window rs size w1 W1) as (W2 & N2 & _). fold w2 in W2, N2.
  destruct (N2 M1) as [C2 O2]. rewrite O1, Hsize, Hlen in C2, O2. cbn in O2.
  assert (M2 : hasMore w2 = true)
    by (destruct W2 as (_ & _ & _ & _ & ->); rewrite O2, Hlen; reflexivity).
  pose proof (handleScroll_window rs size w2 W2) as (W3 & N3 & _). fold w3 in W3, N3.
  destruct (N3 M2) as [C3 O3]. rewrite O2, Hsize, Hlen in C3, O3. cbn in O3.
  assert (M3 : hasMore w3 = false)
    by (destruct W3 as (_ & _ & _ & _ & ->); rewrite O3, Hlen; reflexivity).
  pose proof (handleScroll_window rs size w3 W3) as (_ & _ & S4). fold w4 in S4.
  rewrite (page_app _ _ _ C2), (page_app _ _ _ C3), C1, (S4 M3).
  rewrite !length_slice by (rewrite Hlen; cbn; lia).
  repeat split; try reflexivity; try assumption.
  unfold page. apply skipn_all.
Qed.

(** The protocol on the five-result window with page size 2. *)
Lemma result_window_pages_witness :
  isLoading windowScenario = false
  /\ (let w1 := renderResults windowScenario in
      let w2 := handleScroll true w1 in
      let w3 := handleScroll true w2 in
      let w4 := handleScroll true w3 in
      length (container w1) = 2 /\ length (page w1 w2) = 2 /\ length (page w2 w3) = 1
      /\ hasMore w3 = false /\ w4 = w3 /\ page w3 w4 = []).
Proof.
  split; [reflexivity |].
  exact (proj2 (proj2 (proj2 (proj2 (result_window_pages windowScenario 0 eq_refl))))
           eq_refl eq_refl).
Defined.

(** ** Scores *)

(** C2 at the scenario catalog: the query [100] is the code of the first
    product; it earns the exact-code weight 100 and the weight 5 of one
    whole-word occurrence, and the division by 100 leaves 1.05, above 1. *)
Theorem score_of_exact_code_exceeds_one :
  exists st, init catalogScenario = Some st
    /\ codesAndScores (resultList (search (str "100") [] st)) = [(str "100", (105 # 100)%Q)]
    /\ ~ (105 # 100 <= 1)%Q.
Proof.
  exists (loaded catalogScenario). split; [vm_compute; reflexivity |]. split.
  - vm_compute. reflexivity.
  - intros H. vm_compute in H. apply H. reflexivity.
Qed.

(** ** The query cache *)

Lemma mapHas_In {V} (m : list (jstring * V)) k :
  mapHas m k = true <-> In k (map fst m).
Proof.
  unfold mapHas. rewrite existsb_exists, in_map_iff. split.
  - intros (e & He & E). apply jstring_eqb_eq in E. exists e. split; [now symmetry | assumption].
  - intros (e & E & He). exists e. split; [assumption | apply jstring_eqb_eq; now symmetry].
Qed.

Lemma mapHas_false {V} (m : list (jstring * V)) k :
  mapHas m k = false <-> ~ In k (map fst m).
Proof.
  rewrite <- mapHas_In. destruct (mapHas m k); split; intros H; congruence.
Qed.

Lemma mapGet_has {V} (m : list (jstring * V)) k :
  mapHas m k = true -> exists v, mapGet m k = Some v.
Proof.
  induction m as [|[k' v'] m IH]; simpl; [discriminate |].
  destruct (jstring_eqb k k'); simpl; eauto.
Qed.

Lemma mapGet_In {V} (m : list (jstring * V)) k v :
  mapGet m k = Some v -> In (k, v) m.
Proof.
  induction m as [|[k' v'] m IH]; simpl; [discriminate |].
  destruct (jstring_eqb k k') eqn:E.
  - apply jstring_eqb_eq in E. intros [= ->]. left. now subst.
  - intros H. right. now apply IH.
Qed.

Lemma mapSet_absent {V} (m : list (jstring * V)) k v :
  mapHas m k = false -> mapSet m k v = m ++ [(k, v)].
Proof.
  induction m as [|[k' v'] m IH]; simpl; [reflexivity |].
  destruct (jstring_eqb k k'); simpl; [discriminate |].
  intros H. now rewrite IH.
Qed.

Lemma mapGet_mapSet {V} (m : list (jstring * V)) k v : mapGet (mapSet m k v) k = Some v.
Proof.
  induction m as [|[k' v'] m IH]; simpl.
  - now rewrite jstring_eqb_refl.
  - destruct (jstring_eqb k k') eqn:E; simpl; rewrite E; [reflexivity | exact IH].
Qed.

Lemma mapHas_mapSet {V} (m : list (jstring * V)) k v : mapHas (mapSet m k v) k = true.
Proof.
  induction m as [|[k' v'] m IH]; simpl.
  - now rewrite jstring_eqb_refl.
  - destruct (jstring_eqb k k') eqn:E; simpl; rewrite E; [reflexivity | exact IH].
Qed.

Lemma mapDelete_keys {V} (m : list (jstring * V)) k k' :
  In k' (map fst (mapDelete m k)) <-> In k' (map fst m) /\ k' <> k.
Proof.
  unfold mapDelete. rewrite !in_map_iff. split.
  - intros (e & E & He). apply filter_In in He as [He Hne].
    apply negb_true_iff, jstring_eqb_neq in Hne. split; [eauto | congruence].
  - intros [(e & E & He) Hne]. exists e. split; [assumption |].
    apply filter_In. split; [assumption |].
    apply negb_true_iff, jstring_eqb_neq. congruence.
Qed.

Lemma mapDelete_length {V} (m : list (jstring * V)) k :
  length (mapDelete m k) <= length m.
Proof. apply filter_length_le. Qed.

Lemma evicted_length capacity cache :
  1 <= capacity -> length cache <= capacity -> S (length (evicted capacity cache)) <= capacity.
Proof.
  intros Hcap Hlen. unfold evicted.
  destruct (capacity <=? length cache) eqn:E;
    [apply Nat.leb_le in E | apply Nat.leb_gt in E; lia].
  destruct cache as [|[k v] cache]; simpl in *; [lia |].
  rewrite jstring_eqb_refl. simpl.
  pose proof (mapDelete_length cache k). unfold mapDelete in *. lia.
Qed.

Lemma evicted_keys capacity cache k :
  In k (map fst (evicted capacity cache)) -> In k (map fst cache).
Proof.
  unfold evicted. destruct (capacity <=? length cache); [| auto].
  destruct (mapFirstKey cache); [| auto]. intros H. now apply mapDelete_keys in H.
Qed.

Lemma evicted_full capacity k v cache k' :
  capacity <= S (length cache) ->
  In k' (map fst (evicted capacity ((k, v) :: cache))) -> k' <> k.
Proof.
  intros Hfull. unfold evicted. simpl length.
  destruct (capacity <=? S (length cache)) eqn:E; [| apply Nat.leb_gt in E; lia].
  cbn [mapFirstKey]. intros H. now apply mapDelete_keys in H.
Qed.

Lemma evicted_room capacity cache :
  length cache < capacity -> evicted capacity cache = cache.
Proof.
  intros H. unfold evicted. destruct (capacity <=? length cache) eqn:E; [| reflexivity].
  apply Nat.leb_le in E. lia.
Qed.

Lemma renderProductBatch_searchCache st :
  searchCache (renderProductBatch st) = searchCache st.
Proof. unfold renderProductBatch. destruct (length (resultList st) =? 0); reflexivity. Qed.

Lemma renderResults_searchCache st : searchCache (renderResults st) = searchCache st.
Proof.
  unfold renderResults.
  match goal with |- context [if ?b then _ else _] => destruct b end;
    [| rewrite renderProductBatch_searchCache]; reflexivity.
Qed.

(** What [performSearch] does to the cache: nothing on a hit; on a miss
    the key is set, after the eviction step, to the address of the copy. *)
Lemma performSearch_searchCache st :
  searchCache (performSearch st)
  = if mapHas (searchCache st) (getCacheKey st) then searchCache st
    else mapSet (evicted (CACHE_SIZE (CONFIG st)) (searchCache st)) (getCacheKey st)
                (S (length (heap st))).
Proof.
  unfold performSearch. destruct (mapHas (searchCache st) (getCacheKey st)) eqn:E.
  - destruct (mapGet (searchCache st) (getCacheKey st)); [| reflexivity].
    now rewrite renderResults_searchCache.
  - rewrite renderResults_searchCache. unfold cacheSearchResults, evicted. fields.
    rewrite length_app. simpl length. now rewrite Nat.add_1_r.
Qed.

Lemma handle_searchCache_other st e :
  match e with
  | SearchInput _ | RubroChange _ => True
  | _ => searchCache (handle st e) = searchCache st
  end.
Proof.
  destruct e as [text|value|value|nearBottom|]; simpl; auto.
  - unfold handleSortChange, sortResults. rewrite renderResults_searchCache.
    destruct (length (resultList st) =? 0); reflexivity.
  - unfold handleScroll. destruct (negb (hasMore st) || isLoading st); [reflexivity |].
    destruct nearBottom; [| reflexivity]. fields.
    now rewrite renderProductBatch_searchCache.
Qed.

Lemma performSearch_cache_length st :
  1 <= CACHE_SIZE (CONFIG st) ->
  length (searchCache st) <= CACHE_SIZE (CONFIG st) ->
  length (searchCache (performSearch st)) <= CACHE_SIZE (CONFIG st).
Proof.
  intros Hcap Hlen. rewrite performSearch_searchCache.
  destruct (mapHas (searchCache st) (getCacheKey st)) eqn:E; [assumption |].
  rewrite mapSet_absent.
  - rewrite length_app. simpl. rewrite Nat.add_1_r. now apply evicted_length.
  - apply mapHas_false. intros H. apply evicted_keys in H. now apply mapHas_false in E.
Qed.

Lemma handle_cache_length st e :
  1 <= CACHE_SIZE (CONFIG st) ->
  length (searchCache st) <= CACHE_SIZE (CONFIG st) ->
  length (searchCache (handle st e)) <= CACHE_SIZE (CONFIG st).
Proof.
  intros Hcap Hlen. pose proof (handle_searchCache_other st e) as H.
  destruct e as [text|value|value|nearBottom|]; try (rewrite H; assumption); simpl.
  - unfold handleSearchInput. destruct (length text =? 0); [assumption |].
    now apply (performSearch_cache_length (set_searchTerm (trim text) st)).
  - now apply (performSearch_cache_length (set_currentRubro value st)).
Qed.

Lemma init_CONFIG raw st : init raw = Some st -> CONFIG st = defaultConfig.
Proof.
  unfold init, processProducts.
  assert (G : forall l i s s', processProducts_from i l s = Some s' -> CONFIG s' = CONFIG s).
  { induction l as [|x l IH]; intros i s s'; simpl; [now intros [= ->] |].
    destruct (normalizeProduct i x) as [| |p n]; [apply IH | discriminate |].
    intros H. apply IH in H. rewrite H.
    destruct (negb (length (Normalized.rubro n) =? 0)); reflexivity. }
  destruct (processProducts_from _ _ _) as [s|] eqn:E; [| discriminate].
  intros [= <-]. apply G in E. exact E.
Qed.

Lemma init_searchCache raw st : init raw = Some st -> searchCache st = [].
Proof.
  unfold init, processProducts.
  assert (G : forall l i s s', processProducts_from i l s = Some s' ->
                               searchCache s' = searchCache s).
  { induction l as [|x l IH]; intros i s s'; simpl; [now intros [= ->] |].
    destruct (normalizeProduct i x) as [| |p n]; [apply IH | discriminate |].
    intros H. apply IH in H. rewrite H.
    destruct (negb (length (Normalized.rubro n) =? 0)); reflexivity. }
  destruct (processProducts_from _ _ _) as [s|] eqn:E; [| discriminate].
  intros [= <-]. apply G in E. exact E.
Qed.

Lemma reachable_CONFIG raw st : reachable raw st -> CONFIG st = defaultConfig.
Proof.
  intros H. apply reachable_sameCatalog in H as (st0 & H0 & -> & _).
  eapply init_CONFIG; eauto.
Qed.

Lemma reachable_cache_length raw st :
  reachable raw st -> length (searchCache st) <= 50.
Proof.
  induction 1 as [st H | st q r Hr IH | st e Hr IH].
  - rewrite (init_searchCache _ _ H). simpl. lia.
  - pose proof (reachable_CONFIG _ _ Hr) as Hc. unfold search.
    pose proof (performSearch_cache_length (set_currentRubro r (set_searchTerm q st))) as P.
    fields. rewrite Hc in P. apply P; simpl; [lia | exact IH].
  - pose proof (reachable_CONFIG _ _ Hr) as Hc.
    pose proof (handle_cache_length st e) as P. rewrite Hc in P. apply P; simpl; [lia | exact IH].
Qed.

(** A search whose key is not [k] does not bring [k] into the cache. *)
Lemma search_absent_stays q r st k :
  cacheKeyOf q r <> k -> ~ In k (cacheKeys st) -> ~ In k (cacheKeys (search q r st)).
Proof.
  intros Hne Hk. unfold cacheKeys, search. rewrite performSearch_searchCache. fields.
  change (getCacheKey (set_currentRubro r (set_searchTerm q st))) with (cacheKeyOf q r).
  destruct (mapHas (searchCache st) (cacheKeyOf q r)) eqn:E; [assumption |].
  rewrite mapSet_absent.
  - rewrite map_app, in_app_iff. simpl. intros [H | [H | []]]; [| congruence].
    apply evicted_keys in H. contradiction.
  - apply mapHas_false. intros H. apply evicted_keys in H. now apply mapHas_false in E.
Qed.

Lemma runSearches_absent_stays l : forall st k,
  ~ In k (keysOf l) -> ~ In k (cacheKeys st) -> ~ In k (cacheKeys (runSearches l st)).
Proof.
  induction l as [|[q r] l IH]; intros st k Hl Hk; simpl in *; [assumption |].
  apply IH; [tauto |]. apply search_absent_stays; tauto.
Qed.

Lemma search_CONFIG q r st : CONFIG (search q r st) = CONFIG st.
Proof. apply (search_sameCatalog q r st). Qed.

(** While there is room, distinct new keys are appended in order. *)
Lemma runSearches_fill l : forall st,
  List.NoDup (cacheKeys st ++ keysOf l) ->
  length (cacheKeys st) + length l <= CACHE_SIZE (CONFIG st) ->
  cacheKeys (runSearches l st) = cacheKeys st ++ keysOf l
  /\ CONFIG (runSearches l st) = CONFIG st.
Proof.
  induction l as [|[q r] l IH]; intros st Hnd Hlen; simpl.
  - now rewrite app_nil_r.
  - simpl in Hlen.
    assert (Hstep : cacheKeys (search q r st) = cacheKeys st ++ [cacheKeyOf q r]).
    { unfold cacheKeys, search. rewrite performSearch_searchCache. fields.
      change (getCacheKey (set_currentRubro r (set_searchTerm q st))) with (cacheKeyOf q r).
      assert (Habs : mapHas (searchCache st) (cacheKeyOf q r) = false).
      { apply mapHas_false. intros H. apply NoDup_remove_2 in Hnd. apply Hnd.
        apply in_or_app. now left. }
      rewrite Habs, evicted_room, mapSet_absent, map_app by
        (try assumption; unfold cacheKeys in Hlen; rewrite length_map in Hlen; lia).
      reflexivity. }
    destruct (IH (search q r st)) as [Hk Hc].
    + rewrite Hstep, <- app_assoc. exact Hnd.
    + rewrite Hstep, length_app, search_CONFIG. simpl. lia.
    + rewrite Hk, Hc, Hstep, <- app_assoc, search_CONFIG. now split.
Qed.

(** C6: the cache of a running instance never holds more than 50 entries;
    and when 50 searches with pairwise distinct keys have filled the cache
    of a freshly loaded instance and one more search with a new key comes,
    the key of the first search is gone from the cache, and stays out
    through any further searches that do not ask for it again. *)
Theorem cache_bound_and_oldest_evicted (raw : list Raw.t) (st : State) :
  reachable raw st ->
  length (searchCache st) <= CACHE_SIZE (CONFIG st)
  /\ CACHE_SIZE (CONFIG st) = 50
  /\ forall st0 first filling more later,
       init raw = Some st0 ->
       length (first :: filling) = CACHE_SIZE (CONFIG st0) ->
       List.NoDup (keysOf (first :: filling ++ [more])) ->
       ~ In (cacheKeyOf (fst first) (snd first)) (keysOf later) ->
       let final := runSearches (first :: filling ++ [more] ++ later) st0 in
       ~ In (cacheKeyOf (fst first) (snd first)) (cacheKeys final)
       /\ mapHas (searchCache final) (cacheKeyOf (fst first) (snd first)) = false
       /\ length (searchCache final) <= CACHE_SIZE (CONFIG st0).
Proof.
  intros Hreach. pose proof (reachable_CONFIG _ _ Hreach) as Hcfg.
  split; [rewrite Hcfg; apply (reachable_cache_length raw st Hreach) |].
  split; [now rewrite Hcfg |].
  intros st0 first filling more later Hinit Hlen Hnd Hlater final.
  assert (Hfinal : ~ In (cacheKeyOf (fst first) (snd first)) (cacheKeys final)).
  { subst final. change (first :: filling ++ [more] ++ later)
      with ((first :: filling) ++ [more] ++ later).
    unfold runSearches. rewrite !fold_left_app. fold (runSearches (first :: filling) st0).
    set (full := runSearches (first :: filling) st0).
    destruct (runSearches_fill (first :: filling) st0) as [Hkeys Hc].
    { unfold cacheKeys. rewrite (init_searchCache _ _ Hinit). simpl.
      change (first :: filling ++ [more]) with ((first :: filling) ++ [more]) in Hnd.
      unfold keysOf in Hnd. rewrite map_app in Hnd. now apply NoDup_app_remove_r in Hnd. }
    { unfold cacheKeys. rewrite (init_searchCache _ _ Hinit). simpl. simpl in Hlen. lia. }
    fold full in Hkeys, Hc.
    unfold cacheKeys in Hkeys at 2. rewrite (init_searchCache _ _ Hinit) in Hkeys.
    simpl in Hkeys.
    apply (runSearches_absent_stays later); [assumption |].
    simpl. destruct more as [q r]. cbn [fst snd].
    unfold cacheKeys, search. rewrite performSearch_searchCache. fields.
    change (getCacheKey (set_currentRubro r (set_searchTerm q full))) with (cacheKeyOf q r).
    assert (Hnew : ~ In (cacheKeyOf q r) (keysOf (first :: filling))).
    { change (first :: filling ++ [(q, r)]) with ((first :: filling) ++ [(q, r)]) in Hnd.
      unfold keysOf in Hnd. rewrite map_app in Hnd. simpl map in Hnd.
      intros H. apply NoDup_remove_2 in Hnd. apply Hnd. rewrite app_nil_r. exact H. }
    assert (Habs : mapHas (searchCache full) (cacheKeyOf q r) = false).
    { apply mapHas_false. fold (cacheKeys full). now rewrite Hkeys. }
    rewrite Habs, mapSet_absent.
    2:{ apply mapHas_false. intros H. apply evicted_keys in H. now apply mapHas_false in Habs. }
    rewrite map_app, in_app_iff. simpl. intros [H | [H | []]].
    - unfold cacheKeys in Hkeys. destruct (searchCache full) as [|[k v] cache] eqn:Ec;
        [discriminate |].
      simpl in Hkeys. injection Hkeys as Hk Hrest.
      apply evicted_full in H; [congruence |].
      rewrite Hc, <- Hlen. simpl. apply le_n_S.
      rewrite <- (length_map fst cache), Hrest. unfold keysOf. now rewrite length_map.
    - apply Hnew. rewrite H. now left. }
  split; [exact Hfinal |]. split; [now apply mapHas_false |].
  assert (Hr : reachable raw final).
  { subst final. generalize (first :: filling ++ [more] ++ later).
    intros l. assert (G : forall s, reachable raw s -> reachable raw (runSearches l s)).
    { induction l as [|[q r] l IH]; intros s Hs; simpl; [assumption |].
      apply IH. now constructor. }
    apply G. now constructor. }
  rewrite (init_CONFIG _ _ Hinit). apply (reachable_cache_length raw final Hr).
Qed.

Lemma numberedQuery_keys_NoDup (start len : nat) :
  List.NoDup (keysOf (map numberedQuery (seq start len))).
Proof.
  unfold keysOf. rewrite map_map. apply Finite.Injective_map_NoDup; [| apply seq_NoDup].
  intros n m H. apply (f_equal (@length ascii)) in H.
  unfold cacheKeyOf, numberedQuery in H. cbn [fst snd] in H.
  rewrite !length_app, !repeat_length in H. lia.
Qed.

(** Fifty distinct queries fill the cache of the scenario catalog; the
    fifty-first evicts the first one. *)
Lemma cache_bound_and_oldest_evicted_witness :
  exists st0, init catalogScenario = Some st0
    /\ length (searchCache st0) <= 50
    /\ (let final := runSearches (fiftyQueries ++ [numberedQuery 50]) st0 in
        mapHas (searchCache final) (cacheKeyOf (fst (numberedQuery 0)) (snd (numberedQuery 0)))
        = false
        /\ length (searchCache final) <= 50).
Proof.
  assert (E : init catalogScenario = Some (loaded catalogScenario))
    by (vm_compute; reflexivity).
  exists (loaded catalogScenario). split; [exact E |].
  destruct (cache_bound_and_oldest_evicted catalogScenario _ (reach_init _ _ E))
    as (Hb & Hc & Hev).
  rewrite Hc in Hb. split; [exact Hb |].
  specialize (Hev (loaded catalogScenario) (numberedQuery 0)
                (map numberedQuery (seq 1 49)) (numberedQuery 50) [] E).
  rewrite Hc in Hev.
  destruct Hev as (_ & Hgone & Hlen).
  - reflexivity.
  - change (numberedQuery 0 :: map numberedQuery (seq 1 49) ++ [numberedQuery 50])
      with (map numberedQuery (seq 0 51)).
    apply numberedQuery_keys_NoDup.
  - intros [].
  - split; [exact Hgone | exact Hlen].
Defined.

(** ** Sorting *)

Section SortFacts.
Context {A : Type} (compare : A -> A -> JsNumber).

Lemma insertSorted_perm x l : Permutation (x :: l) (insertSorted compare x l).
Proof.
  induction l as [|y l IH]; simpl; [reflexivity |].
  destruct (positive (compare x y)); [| reflexivity].
  rewrite perm_swap. now constructor.
Qed.

Lemma sort_perm l : Permutation l (sort compare l).
Proof.
  induction l as [|x l IH]; simpl; [reflexivity |].
  rewrite <- insertSorted_perm. now constructor.
Qed.

Lemma sort_In l x : In x (sort compare l) <-> In x l.
Proof.
  split; apply Permutation_in; [symmetry |]; apply sort_perm.
Qed.

Lemma sort_length l : length (sort compare l) = length l.
Proof. symmetry. apply Permutation_length, sort_perm. Qed.

Hypothesis asymmetric :
  forall x y, positive (compare x y) = true -> positive (compare y x) = false.

Lemma insertSorted_sorted x l :
  Sorted (inOrder compare) l -> Sorted (inOrder compare) (insertSorted compare x l).
Proof.
  induction l as [|y l IH]; intros Hs; simpl; [repeat constructor |].
  destruct (positive (compare x y)) eqn:E.
  - inversion Hs as [|? ? Hl Hhd]; subst. constructor; [now apply IH |].
    destruct l as [|z l]; simpl.
    + constructor. now apply asymmetric.
    + destruct (positive (compare x z)).
      * inversion Hhd; subst. now constructor.
      * constructor. now apply asymmetric.
  - constructor; [assumption |]. now constructor.
Qed.

Lemma sort_sorted l : Sorted (inOrder compare) (sort compare l).
Proof.
  induction l as [|x l IH]; simpl; [constructor | now apply insertSorted_sorted].
Qed.
End SortFacts.

Lemma byScoreDesc_asymmetric x y :
  positive (byScoreDesc x y) = true -> positive (byScoreDesc y x) = false.
Proof.
  unfold byScoreDesc, positive. rewrite negb_true_iff, negb_false_iff.
  intros H. apply Qle_bool_iff.
  destruct (Qle_bool (ScoredResult.score y - ScoredResult.score x) 0) eqn:E; [discriminate |].
  assert (N : ~ (ScoredResult.score y - ScoredResult.score x <= 0)%Q)
    by (intros L; apply Qle_bool_iff in L; congruence).
  apply Qnot_le_lt in N. lra.
Qed.

Lemma sub_asymmetric a b : positive (sub a b) = true -> positive (sub b a) = false.
Proof.
  destruct a as [|s|x], b as [|t|y]; simpl; try discriminate; try reflexivity.
  - destruct s, t; simpl; try discriminate; reflexivity.
  - destruct s; simpl; [discriminate | reflexivity].
  - destruct t; simpl; [reflexivity | discriminate].
  - rewrite negb_true_iff, negb_false_iff. intros H. apply Qle_bool_iff.
    assert (N : ~ (x - y <= 0)%Q) by (intros L; apply Qle_bool_iff in L; congruence).
    apply Qnot_le_lt in N. lra.
Qed.

Lemma byPriceAsc_asymmetric x y :
  positive (byPriceAsc x y) = true -> positive (byPriceAsc y x) = false.
Proof. apply sub_asymmetric. Qed.

Lemma byPriceDesc_asymmetric x y :
  positive (byPriceDesc x y) = true -> positive (byPriceDesc y x) = false.
Proof. apply sub_asymmetric. Qed.

(** ** The store of arrays *)

Lemma deref_app_new h l : deref (h ++ [l]) (length h) = l.
Proof. unfold deref. rewrite app_nth2 by lia. now rewrite Nat.sub_diag. Qed.

Lemma deref_app_old h h' a : a < length h -> deref (h ++ h') a = deref h a.
Proof. intros H. unfold deref. now rewrite app_nth1. Qed.

Lemma deref_nonempty h a : deref h a <> [] -> a < length h.
Proof.
  unfold deref. intros H. destruct (Nat.lt_ge_cases a (length h)) as [L | G]; [assumption |].
  now rewrite nth_overflow in H.
Qed.

Lemma store_length h a l : length (store h a l) = length h.
Proof.
  revert a; induction h as [|x h IH]; intros [|a]; simpl; auto.
Qed.

Lemma deref_store_same h a l : a < length h -> deref (store h a l) a = l.
Proof.
  revert a; induction h as [|x h IH]; intros [|a] H; simpl in *; try lia; [reflexivity |].
  apply IH. lia.
Qed.

Lemma deref_store_other h a b l : a <> b -> deref (store h a l) b = deref h b.
Proof.
  revert a b; induction h as [|x h IH]; intros [|a] [|b] H; simpl; try reflexivity;
    try congruence.
  apply IH. congruence.
Qed.

Lemma renderProductBatch_heap st :
  heap (renderProductBatch st) = heap st /\ results (renderProductBatch st) = results st.
Proof. unfold renderProductBatch. destruct (length (resultList st) =? 0); now split. Qed.

Lemma renderResults_heap st :
  heap (renderResults st) = heap st /\ results (renderResults st) = results st.
Proof.
  unfold renderResults.
  match goal with |- context [if ?b then _ else _] => destruct b end; [now split |].
  destruct (renderProductBatch_heap
              (clearProductsContainer
                 (set_hasMore (BATCH_SIZE (CONFIG (set_offset 0 st))
                               <? length (resultList (set_offset 0 st))) (set_offset 0 st))))
    as [-> ->].
  now split.
Qed.

(** ** Hits and misses of [performSearch] *)

Lemma performSearch_hit st a :
  mapGet (searchCache st) (getCacheKey st) = Some a ->
  heap (performSearch st) = heap st /\ results (performSearch st) = a
  /\ resultList (performSearch st) = deref (heap st) a.
Proof.
  intros Hget. unfold performSearch.
  assert (Hhas : mapHas (searchCache st) (getCacheKey st) = true).
  { apply mapHas_In. apply mapGet_In in Hget. apply in_map_iff. now exists (getCacheKey st, a). }
  rewrite Hhas, Hget. unfold resultList.
  destruct (renderResults_heap (set_results a st)) as [-> ->]. now repeat split.
Qed.

Lemma performSearch_miss st :
  mapHas (searchCache st) (getCacheKey st) = false ->
  heap (performSearch st) = heap st ++ [freshResults st; freshResults st]
  /\ results (performSearch st) = length (heap st)
  /\ resultList (performSearch st) = freshResults st.
Proof.
  intros Hmiss. unfold performSearch. rewrite Hmiss. unfold resultList.
  match goal with |- context [renderResults ?s] =>
    destruct (renderResults_heap s) as [-> ->] end.
  unfold cacheSearchResults, resultList. fields. fold (freshResults st).
  rewrite deref_app_new, <- app_assoc. simpl app.
  repeat split. change (heap st ++ [freshResults st; freshResults st])
    with (heap st ++ [freshResults st] ++ [freshResults st]).
  rewrite app_assoc, deref_app_old by (rewrite length_app; simpl; lia).
  apply deref_app_new.
Qed.

(** C8: calling [search] twice in succession with the same query text and
    category filter leaves the same result list, element by element and in
    order, the second time as the first. *)
Theorem search_twice_same_results (st : State) (q r : jstring) :
  resultList (search q r (search q r st)) = resultList (search q r st).
Proof.
  unfold search at 1.
  set (s := set_currentRubro r (set_searchTerm q st)).
  set (s1 := search q r st).
  set (s2 := set_currentRubro r (set_searchTerm q s1)).
  assert (Hkey : getCacheKey s2 = getCacheKey s) by reflexivity.
  assert (Hs1 : s1 = performSearch s) by reflexivity.
  destruct (mapHas (searchCache s) (getCacheKey s)) eqn:Hhas.
  - destruct (mapGet_has _ _ Hhas) as [a Ha].
    destruct (performSearch_hit s a Ha) as (Hheap & _ & Hres).
    assert (Hget2 : mapGet (searchCache s2) (getCacheKey s2) = Some a).
    { rewrite Hkey. change (searchCache s2) with (searchCache s1).
      rewrite Hs1, performSearch_searchCache, Hhas. exact Ha. }
    destruct (performSearch_hit s2 a Hget2) as (_ & _ & ->).
    change (heap s2) with (heap s1). rewrite Hs1, Hheap, Hres. reflexivity.
  - destruct (performSearch_miss s Hhas) as (Hheap & _ & Hres).
    assert (Hget2 : mapGet (searchCache s2) (getCacheKey s2) = Some (S (length (heap s)))).
    { rewrite Hkey. change (searchCache s2) with (searchCache s1).
      rewrite Hs1, performSearch_searchCache, Hhas. apply mapGet_mapSet. }
    destruct (performSearch_hit s2 _ Hget2) as (_ & _ & ->).
    change (heap s2) with (heap s1). rewrite Hs1, Hheap, Hres.
    change (heap s ++ [freshResults s; freshResults s])
      with (heap s ++ [freshResults s] ++ [freshResults s]).
    rewrite app_assoc.
    replace (S (length (heap s))) with (length (heap s ++ [freshResults s]))
      by (rewrite length_app; simpl; lia).
    apply deref_app_new.
Qed.

(** ** The cached array and the array of the state *)

Lemma sortResults_searchCache t st : searchCache (sortResults t st) = searchCache st.
Proof. unfold sortResults. destruct (length (resultList st) =? 0); reflexivity. Qed.

Lemma handleSortChange_price_asc st :
  searchCache (handleSortChange (str "price_asc") st) = searchCache st
  /\ results (handleSortChange (str "price_asc") st) = results st
  /\ heap (handleSortChange (str "price_asc") st)
     = if length (resultList st) =? 0 then heap st
       else store (heap st) (results st) (sort byPriceAsc (resultList st)).
Proof.
  unfold handleSortChange. rewrite renderResults_searchCache, sortResults_searchCache.
  destruct (renderResults_heap (sortResults (str "price_asc") st)) as [-> ->].
  unfold sortResults. destruct (length (resultList st) =? 0); now repeat split.
Qed.

Lemma search_hit st q r a :
  mapGet (searchCache st) (cacheKeyOf q r) = Some a ->
  heap (search q r st) = heap st /\ results (search q r st) = a
  /\ resultList (search q r st) = deref (heap st) a
  /\ searchCache (search q r st) = searchCache st.
Proof.
  intros Hget. unfold search.
  pose proof (performSearch_hit (set_currentRubro r (set_searchTerm q st)) a Hget)
    as (H1 & H2 & H3).
  repeat split; try assumption.
  rewrite performSearch_searchCache.
  assert (Hhas : mapHas (searchCache st) (cacheKeyOf q r) = true).
  { apply mapHas_In. apply mapGet_In in Hget. apply in_map_iff.
    now exists (cacheKeyOf q r, a). }
  change (mapHas (searchCache (set_currentRubro r (set_searchTerm q st)))
            (getCacheKey (set_currentRubro r (set_searchTerm q st))))
    with (mapHas (searchCache st) (cacheKeyOf q r)).
  now rewrite Hhas.
Qed.

(** C10: on a cache hit the state's result list is the stored array itself,
    not a copy; a price sort then rewrites that array in place, and a later
    hit on the same key returns the stored results in price order: the
    price-sorted permutation of what was stored, which differs from the
    stored score order whenever that order was not already by price. *)
Theorem cache_hit_shares_array_with_sort (st : State) (q r : jstring) (a : addr) :
  mapGet (searchCache st) (cacheKeyOf q r) = Some a ->
  let stored := deref (heap st) a in
  let s1 := search q r st in
  let s2 := handleSortChange (str "price_asc") s1 in
  let s3 := search q r s2 in
  results s1 = a
  /\ mapGet (searchCache s3) (cacheKeyOf q r) = Some a
  /\ deref (heap s3) a = sort byPriceAsc stored
  /\ resultList s3 = sort byPriceAsc stored
  /\ Sorted (inOrder byPriceAsc) (resultList s3)
  /\ Permutation stored (resultList s3)
  /\ (sort byPriceAsc stored <> stored -> resultList s3 <> stored).
Proof.
  intros Hget. cbv zeta.
  destruct (search_hit st q r a Hget) as (Hheap1 & Hres1 & Hlist1 & Hcache1).
  remember (search q r st) as s1 eqn:E1. clear E1.
  destruct (handleSortChange_price_asc s1) as (Hcache2 & Hres2 & Hheap2).
  remember (handleSortChange (str "price_asc") s1) as s2 eqn:E2. clear E2.
  rewrite Hlist1, Hres1, Hheap1 in Hheap2.
  assert (Hstored2 : deref (heap s2) a = sort byPriceAsc (deref (heap st) a)).
  { rewrite Hheap2. destruct (length (deref (heap st) a) =? 0) eqn:E.
    - apply Nat.eqb_eq, length_zero_iff_nil in E. now rewrite E.
    - apply deref_store_same. apply deref_nonempty. intros N.
      rewrite N in E. discriminate. }
  assert (Hget3 : mapGet (searchCache s2) (cacheKeyOf q r) = Some a)
    by (rewrite Hcache2, Hcache1; exact Hget).
  destruct (search_hit s2 q r a Hget3) as (Hheap3 & _ & Hlist3 & Hcache3).
  remember (search q r s2) as s3 eqn:E3. clear E3.
  rewrite Hstored2 in Hlist3.
  split; [exact Hres1 |]. split; [now rewrite Hcache3 |].
  split; [now rewrite Hheap3 |]. split; [exact Hlist3 |].
  rewrite Hlist3. split; [apply sort_sorted, byPriceAsc_asymmetric |].
  split; [apply sort_perm | auto].
Qed.

(** In the catalog where the dearer product has the better score: the
    first search stores the score order 100, 200; after a hit and a price
    sort a later hit returns 200, 100. *)
Lemma cache_hit_shares_array_with_sort_witness :
  exists st0, init catalogCodeAndMention = Some st0
    /\ (let st := search (str "100") [] st0 in
        let s3 := search (str "100") []
                    (handleSortChange (str "price_asc") (search (str "100") [] st)) in
        mapGet (searchCache st) (cacheKeyOf (str "100") []) = Some 2
        /\ codesAndScores (deref (heap st) 2)
           = [(str "100", (105 # 100)%Q); (str "200", (40 # 100)%Q)]
        /\ resultList s3 = sort byPriceAsc (deref (heap st) 2)
        /\ codesAndScores (resultList s3)
           = [(str "200", (40 # 100)%Q); (str "100", (105 # 100)%Q)]).
Proof.
  exists (loaded catalogCodeAndMention). split; [vm_compute; reflexivity |].
  assert (Hget : mapGet (searchCache (search (str "100") [] (loaded catalogCodeAndMention)))
                   (cacheKeyOf (str "100") []) = Some 2)
    by (vm_compute; reflexivity).
  pose proof (cache_hit_shares_array_with_sort
                (search (str "100") [] (loaded catalogCodeAndMention)) (str "100") [] 2 Hget)
    as (_ & _ & _ & Hlist & _).
  cbv zeta. split; [exact Hget |]. split; [vm_compute; reflexivity |].
  split; [exact Hlist |]. vm_compute. reflexivity.
Defined.

(** ** Ranking on a cache miss *)

Lemma In_firstn_In {A} (n : nat) (l : list A) (x : A) : In x (firstn n l) -> In x l.
Proof.
  revert n; induction l as [|y l IH]; intros [|n]; simpl; try tauto.
  intros [H | H]; [now left | right; eauto].
Qed.

Lemma rank_spec cfg scored :
  Forall (fun result => (MIN_SCORE cfg <= ScoredResult.score result)%Q) (rank cfg scored)
  /\ Sorted (inOrder byScoreDesc) (rank cfg scored)
  /\ length (rank cfg scored) <= MAX_RESULTS cfg
  /\ (forall result, In result (rank cfg scored) -> In result scored).
Proof.
  unfold rank, slice. rewrite Nat.sub_0_r.
  change (skipn 0 (sort byScoreDesc
            (List.filter (fun result => Qle_bool (MIN_SCORE cfg) (ScoredResult.score result))
               scored)))
    with (sort byScoreDesc
            (List.filter (fun result => Qle_bool (MIN_SCORE cfg) (ScoredResult.score result))
               scored)).
  set (kept := List.filter _ scored).
  assert (Hin : forall x, In x (firstn (MAX_RESULTS cfg) (sort byScoreDesc kept)) ->
                          In x kept).
  { intros x Hx. apply In_firstn_In, sort_In in Hx. exact Hx. }
  split; [| split; [| split]].
  - apply List.Forall_forall. intros x Hx. apply Hin in Hx. apply filter_In in Hx as [_ Hx].
    now apply Qle_bool_iff.
  - assert (G : forall (l : list ScoredResult.t) n,
                 Sorted (inOrder byScoreDesc) l -> Sorted (inOrder byScoreDesc) (firstn n l)).
    { induction l as [|x l IH]; intros [|n] Hs; simpl; try constructor.
      - apply IH. now inversion Hs.
      - inversion Hs as [|? ? _ Hhd]; subst. destruct l, n; simpl; constructor.
        now inversion Hhd. }
    apply G, sort_sorted, byScoreDesc_asymmetric.
  - apply firstn_le_length.
  - intros x Hx. apply Hin in Hx. now apply filter_In in Hx.
Qed.

(** C5 fails on a cache hit that follows a price sort: in the catalog where
    the dearer product has the better score, the query [100] is searched
    (miss), searched again (hit), the list is sorted by ascending price, and
    the query is searched once more (hit): the list returned is 200 with
    score 0.40 before 100 with score 1.05, which is not in non-increasing
    score order. *)
Theorem search_after_price_sort_not_by_score :
  exists st0, init catalogCodeAndMention = Some st0
    /\ (let s1 := search (str "100") [] st0 in
        let s2 := search (str "100") [] s1 in
        let s3 := handleSortChange (str "price_asc") s2 in
        let s4 := search (str "100") [] s3 in
        codesAndScores (resultList s1)
        = [(str "100", (105 # 100)%Q); (str "200", (40 # 100)%Q)]
        /\ codesAndScores (resultList s4)
           = [(str "200", (40 # 100)%Q); (str "100", (105 # 100)%Q)]
        /\ ~ Sorted (inOrder byScoreDesc) (resultList s4)).
Proof.
  exists (loaded catalogCodeAndMention). split; [vm_compute; reflexivity |]. cbv zeta.
  split; [vm_compute; reflexivity |]. split; [vm_compute; reflexivity |].
  match goal with |- ~ Sorted _ ?l =>
    let l' := eval vm_compute in l in
    assert (Heq : l = l') by (vm_compute; reflexivity); rewrite Heq
  end.
  intros H. inversion H as [|? ? _ Hhd]; subst. inversion Hhd as [|? ? Hord]; subst.
  vm_compute in Hord. discriminate.
Qed.

(** C4 fails on a cache hit whose key was written by another query: the
    key joins query text and category with a hyphen, so the text
    [portalampara] under the category [ELECTRICIDAD-LAMPARAS] and the text
    [portalampara-ELECTRICIDAD] under the category [LAMPARAS] share one key.
    After the first search the second returns the first one's list: a
    product of category [ELECTRICIDAD-LAMPARAS] under the filter [LAMPARAS],
    where a search with an empty cache returns nothing. *)
Theorem category_filter_bypassed_by_cache_key :
  exists st0, init catalogHyphenCategory = Some st0
    /\ (let s1 := search (str "portalampara") (str "ELECTRICIDAD-LAMPARAS") st0 in
        let s2 := search (str "portalampara-ELECTRICIDAD") (str "LAMPARAS") s1 in
        getCacheKey s1 = getCacheKey s2
        /\ currentRubro s2 = str "LAMPARAS"
        /\ codesAndCategories (resultList s2) = [(str "100", str "ELECTRICIDAD-LAMPARAS")]
        /\ codesAndCategories
             (resultList (search (str "portalampara-ELECTRICIDAD") (str "LAMPARAS") st0))
           = []).
Proof.
  exists (loaded catalogHyphenCategory). split; [vm_compute; reflexivity |]. cbv zeta.
  repeat split; vm_compute; reflexivity.
Qed.

(** ** Words of a text *)

Lemma split_ws_nonnil s : split_ws s <> [].
Proof.
  induction s as [|c s IH]; simpl; [discriminate |].
  destruct (isWhitespace c).
  - destruct s as [|c' s']; [discriminate |].
    destruct (isWhitespace c'); [exact IH | discriminate].
  - destruct (split_ws s); discriminate.
Qed.

Lemma split_ws_pieces s : split_ws s = firstPiece s :: restPieces s.
Proof.
  unfold firstPiece, restPieces. pose proof (split_ws_nonnil s).
  destruct (split_ws s); [contradiction | reflexivity].
Qed.

Lemma firstPiece_ws s : forall c, isWhitespace c = true -> firstPiece (c :: s) = [].
Proof.
  unfold firstPiece. induction s as [|c' s IH]; intros c Hc; simpl; rewrite Hc;
    [reflexivity |].
  destruct (isWhitespace c') eqn:E; [| reflexivity].
  specialize (IH c' E). simpl in IH. rewrite E in IH. exact IH.
Qed.

Lemma tokens_ws c s : isWhitespace c = true -> tokens (c :: s) = tokens s.
Proof.
  intros Hc. unfold tokens. simpl. rewrite Hc.
  destruct s as [|c' s]; [reflexivity |].
  destruct (isWhitespace c'); reflexivity.
Qed.

Lemma split_ws_nonws c s :
  isWhitespace c = false -> split_ws (c :: s) = (c :: firstPiece s) :: restPieces s.
Proof.
  intros Hc. simpl. rewrite Hc, (split_ws_pieces s). reflexivity.
Qed.

Lemma tokens_pieces s : tokens s = emit (firstPiece s) ++ List.filter nonEmpty (restPieces s).
Proof. unfold tokens, emit. rewrite (split_ws_pieces s) at 1. simpl. now destruct (nonEmpty _). Qed.

Lemma tokens_nonws c s :
  isWhitespace c = false ->
  tokens (c :: s) = (c :: firstPiece s) :: List.filter nonEmpty (restPieces s).
Proof. intros Hc. unfold tokens. now rewrite split_ws_nonws. Qed.

Lemma firstPiece_nonws c s :
  isWhitespace c = false -> firstPiece (c :: s) = c :: firstPiece s.
Proof. intros Hc. unfold firstPiece at 1. now rewrite split_ws_nonws. Qed.

(** Two texts with the same first piece and the same words have the same
    words after a common first character. *)
Lemma tokens_cons_congr c s s' :
  firstPiece s = firstPiece s' -> tokens s = tokens s' ->
  firstPiece (c :: s) = firstPiece (c :: s') /\ tokens (c :: s) = tokens (c :: s').
Proof.
  intros Hf Ht. destruct (isWhitespace c) eqn:Hc.
  - rewrite !firstPiece_ws, !tokens_ws by assumption. now split.
  - rewrite !firstPiece_nonws, !tokens_nonws by assumption. rewrite Hf. split; [reflexivity |].
    f_equal. rewrite !tokens_pieces, Hf in Ht. now apply app_inv_head in Ht.
Qed.

Lemma tokens_app_ws_joint c b : isWhitespace c = true -> forall a,
  firstPiece (a ++ c :: b) = firstPiece a /\ tokens (a ++ c :: b) = tokens a ++ tokens b.
Proof.
  intros Hc. induction a as [|x a [IHf IHt]]; simpl.
  - rewrite firstPiece_ws, tokens_ws by assumption. now split.
  - destruct (isWhitespace x) eqn:Hx.
    + rewrite !firstPiece_ws, !tokens_ws by assumption. now split.
    + rewrite !firstPiece_nonws, !tokens_nonws by assumption. rewrite IHf.
      split; [reflexivity |]. simpl. f_equal.
      rewrite (tokens_pieces (a ++ c :: b)), (tokens_pieces a), IHf, <- app_assoc in IHt.
      now apply app_inv_head in IHt.
Qed.

Lemma tokens_app_ws a c b :
  isWhitespace c = true -> tokens (a ++ c :: b) = tokens a ++ tokens b.
Proof. intros Hc. apply (tokens_app_ws_joint c b Hc a). Qed.

Lemma tokens_all_ws t : forallb isWhitespace t = true -> tokens t = [].
Proof.
  induction t as [|c t IH]; simpl; [reflexivity |].
  intros H. apply andb_true_iff in H as [Hc Ht]. rewrite tokens_ws by assumption. auto.
Qed.

Lemma tokens_ws_prefix t s : forallb isWhitespace t = true -> tokens (t ++ s) = tokens s.
Proof.
  induction t as [|c t IH]; simpl; [reflexivity |].
  intros H. apply andb_true_iff in H as [Hc Ht]. rewrite tokens_ws by assumption. auto.
Qed.

Lemma tokens_ws_suffix s t : forallb isWhitespace t = true -> tokens (s ++ t) = tokens s.
Proof.
  destruct t as [|c t]; simpl; [now rewrite app_nil_r |].
  intros H. apply andb_true_iff in H as [Hc Ht].
  rewrite tokens_app_ws by assumption. rewrite (tokens_all_ws t Ht). apply app_nil_r.
Qed.

Lemma replaceWsRuns_joint s :
  firstPiece (replaceWsRuns s) = firstPiece s /\ tokens (replaceWsRuns s) = tokens s.
Proof.
  induction s as [|c s [IHf IHt]]; [now split |].
  assert (Hsp : isWhitespace space = true) by reflexivity.
  simpl replaceWsRuns. destruct (isWhitespace c) eqn:Hc.
  - rewrite (firstPiece_ws s c Hc), (tokens_ws c s Hc).
    destruct s as [|c' s]; [now rewrite firstPiece_ws, tokens_ws |].
    destruct (isWhitespace c') eqn:Hc'.
    + rewrite IHf, IHt. split; [now apply firstPiece_ws | reflexivity].
    + rewrite firstPiece_ws, tokens_ws by assumption. now split.
  - now apply tokens_cons_congr.
Qed.

Lemma tokens_replaceWsRuns s : tokens (replaceWsRuns s) = tokens s.
Proof. apply replaceWsRuns_joint. Qed.

Lemma dropWhile_split {A} (p : A -> bool) (l : list A) :
  exists pre, forallb p pre = true /\ l = pre ++ dropWhile p l.
Proof.
  induction l as [|x l (pre & Hp & Hl)]; simpl; [now exists [] |].
  destruct (p x) eqn:E; [| now exists []].
  exists (x :: pre). simpl. rewrite E, Hp. split; [reflexivity | now f_equal].
Qed.

Lemma forallb_rev {A} (p : A -> bool) (l : list A) :
  forallb p (rev l) = forallb p l.
Proof.
  induction l as [|x l IH]; simpl; [reflexivity |].
  rewrite forallb_app, IH. simpl. rewrite andb_true_r. apply andb_comm.
Qed.

(** [trim] removes a run of white space at each end, and nothing else. *)
Lemma trim_split s :
  exists pre suf, forallb isWhitespace pre = true /\ forallb isWhitespace suf = true
                  /\ s = pre ++ trim s ++ suf.
Proof.
  unfold trim, trimEnd, trimStart.
  destruct (dropWhile_split isWhitespace s) as (pre & Hpre & Hs).
  destruct (dropWhile_split isWhitespace (rev (dropWhile isWhitespace s)))
    as (fus & Hfus & Hr).
  exists pre, (rev fus). split; [assumption |]. split; [now rewrite forallb_rev |].
  rewrite Hs at 1. f_equal.
  rewrite <- (rev_involutive (dropWhile isWhitespace s)) at 1. rewrite Hr at 1.
  now rewrite rev_app_distr.
Qed.

Lemma tokens_trim s : tokens (trim s) = tokens s.
Proof.
  destruct (trim_split s) as (pre & suf & Hpre & Hsuf & Hs).
  rewrite Hs at 2. now rewrite tokens_ws_prefix, tokens_ws_suffix.
Qed.

(** ** The characters of a search text *)

Lemma searchChar_ws c : isWhitespace c = true -> isWhitespace (searchChar c) = true.
Proof.
  destruct c as [[] [] [] [] [] [] [] []]; vm_compute; intros H; congruence.
Qed.

Lemma searchChar_all_ws t :
  forallb isWhitespace t = true -> forallb isWhitespace (map searchChar t) = true.
Proof.
  induction t as [|c t IH]; simpl; [reflexivity |].
  intros H. apply andb_true_iff in H as [Hc Ht]. now rewrite searchChar_ws, IH.
Qed.

Lemma normalizeSearchText_chars text :
  normalizeSearchText text = trim (replaceWsRuns (map searchChar text)).
Proof.
  unfold normalizeSearchText, normalizeText, normalizeNFD_stripMarks, toLowerCase, searchChar.
  now rewrite !map_map.
Qed.

(** The non-empty pieces of a normalised search text are the words of the
    text, character by character normalised. *)
Lemma tokens_normalizeSearchText text :
  tokens (normalizeSearchText text) = tokens (map searchChar text).
Proof. now rewrite normalizeSearchText_chars, tokens_trim, tokens_replaceWsRuns. Qed.

Lemma tokens_In w s : In w (tokens s) <-> In w (split_ws s) /\ w <> [].
Proof.
  unfold tokens. rewrite filter_In. unfold nonEmpty.
  destruct w; simpl; intuition congruence.
Qed.

Lemma searchWords_In w text :
  In w (searchWords text) <-> In w (tokens (map searchChar text)) /\ 2 <= length w.
Proof.
  unfold searchWords. rewrite filter_In, <- tokens_normalizeSearchText, tokens_In,
    Nat.leb_le.
  split; [intros [H L]; repeat split; auto; intros ->; simpl in L; lia | tauto].
Qed.

Lemma tokens_map_trim s : tokens (map searchChar (trim s)) = tokens (map searchChar s).
Proof.
  destruct (trim_split s) as (pre & suf & Hpre & Hsuf & Hs).
  rewrite Hs at 2. rewrite !map_app.
  now rewrite tokens_ws_prefix, tokens_ws_suffix by now apply searchChar_all_ws.
Qed.

(** The words of [a-b] are the words of [a] and the words of [b]. *)
Lemma tokens_hyphen a b :
  tokens (map searchChar (a ++ str "-" ++ b))
  = tokens (map searchChar a) ++ tokens (map searchChar b).
Proof. rewrite map_app. simpl. now apply tokens_app_ws. Qed.

(** The words of [a b] are the words of [a] and the words of [b]. *)
Lemma tokens_space a b :
  tokens (map searchChar (a ++ space :: b))
  = tokens (map searchChar a) ++ tokens (map searchChar b).
Proof. rewrite map_app. simpl. now apply tokens_app_ws. Qed.

(** ** Colliding cache keys *)

Lemma cacheKeyOf_collision q1 r1 q2 r2 :
  cacheKeyOf q1 r1 = cacheKeyOf q2 r2 ->
  (q1 = q2 /\ r1 = r2)
  \/ (exists x, q2 = q1 ++ str "-" ++ x /\ r1 = x ++ str "-" ++ r2)
  \/ (exists x, q1 = q2 ++ str "-" ++ x /\ r2 = x ++ str "-" ++ r1).
Proof.
  unfold cacheKeyOf. intros H. apply app_eq_app in H as (l & [[H1 H2] | [H1 H2]]).
  - destruct l as [|y l].
    + left. rewrite app_nil_r in H1. simpl in H2. injection H2 as H2. now split.
    + right. right. simpl in H2. injection H2 as <- H2. exists l. now split.
  - destruct l as [|y l].
    + left. rewrite app_nil_r in H1. simpl in H2. injection H2 as H2. now split.
    + right. left. simpl in H2. injection H2 as <- H2. exists l. now split.
Qed.

(** ** The loaded catalog *)

Lemma processProducts_from_pairs raw : forall index st st',
  processProducts_from index raw st = Some st' ->
  Forall2 catalogPair (products st) (normalizedData st) ->
  Forall2 catalogPair (products st') (normalizedData st').
Proof.
  induction raw as [|product raw IH]; intros index st st'; simpl; [now intros [= <-] |].
  destruct (normalizeProduct index product) as [| |p n] eqn:E; [apply IH | discriminate |].
  intros H Hpairs. apply IH in H; [exact H |].
  assert (G : Forall2 catalogPair (products st ++ [p]) (normalizedData st ++ [n])).
  { apply Forall2_app; [assumption |]. constructor; [| constructor]. now exists index, product. }
  destruct (negb (length (Normalized.rubro n) =? 0)); exact G.
Qed.

Lemma init_catalogOk raw st : init raw = Some st -> catalogOk st.
Proof.
  intros H. split; [now apply (init_indexSound raw) |]. split.
  - unfold init in H. destruct (processProducts raw constructed) as [st1|] eqn:E;
      [| discriminate].
    injection H as <-. unfold processProducts in E.
    apply processProducts_from_pairs in E; [exact E | constructor].
  - rewrite (init_CONFIG raw st H). reflexivity.
Qed.

Lemma sameCatalog_catalogOk st st' : sameCatalog st st' -> catalogOk st -> catalogOk st'.
Proof. intros (Hc & Hp & Hn & Hi). unfold catalogOk. now rewrite Hc, Hp, Hn, Hi. Qed.

Lemma reachable_catalogOk raw st : reachable raw st -> catalogOk st.
Proof.
  intros H. apply reachable_sameCatalog in H as (st0 & H0 & Hsame).
  eapply sameCatalog_catalogOk; [exact Hsame | now apply (init_catalogOk raw)].
Qed.

Lemma Forall2_nth_error_r {A B} (R : A -> B -> Prop) l1 l2 i y :
  Forall2 R l1 l2 -> nth_error l2 i = Some y -> exists x, nth_error l1 i = Some x /\ R x y.
Proof.
  intros H. revert i. induction H as [|a b l1 l2 Hab _ IH]; intros [|i]; simpl;
    try discriminate.
  - intros [= <-]. eauto.
  - apply IH.
Qed.

(** The words of a product's category are words of its search text. *)
Lemma catalogPair_rubro_words p n w :
  catalogPair p n -> Product.rubro p <> [] ->
  In w (tokens (map searchChar (Product.rubro p))) ->
  In w (split_ws (Normalized.searchText n)).
Proof.
  intros (index & raw & H) Hne Hw. unfold normalizeProduct in H.
  destruct (negb (ToBoolean (Raw.codigo raw)) || negb (ToBoolean (Raw.descripcion raw))
            || negb (ToBoolean (Raw.precio_venta raw))); [discriminate |].
  destruct (normalizeTextOf (Raw.codigo raw)); [| discriminate].
  destruct (normalizeTextOf (Raw.descripcion raw)); [| discriminate].
  destruct (normalizeTextOf (or (Raw.marca raw) emptyString)); [| discriminate].
  destruct (normalizeTextOf (or (Raw.rubro raw) emptyString)); [| discriminate].
  injection H as <- <-. cbn [Product.rubro Normalized.searchText] in *.
  unfold or in Hne, Hw. destruct (ToBoolean (Raw.rubro raw)); [| now elim Hne].
  rewrite tokens_map_trim in Hw.
  apply tokens_In. rewrite tokens_normalizeSearchText, !tokens_space.
  apply in_or_app. right. apply in_or_app. right. apply in_or_app. now right.
Qed.

(** ** The results computed on a cache miss *)

Lemma intersect_fold_In st i : forall others acc,
  In i (fold_left
          (fun productIndices word =>
             setFrom Nat.eqb
               (List.filter (fun idx => setHas Nat.eqb (indicesOf st word) idx) productIndices))
          others acc) ->
  In i acc /\ forall w, In w others -> In i (indicesOf st w).
Proof.
  induction others as [|w others IH]; intros acc H; simpl in *; [now split |].
  apply IH in H as [H Hrest]. apply setFrom_In, filter_In in H as [Hacc Hw].
  apply setHas_nat in Hw. split; [assumption |]. intros w' [<- | Hw']; auto.
Qed.

Lemma intersectWords_In st words positions i :
  intersectWords st words = Some positions -> In i positions ->
  forall w, In w words -> In i (indicesOf st w).
Proof.
  destruct words as [|first others]; [discriminate |]. simpl. intros [= <-] Hi.
  apply intersect_fold_In in Hi as [Hfirst Hothers]. apply setFrom_In in Hfirst.
  intros w [<- | Hw]; auto.
Qed.

Lemma findRelevantProducts_In st item :
  In item (findRelevantProducts st) ->
  exists i, item = candidateAt st i
            /\ searchWords (searchTerm st) <> []
            /\ forall w, In w (searchWords (searchTerm st)) -> In i (indicesOf st w).
Proof.
  unfold findRelevantProducts.
  destruct (length (searchTerm st) =? 0); [intros [] |].
  destruct (length (searchWords (searchTerm st)) =? 0) eqn:El; [intros [] |].
  destruct (intersectWords st (searchWords (searchTerm st))) as [positions|] eqn:Ei;
    [| intros []].
  destruct (length positions =? 0); [intros [] |].
  intros H. apply in_map_iff in H as (i & <- & Hi). exists i. split; [reflexivity |].
  split; [intros N; rewrite N in El; discriminate |].
  now apply (intersectWords_In st _ positions).
Qed.

Lemma indicesOf_sound st i w :
  indexSound (normalizedData st) (searchIndex st) -> In i (indicesOf st w) ->
  exists n, nth_error (normalizedData st) i = Some n
            /\ In w (split_ws (Normalized.searchText n)).
Proof.
  intros [_ Hpos]. unfold indicesOf.
  destruct (searchIndex st !! w) as [positions|] eqn:E; [| intros []].
  intros Hi. eapply Hpos; eauto.
Qed.

Lemma vetoed_below_threshold st words item :
  (0 < MIN_SCORE (CONFIG st))%Q -> vetoed st item = true ->
  Qle_bool (MIN_SCORE (CONFIG st)) (ScoredResult.score (scoreItem st words item)) = false.
Proof.
  intros Hmin Hv. unfold scoreItem. rewrite Hv. cbn [ScoredResult.score].
  destruct (Qle_bool _ _) eqn:E; [| reflexivity].
  apply Qle_bool_iff in E. exfalso.
  assert (Z0 : (inject_Z 0 / 100 == 0)%Q) by reflexivity.
  rewrite Z0 in E. lra.
Qed.

(** What a result of a cache miss is: the product and the normalised record
    at one position of the catalog, whose search text has every query word,
    and which the category filter does not veto. *)
Lemma freshResults_In st result :
  catalogOk st -> In result (freshResults st) ->
  exists i p n,
    nth_error (products st) i = Some p /\ nth_error (normalizedData st) i = Some n
    /\ catalogPair p n
    /\ ScoredResult.product result = p /\ ScoredResult.normalized result = n
    /\ ScoredResult.index result = i
    /\ (forall w, In w (searchWords (searchTerm st)) ->
                  In w (split_ws (Normalized.searchText n)))
    /\ vetoed st (candidateAt st i) = false
    /\ (MIN_SCORE (CONFIG st) <= ScoredResult.score result)%Q.
Proof.
  intros (Hidx & Hpairs & Hmin) Hin. unfold freshResults in Hin.
  destruct (rank_spec (CONFIG st) (calculateProductScores st (findRelevantProducts st)))
    as (Hscore & _ & _ & Hsub).
  rewrite List.Forall_forall in Hscore. specialize (Hscore _ Hin). apply Hsub in Hin.
  unfold calculateProductScores in Hin.
  destruct (_ || _) in Hin; [destruct Hin |].
  apply in_map_iff in Hin as (item & <- & Hitem).
  apply findRelevantProducts_In in Hitem as (i & -> & Hne & Hwords).
  destruct (searchWords (searchTerm st)) as [|w0 ws] eqn:Ew; [congruence |].
  destruct (indicesOf_sound st i w0 Hidx (Hwords w0 (or_introl eq_refl))) as (n & Hn & _).
  destruct (Forall2_nth_error_r _ _ _ _ _ Hpairs Hn) as (p & Hp & Hpair).
  exists i, p, n. repeat split; try assumption.
  - cbn. unfold candidateAt. cbn. now apply nth_error_nth.
  - cbn. unfold candidateAt. cbn. now apply nth_error_nth.
  - intros w Hw. destruct (indicesOf_sound st i w Hidx (Hwords w Hw)) as (n' & Hn' & Hin').
    congruence.
  - destruct (vetoed st (candidateAt st i)) eqn:Ev; [| reflexivity].
    apply (vetoed_below_threshold st (w0 :: ws)) in Ev; [| assumption].
    apply Qle_bool_iff in Hscore. congruence.
Qed.

(** On a cache miss with a category filter, every result has the filter's
    category. *)
Lemma freshResults_category st result :
  catalogOk st -> In result (freshResults st) -> currentRubro st <> [] ->
  Product.rubro (ScoredResult.product result) = currentRubro st.
Proof.
  intros Hok Hin Hr.
  destruct (freshResults_In st result Hok Hin) as (i & p & n & Hp & _ & _ & <- & _ & _ & _ & Hv & _).
  unfold vetoed in Hv. apply andb_false_iff in Hv as [Hv | Hv].
  - apply negb_false_iff, Nat.eqb_eq, length_zero_iff_nil in Hv. contradiction.
  - apply negb_false_iff, jstring_eqb_eq in Hv. unfold candidateAt in Hv. cbn in Hv.
    now rewrite (nth_error_nth _ _ _ Hp) in Hv.
Qed.

(** The results of a cache miss are good for the key they are stored
    under, whatever query text and category made that key. *)
Lemma freshResults_entryGood st result :
  catalogOk st -> In result (freshResults st) -> entryGood (getCacheKey st) result.
Proof.
  intros Hok Hin q r Hkey w Hw.
  destruct (freshResults_In st result Hok Hin)
    as (i & p & n & Hp & Hn & Hpair & Hprod & Hnorm & _ & Hwords & _ & _).
  rewrite Hnorm.
  change (getCacheKey st) with (cacheKeyOf (searchTerm st) (currentRubro st)) in Hkey.
  apply searchWords_In in Hw as [Hw Hlen].
  apply cacheKeyOf_collision in Hkey as [[-> _] | [(x & Hq & Hr) | (x & Hq & Hr)]].
  - apply Hwords, searchWords_In. now split.
  - apply Hwords, searchWords_In. split; [| assumption].
    rewrite Hq, tokens_hyphen. apply in_or_app. now left.
  - rewrite Hq, tokens_hyphen in Hw. apply in_app_or in Hw as [Hw | Hw].
    + apply Hwords, searchWords_In. now split.
    + assert (Hne : currentRubro st <> []) by (rewrite Hr; now destruct x).
      pose proof (freshResults_category st result Hok Hin Hne) as Hcat.
      rewrite Hprod in Hcat.
      apply (catalogPair_rubro_words p n w Hpair); [congruence |].
      rewrite Hcat, Hr, tokens_hyphen. apply in_or_app. now left.
Qed.

(** ** The cache holds good results *)

Lemma mapSet_In {V} (m : list (jstring * V)) key v k a :
  In (k, a) (mapSet m key v) -> In (k, a) m \/ (k = key /\ a = v).
Proof.
  induction m as [|[k' v'] m IH]; simpl.
  - intros [[= <- <-] | []]. now right.
  - destruct (jstring_eqb key k') eqn:E; simpl.
    + apply jstring_eqb_eq in E. intros [[= <- <-] | H]; [now right | left; now right].
    + intros [H | H]; [left; now left |]. apply IH in H as [H | H]; [left; now right | now right].
Qed.

Lemma evicted_In capacity cache e : In e (evicted capacity cache) -> In e cache.
Proof.
  unfold evicted. destruct (capacity <=? length cache); [| auto].
  destruct (mapFirstKey cache); [| auto]. unfold mapDelete. intros H.
  now apply filter_In in H.
Qed.

Lemma cacheInv_frame st st' :
  searchCache st' = searchCache st -> heap st' = heap st -> cacheInv st -> cacheInv st'.
Proof. unfold cacheInv. now intros -> ->. Qed.

Lemma cacheInv_alloc st l :
  cacheInv st -> cacheInv (assignNewResults l st).
Proof.
  intros Hinv key a Hin. unfold assignNewResults in *. fields.
  destruct (Hinv key a Hin) as [Hlt Hgood]. rewrite length_app. split; [lia |].
  now rewrite deref_app_old.
Qed.

Lemma cacheInv_sortResults t st : cacheInv st -> cacheInv (sortResults t st).
Proof.
  intros Hinv. unfold sortResults. destruct (length (resultList st) =? 0); [assumption |].
  intros key a Hin. fields. destruct (Hinv key a Hin) as [Hlt Hgood].
  rewrite store_length. split; [assumption |].
  destruct (Nat.eq_dec (results st) a) as [E | Hne].
  - subst a. rewrite deref_store_same by assumption. intros result Hr.
    apply sort_In in Hr. apply Hgood. exact Hr.
  - now rewrite deref_store_other.
Qed.

Lemma cacheInv_renderResults st : cacheInv st -> cacheInv (renderResults st).
Proof.
  apply cacheInv_frame; [apply renderResults_searchCache | apply renderResults_heap].
Qed.

Lemma cacheInv_performSearch st : catalogOk st -> cacheInv st -> cacheInv (performSearch st).
Proof.
  intros Hok Hinv. destruct (mapHas (searchCache st) (getCacheKey st)) eqn:Hhas.
  - destruct (mapGet_has _ _ Hhas) as [a Ha].
    destruct (performSearch_hit st a Ha) as (Hheap & _ & _).
    apply (cacheInv_frame st); [| assumption | assumption].
    now rewrite performSearch_searchCache, Hhas.
  - destruct (performSearch_miss st Hhas) as (Hheap & _ & _).
    intros key a Hin. rewrite performSearch_searchCache, Hhas in Hin. rewrite Hheap.
    rewrite length_app. simpl length.
    apply mapSet_In in Hin as [Hin | [-> ->]].
    + apply evicted_In in Hin. destruct (Hinv key a Hin) as [Hlt Hgood].
      split; [lia |]. now rewrite deref_app_old.
    + split; [lia |].
      change (heap st ++ [freshResults st; freshResults st])
        with (heap st ++ [freshResults st] ++ [freshResults st]).
      rewrite app_assoc.
      replace (S (length (heap st))) with (length (heap st ++ [freshResults st]))
        by (rewrite length_app; simpl; lia).
      rewrite deref_app_new. intros result Hr. now apply freshResults_entryGood.
Qed.

Lemma cacheInv_search q r st : catalogOk st -> cacheInv st -> cacheInv (search q r st).
Proof.
  intros Hok Hinv. unfold search. apply cacheInv_performSearch.
  - eapply sameCatalog_catalogOk; [| exact Hok]. repeat split.
  - now apply (cacheInv_frame st).
Qed.

Lemma cacheInv_handle st e : catalogOk st -> cacheInv st -> cacheInv (handle st e).
Proof.
  intros Hok Hinv. destruct e as [text|value|value|nearBottom|]; simpl.
  - unfold handleSearchInput. destruct (length text =? 0).
    + now apply (cacheInv_frame st).
    + apply cacheInv_performSearch.
      * eapply sameCatalog_catalogOk; [| exact Hok]. repeat split.
      * now apply (cacheInv_frame st).
  - unfold handleRubroChange. apply cacheInv_performSearch.
    + eapply sameCatalog_catalogOk; [| exact Hok]. repeat split.
    + now apply (cacheInv_frame st).
  - unfold handleSortChange. now apply cacheInv_renderResults, cacheInv_sortResults.
  - unfold handleScroll. destruct (negb (hasMore st) || isLoading st); [assumption |].
    destruct nearBottom; [| assumption].
    apply (cacheInv_frame st); [| | assumption]; fields.
    + now rewrite renderProductBatch_searchCache.
    + now destruct (renderProductBatch_heap (set_isLoading true st)) as [-> _].
  - unfold clearSearch. apply cacheInv_alloc. now apply (cacheInv_frame st).
Qed.

Lemma reachable_cacheInv raw st : reachable raw st -> cacheInv st.
Proof.
  induction 1 as [st H | st q r Hr IH | st e Hr IH].
  - intros key a Hin. rewrite (init_searchCache raw st H) in Hin. destruct Hin.
  - apply cacheInv_search; [now apply (reachable_catalogOk raw) | assumption].
  - apply cacheInv_handle; [now apply (reachable_catalogOk raw) | assumption].
Qed.

(** C1: in a running instance, whatever was searched, sorted or scrolled
    before, every result that [search] leaves for a query with at least one
    word has, in the search text of its item, every query word as a whole
    word, for every category filter; this holds on a cache hit too, also
    where the key was written by a different query text. *)
Theorem results_contain_every_query_word (raw : list Raw.t) (st : State) (q r : jstring) :
  reachable raw st ->
  searchWords q <> [] ->
  forall result, In result (resultList (search q r st)) ->
    forall word, In word (searchWords q) ->
      In word (split_ws (Normalized.searchText (ScoredResult.normalized result))).
Proof.
  intros Hreach _ result Hin word Hword.
  pose proof (reachable_catalogOk raw st Hreach) as Hok.
  pose proof (reachable_cacheInv raw st Hreach) as Hinv.
  set (s := set_currentRubro r (set_searchTerm q st)).
  assert (Hoks : catalogOk s) by (eapply sameCatalog_catalogOk; [| exact Hok]; repeat split).
  assert (Hinvs : cacheInv s) by now apply (cacheInv_frame st).
  assert (Hgood : entryGood (getCacheKey s) result).
  { unfold search in Hin. fold s in Hin.
    destruct (mapHas (searchCache s) (getCacheKey s)) eqn:Hhas.
    - destruct (mapGet_has _ _ Hhas) as [a Ha].
      destruct (performSearch_hit s a Ha) as (_ & _ & Hlist). rewrite Hlist in Hin.
      apply mapGet_In in Ha. destruct (Hinvs _ _ Ha) as [_ Hg]. now apply Hg.
    - destruct (performSearch_miss s Hhas) as (_ & _ & Hlist). rewrite Hlist in Hin.
      now apply freshResults_entryGood. }
  apply (Hgood q r); [reflexivity | assumption].
Qed.

(** The query [martillo acme] on the scenario catalog. *)
Lemma results_contain_every_query_word_witness :
  searchWords (str "martillo acme") <> []
  /\ forall result,
       In result (resultList (search (str "martillo acme") [] (loaded catalogScenario))) ->
       forall word, In word (searchWords (str "martillo acme")) ->
         In word (split_ws (Normalized.searchText (ScoredResult.normalized result))).
Proof.
  assert (E : init catalogScenario = Some (loaded catalogScenario))
    by (vm_compute; reflexivity).
  assert (N : searchWords (str "martillo acme") <> []) by (vm_compute; discriminate).
  split; [exact N |].
  exact (results_contain_every_query_word catalogScenario (loaded catalogScenario)
           (str "martillo acme") [] (reach_init _ _ E) N).
Defined.

(** ** Sets, continued *)

Section SetFacts.
Context {A : Type} (eqb : A -> A -> bool).
Hypothesis eqb_spec : forall a b, eqb a b = true <-> a = b.

Lemma setHas_In (s : list A) (x : A) : setHas eqb s x = true <-> In x s.
Proof.
  unfold setHas. rewrite existsb_exists. split.
  - intros (y & Hy & E). apply eqb_spec in E. now subst.
  - intros H. exists x. split; [assumption | now apply eqb_spec].
Qed.

Lemma setAdd_In_iff (s : list A) (x y : A) : In y (setAdd eqb s x) <-> In y s \/ y = x.
Proof.
  split; [apply setAdd_In |]. unfold setAdd.
  destruct (setHas eqb s x) eqn:E.
  - apply setHas_In in E. intros [H | ->]; assumption.
  - rewrite in_app_iff. simpl. intuition.
Qed.

Lemma setAdd_NoDup (s : list A) (x : A) : List.NoDup s -> List.NoDup (setAdd eqb s x).
Proof.
  intros Hs. unfold setAdd. destruct (setHas eqb s x) eqn:E; [assumption |].
  apply List.NoDup_app; [assumption | repeat constructor; intros [] |].
  intros y Hy [<- | []]. apply setHas_In in Hy. congruence.
Qed.

Lemma fold_setAdd_In_iff (l acc : list A) (y : A) :
  In y (fold_left (setAdd eqb) l acc) <-> In y acc \/ In y l.
Proof.
  revert acc; induction l as [|x l IH]; intros acc; simpl; [tauto |].
  rewrite IH, setAdd_In_iff. intuition.
Qed.

Lemma fold_setAdd_NoDup (l acc : list A) :
  List.NoDup acc -> List.NoDup (fold_left (setAdd eqb) l acc).
Proof.
  revert acc; induction l as [|x l IH]; intros acc H; simpl; [assumption |].
  now apply IH, setAdd_NoDup.
Qed.

Lemma setFrom_In_iff (l : list A) (y : A) : In y (setFrom eqb l) <-> In y l.
Proof. unfold setFrom. rewrite fold_setAdd_In_iff. simpl. tauto. Qed.

Lemma setFrom_NoDup (l : list A) : List.NoDup (setFrom eqb l).
Proof. apply fold_setAdd_NoDup. constructor. Qed.
End SetFacts.

(** ** The index is complete for the catalog it is built from *)

Lemma indexWord_keeps index idx word w p :
  (exists ps, idx !! w = Some ps /\ In p ps) ->
  exists ps, indexWord index idx word !! w = Some ps /\ In p ps.
Proof.
  intros (ps & Hw & Hp). unfold indexWord, jstring in *.
  destruct (2 <=? length word); [| eauto].
  destruct (idx !! word) as [old|] eqn:Hold.
  - rewrite Hold. rewrite lookup_insert. case_decide; [| eauto].
    assert (old = ps) as -> by congruence.
    eexists. split; [reflexivity |]. apply (setAdd_In_iff Nat.eqb Nat.eqb_eq). now left.
  - rewrite lookup_insert_eq. rewrite !lookup_insert. repeat case_decide; eauto; congruence.
Qed.

Lemma indexWord_adds index idx word :
  2 <= length word ->
  exists ps, indexWord index idx word !! word = Some ps /\ In index ps.
Proof.
  intros Hlen. unfold indexWord, jstring in *. apply Nat.leb_le in Hlen. rewrite Hlen.
  destruct (idx !! word) as [old|] eqn:Hold.
  - rewrite Hold, lookup_insert_eq. eexists. split; [reflexivity |].
    apply (setAdd_In_iff Nat.eqb Nat.eqb_eq). now right.
  - rewrite !lookup_insert_eq. eexists. split; [reflexivity |]. simpl. now left.
Qed.

Lemma fold_indexWord_keeps index words : forall idx w p,
  (exists ps, idx !! w = Some ps /\ In p ps) ->
  exists ps, fold_left (indexWord index) words idx !! w = Some ps /\ In p ps.
Proof.
  induction words as [|word words IH]; intros idx w p H; simpl; [assumption |].
  now apply IH, indexWord_keeps.
Qed.

Lemma fold_indexWord_adds index words : forall idx w,
  In w words -> 2 <= length w ->
  exists ps, fold_left (indexWord index) words idx !! w = Some ps /\ In index ps.
Proof.
  induction words as [|word words IH]; intros idx w Hin Hlen; simpl; [destruct Hin |].
  destruct Hin as [-> | Hin]; [| now apply IH].
  now apply fold_indexWord_keeps, indexWord_adds.
Qed.

Lemma indexProduct_keeps index idx n w p :
  (exists ps, idx !! w = Some ps /\ In p ps) ->
  exists ps, indexProduct index idx n !! w = Some ps /\ In p ps.
Proof. apply fold_indexWord_keeps. Qed.

Lemma indexProduct_adds index idx n w :
  In w (split_ws (Normalized.searchText n)) -> 2 <= length w ->
  exists ps, indexProduct index idx n !! w = Some ps /\ In index ps.
Proof.
  intros Hin Hlen. apply fold_indexWord_adds; [| assumption].
  now apply (setFrom_In_iff jstring_eqb jstring_eqb_eq).
Qed.

Lemma buildIndex_from_keeps rest : forall index idx w p,
  (exists ps, idx !! w = Some ps /\ In p ps) ->
  exists ps, buildIndex_from index rest idx !! w = Some ps /\ In p ps.
Proof.
  induction rest as [|n rest IH]; intros index idx w p H; simpl; [assumption |].
  now apply IH, indexProduct_keeps.
Qed.

Lemma buildIndex_from_complete rest : forall index idx i n w,
  nth_error rest i = Some n ->
  In w (split_ws (Normalized.searchText n)) -> 2 <= length w ->
  exists ps, buildIndex_from index rest idx !! w = Some ps /\ In (index + i) ps.
Proof.
  induction rest as [|m rest IH]; intros index idx [|i] n w Hn Hw Hlen; simpl in *;
    try discriminate.
  - injection Hn as ->. rewrite Nat.add_0_r.
    now apply buildIndex_from_keeps, indexProduct_adds.
  - replace (index + S i) with (S index + i) by lia. eapply IH; eauto.
Qed.

Lemma init_index_complete raw st p n w :
  init raw = Some st ->
  nth_error (normalizedData st) p = Some n ->
  In w (split_ws (Normalized.searchText n)) -> 2 <= length w ->
  In p (indicesOf st w).
Proof.
  unfold init. destruct (processProducts raw constructed) as [st1|]; [| discriminate].
  intros [= <-] Hn Hw Hlen. unfold indicesOf, buildSearchStructures in *. fields.
  destruct (buildIndex_from_complete (normalizedData st1) 0 ∅ p n w Hn Hw Hlen)
    as (ps & -> & Hp).
  exact Hp.
Qed.

Lemma reachable_index_complete raw st p n w :
  reachable raw st ->
  nth_error (normalizedData st) p = Some n ->
  In w (split_ws (Normalized.searchText n)) -> 2 <= length w ->
  In p (indicesOf st w).
Proof.
  intros H. apply reachable_sameCatalog in H as (st0 & H0 & _ & _ & Hn & Hi).
  unfold indicesOf. rewrite Hn, Hi. now apply (init_index_complete raw).
Qed.

Lemma indicesOf_exact raw st word p :
  reachable raw st ->
  (In p (indicesOf st word) <->
     2 <= length word
     /\ exists n, nth_error (normalizedData st) p = Some n
                  /\ In word (split_ws (Normalized.searchText n))).
Proof.
  intros Hreach. split.
  - intros Hp. destruct (reachable_indexSound raw st Hreach) as [Hlen Hpos].
    unfold indicesOf in Hp. destruct (searchIndex st !! word) as [ps|] eqn:E; [| destruct Hp].
    split; [now apply (Hlen word ps) | now apply (Hpos word ps)].
  - intros (Hlen & n & Hn & Hw). now apply (reachable_index_complete raw st p n).
Qed.

Lemma indexWord_nonEmpty index idx word :
  indexNonEmpty idx -> indexNonEmpty (indexWord index idx word).
Proof.
  intros Hidx. unfold indexWord, jstring in *. destruct (2 <=? length word); [| assumption].
  assert (Hadd : forall ps, setAdd Nat.eqb ps index <> []).
  { intros ps E. pose proof (proj2 (setAdd_In_iff Nat.eqb Nat.eqb_eq ps index index)
                               (or_intror eq_refl)) as H.
    rewrite E in H. destruct H. }
  destruct (idx !! word) as [old|] eqn:Hold.
  - rewrite Hold. intros w ps. rewrite lookup_insert. case_decide; [| apply Hidx].
    intros [= <-]. apply Hadd.
  - rewrite lookup_insert_eq. intros w ps. rewrite !lookup_insert.
    repeat case_decide; first [apply Hidx | intros [= <-]; apply Hadd | congruence].
Qed.

Lemma buildIndex_from_nonEmpty rest : forall index idx,
  indexNonEmpty idx -> indexNonEmpty (buildIndex_from index rest idx).
Proof.
  induction rest as [|n rest IH]; intros index idx H; simpl; [assumption |].
  apply IH. unfold indexProduct.
  generalize (setFrom jstring_eqb (split_ws (Normalized.searchText n))).
  intros words. revert idx H. induction words as [|w words IHw]; intros idx H; simpl;
    [assumption |].
  now apply IHw, indexWord_nonEmpty.
Qed.

Lemma reachable_indexNonEmpty raw st : reachable raw st -> indexNonEmpty (searchIndex st).
Proof.
  intros H. apply reachable_sameCatalog in H as (st0 & H0 & _ & _ & _ & ->).
  unfold init in H0. destruct (processProducts raw constructed) as [st1|]; [| discriminate].
  injection H0 as <-. unfold buildSearchStructures. fields.
  apply buildIndex_from_nonEmpty. intros w ps. rewrite lookup_empty. discriminate.
Qed.

(** X1: the index of a running instance maps a word to a position exactly
    when the word has at least two characters and is one of the
    white-space-separated words of the search text at that position; and no
    token of the index maps to an empty set. *)
Theorem index_lookup_exact (raw : list Raw.t) (st : State) (word : jstring) (p : nat) :
  reachable raw st ->
  (In p (indicesOf st word) <->
     2 <= length word
     /\ exists n, nth_error (normalizedData st) p = Some n
                  /\ In word (split_ws (Normalized.searchText n)))
  /\ (forall positions, searchIndex st !! word = Some positions -> positions <> []).
Proof.
  intros Hreach. split; [now apply (indicesOf_exact raw) |].
  intros positions. apply (reachable_indexNonEmpty raw st Hreach).
Qed.

(** The word [acme] is in both search texts of the scenario catalog. *)
Lemma index_lookup_exact_witness :
  In 1 (indicesOf (loaded catalogScenario) (str "acme"))
  <-> 2 <= length (str "acme")
      /\ exists n, nth_error (normalizedData (loaded catalogScenario)) 1 = Some n
                   /\ In (str "acme") (split_ws (Normalized.searchText n)).
Proof.
  assert (E : init catalogScenario = Some (loaded catalogScenario))
    by (vm_compute; reflexivity).
  exact (proj1 (index_lookup_exact catalogScenario (loaded catalogScenario) (str "acme") 1
                  (reach_init _ _ E))).
Defined.

(** ** The candidates of a query *)

Lemma intersect_fold_In_iff st i : forall others acc,
  In i (fold_left
          (fun productIndices word =>
             setFrom Nat.eqb
               (List.filter (fun idx => setHas Nat.eqb (indicesOf st word) idx) productIndices))
          others acc)
  <-> In i acc /\ forall w, In w others -> In i (indicesOf st w).
Proof.
  induction others as [|w others IH]; intros acc; simpl; [intuition |].
  rewrite IH, (setFrom_In_iff Nat.eqb Nat.eqb_eq), filter_In, setHas_nat.
  split.
  - intros [[Hacc Hw] Hrest]. split; [assumption |]. intros w' [<- | Hw']; auto.
  - intros [Hacc Hall]. repeat split; auto.
Qed.

Lemma intersect_fold_NoDup st : forall others acc,
  List.NoDup acc ->
  List.NoDup (fold_left
           (fun productIndices word =>
              setFrom Nat.eqb
                (List.filter (fun idx => setHas Nat.eqb (indicesOf st word) idx)
                   productIndices))
           others acc).
Proof.
  induction others as [|w others IH]; intros acc H; simpl; [assumption |].
  apply IH, (setFrom_NoDup Nat.eqb Nat.eqb_eq).
Qed.

Lemma searchWords_empty : searchWords [] = [].
Proof. reflexivity. Qed.

Lemma findRelevantProducts_indices st :
  exists positions,
    findRelevantProducts st = map (candidateAt st) positions
    /\ List.NoDup positions
    /\ forall p, In p positions <->
         searchWords (searchTerm st) <> []
         /\ forall w, In w (searchWords (searchTerm st)) -> In p (indicesOf st w).
Proof.
  unfold findRelevantProducts.
  destruct (length (searchTerm st) =? 0) eqn:Et.
  { apply Nat.eqb_eq, length_zero_iff_nil in Et. rewrite Et, searchWords_empty.
    exists []. split; [reflexivity |]. split; [constructor |]. intros p. simpl. intuition. }
  destruct (searchWords (searchTerm st)) as [|first others] eqn:Ew.
  { exists []. split; [reflexivity |]. split; [constructor |]. intros p. simpl. intuition. }
  cbn [length Nat.eqb intersectWords].
  set (positions := fold_left _ others _).
  assert (Hin : forall p, In p positions <->
                  first :: others <> []
                  /\ forall w, In w (first :: others) -> In p (indicesOf st w)).
  { intros p. unfold positions. rewrite intersect_fold_In_iff,
      (setFrom_In_iff Nat.eqb Nat.eqb_eq).
    split.
    - intros [Hf Ho]. split; [discriminate |]. intros w [<- | Hw]; auto.
    - intros [_ Hall]. split; [apply Hall; now left |]. intros w Hw. apply Hall. now right. }
  assert (Hnd : List.NoDup positions)
    by apply intersect_fold_NoDup, (setFrom_NoDup Nat.eqb Nat.eqb_eq).
  destruct (length positions =? 0) eqn:El.
  - apply Nat.eqb_eq, length_zero_iff_nil in El. exists []. split; [reflexivity |].
    split; [constructor |]. intros p. rewrite <- Hin, El. reflexivity.
  - exists positions. split; [reflexivity |]. split; [exact Hnd | exact Hin].
Qed.

(** X2: the candidates [findRelevantProducts] returns in a running
    instance are the catalog entries at exactly the positions whose search
    text has every query word as a whole word (none when the query has no
    word), each position once. *)
Theorem candidates_are_the_matching_positions (raw : list Raw.t) (st : State) :
  reachable raw st ->
  List.NoDup (map Candidate.index (findRelevantProducts st))
  /\ (forall item, In item (findRelevantProducts st) ->
        nth_error (products st) (Candidate.index item) = Some (Candidate.product item)
        /\ nth_error (normalizedData st) (Candidate.index item)
           = Some (Candidate.normalized item))
  /\ (forall p, In p (map Candidate.index (findRelevantProducts st)) <->
        searchWords (searchTerm st) <> []
        /\ forall w, In w (searchWords (searchTerm st)) ->
             exists n, nth_error (normalizedData st) p = Some n
                       /\ In w (split_ws (Normalized.searchText n))).
Proof.
  intros Hreach.
  destruct (findRelevantProducts_indices st) as (positions & -> & Hnd & Hin).
  rewrite map_map. cbn [candidateAt Candidate.index]. rewrite map_id.
  split; [exact Hnd |]. split.
  - intros item Hitem. apply in_map_iff in Hitem as (p & <- & Hp).
    apply Hin in Hp as [Hne Hall]. cbn.
    destruct (searchWords (searchTerm st)) as [|w0 ws]; [congruence |].
    pose proof (Hall w0 (or_introl eq_refl)) as H0.
    apply (indicesOf_exact raw st w0 p Hreach) in H0 as (_ & n & Hn & _).
    destruct (reachable_catalogOk raw st Hreach) as (_ & Hpairs & _).
    destruct (Forall2_nth_error_r _ _ _ _ _ Hpairs Hn) as (x & Hx & _).
    rewrite (nth_error_nth _ _ _ Hx), (nth_error_nth _ _ _ Hn). now split.
  - intros p. rewrite Hin. split; intros [Hne Hall]; (split; [assumption |]); intros w Hw.
    + now apply (indicesOf_exact raw st w p Hreach), Hall.
    + apply (indicesOf_exact raw st w p Hreach). split; [| now apply Hall].
      apply searchWords_In in Hw. tauto.
Qed.

(** The candidates of the query [acme] on the scenario catalog. *)
Lemma candidates_are_the_matching_positions_witness :
  List.NoDup (map Candidate.index (findRelevantProducts stateAfterAcme))
  /\ (forall p, In p (map Candidate.index (findRelevantProducts stateAfterAcme)) <->
        searchWords (searchTerm stateAfterAcme) <> []
        /\ forall w, In w (searchWords (searchTerm stateAfterAcme)) ->
             exists n, nth_error (normalizedData stateAfterAcme) p = Some n
                       /\ In w (split_ws (Normalized.searchText n))).
Proof.
  assert (E : init catalogScenario = Some (loaded catalogScenario))
    by (vm_compute; reflexivity).
  destruct (candidates_are_the_matching_positions catalogScenario stateAfterAcme
              (reach_search _ _ (str "acme") [] (reach_init _ _ E))) as (H1 & _ & H3).
  split; assumption.
Defined.

(** ** Results of a cache miss *)

Lemma search_miss st q r :
  mapHas (searchCache st) (cacheKeyOf q r) = false ->
  let s := set_currentRubro r (set_searchTerm q st) in
  heap (search q r st) = heap st ++ [freshResults s; freshResults s]
  /\ results (search q r st) = length (heap st)
  /\ resultList (search q r st) = freshResults s
  /\ searchCache (search q r st)
     = mapSet (evicted (CACHE_SIZE (CONFIG st)) (searchCache st)) (cacheKeyOf q r)
              (S (length (heap st))).
Proof.
  intros Hmiss s. unfold search. fold s.
  destruct (performSearch_miss s Hmiss) as (H1 & H2 & H3).
  repeat split; try assumption.
  rewrite performSearch_searchCache.
  change (mapHas (searchCache s) (getCacheKey s))
    with (mapHas (searchCache st) (cacheKeyOf q r)).
  now rewrite Hmiss.
Qed.

Lemma inOrder_byScoreDesc a b :
  inOrder byScoreDesc a b <-> (ScoredResult.score b <= ScoredResult.score a)%Q.
Proof.
  unfold inOrder, byScoreDesc, positive. rewrite negb_false_iff, Qle_bool_iff. split; lra.
Qed.

Lemma Sorted_impl {A} (R R' : A -> A -> Prop) (l : list A) :
  (forall x y, R x y -> R' x y) -> Sorted R l -> Sorted R' l.
Proof.
  intros HR. induction 1 as [|x l _ IH Hhd]; constructor; [assumption |].
  destruct Hhd; constructor. auto.
Qed.

Lemma byScore_StronglySorted l :
  Sorted (inOrder byScoreDesc) l ->
  StronglySorted (fun a b => (ScoredResult.score b <= ScoredResult.score a)%Q) l.
Proof.
  intros H. apply Sorted_StronglySorted.
  - intros x y z Hxy Hyz. lra.
  - eapply Sorted_impl; [| exact H]. intros x y. apply inOrder_byScoreDesc.
Qed.

(** X3: on a cache miss in a running instance the list [search] leaves is
    in non-increasing score order (every result scores at least as much as
    every later one), every score is at least 0.15, and there are at most
    25 results. *)
Theorem miss_results_ranked (raw : list Raw.t) (st : State) (q r : jstring) :
  reachable raw st ->
  mapHas (searchCache st) (cacheKeyOf q r) = false ->
  StronglySorted (fun a b => (ScoredResult.score b <= ScoredResult.score a)%Q)
    (resultList (search q r st))
  /\ Forall (fun result => (15 # 100 <= ScoredResult.score result)%Q)
       (resultList (search q r st))
  /\ length (resultList (search q r st)) <= 25.
Proof.
  intros Hreach Hmiss. destruct (search_miss st q r Hmiss) as (_ & _ & -> & _).
  unfold freshResults. cbn [CONFIG set_currentRubro set_searchTerm].
  rewrite (reachable_CONFIG raw st Hreach).
  match goal with |- context [rank defaultConfig ?l] =>
    destruct (rank_spec defaultConfig l) as (Hmin & Hsorted & Hlen & _) end.
  split; [now apply byScore_StronglySorted |]. split; assumption.
Qed.

(** The first search for [acme] on the scenario catalog. *)
Lemma miss_results_ranked_witness :
  let rs := resultList (search (str "acme") [] (loaded catalogScenario)) in
  StronglySorted (fun a b => (ScoredResult.score b <= ScoredResult.score a)%Q) rs
  /\ Forall (fun result => (15 # 100 <= ScoredResult.score result)%Q) rs
  /\ length rs <= 25.
Proof.
  assert (E : init catalogScenario = Some (loaded catalogScenario))
    by (vm_compute; reflexivity).
  assert (M : mapHas (searchCache (loaded catalogScenario)) (cacheKeyOf (str "acme") [])
              = false) by (vm_compute; reflexivity).
  exact (miss_results_ranked catalogScenario _ (str "acme") [] (reach_init _ _ E) M).
Defined.

(** X4: on a cache miss in a running instance with a category filter set,
    every result has exactly the filter's category. *)
Theorem miss_results_have_filter_category (raw : list Raw.t) (st : State) (q r : jstring) :
  reachable raw st ->
  mapHas (searchCache st) (cacheKeyOf q r) = false ->
  r <> [] ->
  forall result, In result (resultList (search q r st)) ->
    Product.rubro (ScoredResult.product result) = r.
Proof.
  intros Hreach Hmiss Hr result Hin.
  destruct (search_miss st q r Hmiss) as (_ & _ & Hlist & _). rewrite Hlist in Hin.
  apply (freshResults_category (set_currentRubro r (set_searchTerm q st)) result);
    [| assumption | assumption].
  eapply sameCatalog_catalogOk; [| now apply (reachable_catalogOk raw st)]. repeat split.
Qed.

(** The first search for [acme] under the filter [TORNILLOS]. *)
Lemma miss_results_have_filter_category_witness :
  mapHas (searchCache (loaded catalogScenario)) (cacheKeyOf (str "acme") (str "TORNILLOS"))
  = false
  /\ Forall (fun result => Product.rubro (ScoredResult.product result) = str "TORNILLOS")
       (resultList (search (str "acme") (str "TORNILLOS") (loaded catalogScenario))).
Proof.
  assert (E : init catalogScenario = Some (loaded catalogScenario))
    by (vm_compute; reflexivity).
  assert (M : mapHas (searchCache (loaded catalogScenario))
                (cacheKeyOf (str "acme") (str "TORNILLOS")) = false)
    by (vm_compute; reflexivity).
  assert (N : str "TORNILLOS" <> []) by discriminate.
  split; [exact M |]. apply List.Forall_forall.
  exact (miss_results_have_filter_category catalogScenario _ (str "acme") (str "TORNILLOS")
           (reach_init _ _ E) M N).
Defined.

Lemma rank_nil cfg : rank cfg [] = [].
Proof. unfold rank, slice. simpl. now rewrite firstn_nil. Qed.

(** X5: on a cache miss, a query without any word of two characters or
    more, or with a word that is no token of the index, leaves an empty
    result list. *)
Theorem miss_without_match_is_empty (st : State) (q r : jstring) :
  mapHas (searchCache st) (cacheKeyOf q r) = false ->
  searchWords q = [] \/ (exists w, In w (searchWords q) /\ searchIndex st !! w = None) ->
  resultList (search q r st) = [].
Proof.
  intros Hmiss Hwords. destruct (search_miss st q r Hmiss) as (_ & _ & -> & _).
  set (s := set_currentRubro r (set_searchTerm q st)). unfold freshResults.
  destruct (findRelevantProducts_indices s) as (positions & -> & _ & Hin).
  assert (Hnone : positions = []).
  { destruct positions as [|p ps]; [reflexivity |]. exfalso.
    destruct (proj1 (Hin p) (or_introl eq_refl)) as [Hne Hall].
    change (searchTerm s) with q in Hne, Hall.
    destruct Hwords as [Hw | (w & Hw & Hnone)]; [contradiction |].
    specialize (Hall w Hw). unfold indicesOf in Hall.
    change (searchIndex s) with (searchIndex st) in Hall. now rewrite Hnone in Hall. }
  rewrite Hnone. unfold calculateProductScores. simpl map. simpl length.
  rewrite orb_true_r. apply rank_nil.
Qed.

(** The query [xyz123notfound] on the scenario catalog. *)
Lemma miss_without_match_is_empty_witness :
  resultList (search (str "xyz123notfound") [] (loaded catalogScenario)) = [].
Proof.
  apply miss_without_match_is_empty; [vm_compute; reflexivity |].
  right. exists (str "xyz123notfound"). split; vm_compute; auto.
Defined.

(** ** Scores *)

Lemma multipleOfFive_add a b : multipleOfFive a -> multipleOfFive b -> multipleOfFive (a + b).
Proof. intros [k ->] [m ->]. exists (k + m). lia. Qed.

Lemma multipleOfFive_if (c : bool) a b :
  multipleOfFive a -> multipleOfFive b -> multipleOfFive (if c then a else b).
Proof. now destruct c. Qed.

Lemma wordScore_multipleOfFive normalized word :
  multipleOfFive (wordScore (SCORE_WEIGHTS defaultConfig) normalized word).
Proof.
  unfold wordScore. cbn [SCORE_WEIGHTS defaultConfig CODIGO_EXACTO CODIGO_STARTS_WITH
    CODIGO_CONTAINS DESCRIPCION_PALABRA DESCRIPCION_CONTAINS MARCA_EXACTA MARCA_CONTAINS
    RUBRO_EXACTO MULTIPLE_MATCHES].
  repeat apply multipleOfFive_add; repeat apply multipleOfFive_if;
    try (now exists 0); try (now exists 2); try (now exists 3); try (now exists 4);
    try (now exists 5); try (now exists 6); try (now exists 7); try (now exists 10);
    try (now exists 20).
  eexists. rewrite Z.mul_comm. reflexivity.
Qed.

Lemma textScore_multipleOfFive normalized words :
  multipleOfFive (textScore (SCORE_WEIGHTS defaultConfig) normalized words).
Proof.
  unfold textScore. assert (H0 : multipleOfFive 0) by now exists 0.
  revert H0. generalize 0%Z. induction words as [|w words IH]; intros z Hz; simpl;
    [assumption |].
  apply IH, multipleOfFive_add; [assumption | apply wordScore_multipleOfFive].
Qed.

(** X6: with the weights of the configuration, every score that
    [calculateProductScores] returns is a non-negative whole number of
    twentieths: [5 k / 100] for a natural number [k]; the score of a
    candidate the category filter vetoes is [0 / 100]. *)
Theorem scores_are_multiples_of_five_hundredths (st : State) (items : list Candidate.t) :
  SCORE_WEIGHTS (CONFIG st) = SCORE_WEIGHTS defaultConfig ->
  forall result, In result (calculateProductScores st items) ->
    (exists k : nat, ScoredResult.score result = (inject_Z (5 * Z.of_nat k) / 100)%Q)
    /\ (0 <= ScoredResult.score result)%Q
    /\ (forall item, In item items -> vetoed st item = true ->
          ScoredResult.score (scoreItem st (searchWords (searchTerm st)) item)
          = (inject_Z 0 / 100)%Q).
Proof.
  intros Hw result Hin.
  assert (Hk : exists k : nat,
             ScoredResult.score result = (inject_Z (5 * Z.of_nat k) / 100)%Q).
  { unfold calculateProductScores in Hin. destruct (_ || _) in Hin; [destruct Hin |].
    apply in_map_iff in Hin as (item & <- & _). unfold scoreItem.
    cbn [ScoredResult.score]. rewrite Hw.
    destruct (vetoed st item); [now exists 0 |].
    destruct (textScore_multipleOfFive (Candidate.normalized item)
                (searchWords (searchTerm st))) as [k ->].
    now exists k. }
  split; [exact Hk |]. split.
  - destruct Hk as [k ->]. unfold Qdiv, Qle. simpl. lia.
  - intros item _ Hv. unfold scoreItem. now rewrite Hv.
Qed.

(** The scores of the query [100] on the scenario catalog. *)
Lemma scores_are_multiples_of_five_hundredths_witness :
  SCORE_WEIGHTS (CONFIG (search (str "100") [] (loaded catalogScenario)))
  = SCORE_WEIGHTS defaultConfig
  /\ forall result,
       In result (calculateProductScores (search (str "100") [] (loaded catalogScenario))
                    (findRelevantProducts (search (str "100") [] (loaded catalogScenario)))) ->
       (0 <= ScoredResult.score result)%Q.
Proof.
  assert (H : SCORE_WEIGHTS (CONFIG (search (str "100") [] (loaded catalogScenario)))
              = SCORE_WEIGHTS defaultConfig) by (vm_compute; reflexivity).
  split; [exact H |]. intros result Hin.
  exact (proj1 (proj2 (scores_are_multiples_of_five_hundredths _ _ H result Hin))).
Defined.

(** ** Every array of the store *)

Lemma init_heap raw st : init raw = Some st -> heap st = [[]].
Proof.
  unfold init, processProducts.
  assert (G : forall l i s s', processProducts_from i l s = Some s' -> heap s' = heap s).
  { induction l as [|x l IH]; intros i s s'; simpl; [now intros [= ->] |].
    destruct (normalizeProduct i x) as [| |p n]; [apply IH | discriminate |].
    intros H. apply IH in H. rewrite H.
    destruct (negb (length (Normalized.rubro n) =? 0)); reflexivity. }
  destruct (processProducts_from _ _ _) as [s|] eqn:E; [| discriminate].
  intros [= <-]. apply G in E. exact E.
Qed.

Lemma arrayOk_nil st : arrayOk st [].
Proof. split; [simpl; lia | intros result []]. Qed.

Lemma arrayOk_same st st' l : sameCatalog st st' -> arrayOk st l -> arrayOk st' l.
Proof.
  intros (Hc & Hp & Hn & _). unfold arrayOk, catalogEntry. now rewrite Hc, Hp, Hn.
Qed.

Lemma arrayOk_sort st compare l : arrayOk st l -> arrayOk st (sort compare l).
Proof.
  intros [Hlen Hall]. split; [now rewrite sort_length |].
  intros result Hin. apply sort_In in Hin. auto.
Qed.

Lemma arrayOk_fresh st : catalogOk st -> arrayOk st (freshResults st).
Proof.
  intros Hok. split.
  - unfold freshResults. apply rank_spec.
  - intros result Hin.
    destruct (freshResults_In st result Hok Hin)
      as (i & p & n & Hp & Hn & _ & Hprod & Hnorm & Hidx & _ & _ & Hscore).
    split; [assumption |]. unfold catalogEntry. now rewrite Hidx, Hprod, Hnorm.
Qed.

Lemma heapInv_arrays st : heapInv st <-> forall a, arrayOk st (deref (heap st) a).
Proof. reflexivity. Qed.

Lemma deref_app_cases h h' a :
  deref (h ++ h') a = deref h a \/ In (deref (h ++ h') a) h' \/ deref (h ++ h') a = [].
Proof.
  unfold deref. destruct (Nat.lt_ge_cases a (length h)) as [L | G].
  - left. now apply app_nth1.
  - right. rewrite app_nth2 by assumption.
    destruct (Nat.lt_ge_cases (a - length h) (length h')) as [L' | G'].
    + left. now apply nth_In.
    + right. now apply nth_overflow.
Qed.

Lemma heapInv_append st st' news :
  sameCatalog st st' -> heap st' = heap st ++ news ->
  (forall l, In l news -> arrayOk st l) ->
  heapInv st -> heapInv st'.
Proof.
  intros Hsame Hheap Hnews Hinv. apply heapInv_arrays. intros a. rewrite Hheap.
  apply (arrayOk_same st); [assumption |].
  destruct (deref_app_cases (heap st) news a) as [-> | [H | ->]];
    [apply Hinv | now apply Hnews | apply arrayOk_nil].
Qed.

Lemma heapInv_frame st st' :
  sameCatalog st st' -> heap st' = heap st -> heapInv st -> heapInv st'.
Proof.
  intros Hsame Hheap Hinv. apply (heapInv_append st st' []); try assumption.
  - now rewrite app_nil_r.
  - intros l [].
Qed.

Lemma heapInv_performSearch st : catalogOk st -> heapInv st -> heapInv (performSearch st).
Proof.
  intros Hok Hinv. destruct (mapHas (searchCache st) (getCacheKey st)) eqn:Hhas.
  - destruct (mapGet_has _ _ Hhas) as [a Ha].
    destruct (performSearch_hit st a Ha) as (Hheap & _ & _).
    now apply (heapInv_frame st); [apply performSearch_sameCatalog | |].
  - destruct (performSearch_miss st Hhas) as (Hheap & _ & _).
    apply (heapInv_append st _ [freshResults st; freshResults st]); try assumption.
    + apply performSearch_sameCatalog.
    + intros l [<- | [<- | []]]; now apply arrayOk_fresh.
Qed.

Lemma heapInv_sortResults t st : heapInv st -> heapInv (sortResults t st).
Proof.
  intros Hinv. unfold sortResults. destruct (length (resultList st) =? 0) eqn:E;
    [assumption |].
  apply heapInv_arrays. intros a. fields.
  apply (arrayOk_same st); [repeat split |].
  destruct (Nat.eq_dec (results st) a) as [Ea | Hne].
  - subst a. rewrite deref_store_same.
    + apply arrayOk_sort, Hinv.
    + apply deref_nonempty. fold (resultList st). intros N. rewrite N in E. discriminate.
  - rewrite deref_store_other by assumption. apply Hinv.
Qed.

Lemma heapInv_search q r st : catalogOk st -> heapInv st -> heapInv (search q r st).
Proof.
  intros Hok Hinv. unfold search. apply heapInv_performSearch.
  - eapply sameCatalog_catalogOk; [| exact Hok]. repeat split.
  - now apply (heapInv_frame st); [repeat split | |].
Qed.

Lemma heapInv_handle st e : catalogOk st -> heapInv st -> heapInv (handle st e).
Proof.
  intros Hok Hinv. destruct e as [text|value|value|nearBottom|]; simpl.
  - unfold handleSearchInput. destruct (length text =? 0).
    + now apply (heapInv_frame st); [repeat split | |].
    + apply heapInv_performSearch.
      * eapply sameCatalog_catalogOk; [| exact Hok]. repeat split.
      * now apply (heapInv_frame st); [repeat split | |].
  - unfold handleRubroChange. apply heapInv_performSearch.
    + eapply sameCatalog_catalogOk; [| exact Hok]. repeat split.
    + now apply (heapInv_frame st); [repeat split | |].
  - unfold handleSortChange.
    apply (heapInv_frame (sortResults value st));
      [apply renderResults_sameCatalog | apply renderResults_heap |].
    now apply heapInv_sortResults.
  - apply (heapInv_frame st); [apply (handle_sameCatalog st (Scroll nearBottom)) | |
                               assumption].
    unfold handleScroll. destruct (negb (hasMore st) || isLoading st); [reflexivity |].
    destruct nearBottom; [| reflexivity]. fields.
    now destruct (renderProductBatch_heap (set_isLoading true st)) as [-> _].
  - unfold clearSearch.
    apply (heapInv_append st _ [[]]); [repeat split | reflexivity | | assumption].
    intros l [<- | []]. apply arrayOk_nil.
Qed.

Lemma reachable_heapInv raw st : reachable raw st -> heapInv st.
Proof.
  induction 1 as [st H | st q r Hr IH | st e Hr IH].
  - apply heapInv_arrays. intros a. rewrite (init_heap raw st H).
    destruct a as [|[|a]]; apply arrayOk_nil.
  - apply heapInv_search; [now apply (reachable_catalogOk raw) | assumption].
  - apply heapInv_handle; [now apply (reachable_catalogOk raw) | assumption].
Qed.

Lemma catalogPair_price p n : catalogPair p n -> Product.precio_venta p <> NaN.
Proof.
  intros (index & raw & H). pose proof (normalizeProduct_cases index raw) as C.
  rewrite H in C. destruct C as (_ & _ & -> & _). apply coercedPrice_not_NaN.
Qed.

(** X7: in every state of a running instance, after any searches, cache
    hits, sorts and scrolls, the result list has at most 25 results and
    each of them has a score of at least 0.15. *)
Theorem results_always_thresholded_and_capped (raw : list Raw.t) (st : State) :
  reachable raw st ->
  length (resultList st) <= 25
  /\ Forall (fun result => (15 # 100 <= ScoredResult.score result)%Q) (resultList st).
Proof.
  intros Hreach. destruct (reachable_heapInv raw st Hreach (results st)) as [Hlen Hall].
  rewrite (reachable_CONFIG raw st Hreach) in Hlen, Hall. split; [exact Hlen |].
  apply List.Forall_forall. intros result Hin. now apply Hall.
Qed.

Lemma loaded_catalogCodeAndMention :
  init catalogCodeAndMention = Some (loaded catalogCodeAndMention).
Proof. vm_compute. reflexivity. Qed.

Lemma loaded_catalogScenario : init catalogScenario = Some (loaded catalogScenario).
Proof. vm_compute. reflexivity. Qed.

Lemma reachable_stateAfterPriceSort : reachable catalogCodeAndMention stateAfterPriceSort.
Proof.
  unfold stateAfterPriceSort. apply reach_search, reach_event, reach_search, reach_search,
    reach_init, loaded_catalogCodeAndMention.
Qed.

Lemma reachable_stateAfterAcme : reachable catalogScenario stateAfterAcme.
Proof. unfold stateAfterAcme. apply reach_search, reach_init, loaded_catalogScenario. Qed.

(** After the searches and the price sort of the counterexample to the
    score order, threshold and cap still hold. *)
Lemma results_always_thresholded_and_capped_witness :
  length (resultList stateAfterPriceSort) <= 25
  /\ Forall (fun result => (15 # 100 <= ScoredResult.score result)%Q)
       (resultList stateAfterPriceSort).
Proof.
  exact (results_always_thresholded_and_capped catalogCodeAndMention stateAfterPriceSort
           reachable_stateAfterPriceSort).
Defined.

(** X8: in every state of a running instance, every result of the result
    list is an entry of the catalog: its product and its normalised record
    are the ones stored at its position, which is in range, they come from
    one raw record, and its price is not NaN. *)
Theorem results_are_catalog_entries (raw : list Raw.t) (st : State) :
  reachable raw st ->
  forall result, In result (resultList st) ->
    ScoredResult.index result < length (products st)
    /\ nth_error (products st) (ScoredResult.index result)
       = Some (ScoredResult.product result)
    /\ nth_error (normalizedData st) (ScoredResult.index result)
       = Some (ScoredResult.normalized result)
    /\ catalogPair (ScoredResult.product result) (ScoredResult.normalized result)
    /\ Product.precio_venta (ScoredResult.product result) <> NaN.
Proof.
  intros Hreach result Hin.
  destruct (reachable_heapInv raw st Hreach (results st)) as [_ Hall].
  destruct (Hall result Hin) as [_ [Hp Hn]].
  destruct (reachable_catalogOk raw st Hreach) as (_ & Hpairs & _).
  destruct (Forall2_nth_error_r _ _ _ _ _ Hpairs Hn) as (p & Hp' & Hpair).
  assert (p = ScoredResult.product result) as -> by congruence.
  split; [apply nth_error_Some; congruence |].
  repeat split; try assumption. now apply (catalogPair_price _ _ Hpair).
Qed.

(** The results of the query [acme] on the scenario catalog. *)
Lemma results_are_catalog_entries_witness :
  Forall (fun result =>
            ScoredResult.index result < length (products stateAfterAcme)
            /\ Product.precio_venta (ScoredResult.product result) <> NaN)
    (resultList stateAfterAcme).
Proof.
  apply List.Forall_forall. intros result Hin.
  destruct (results_are_catalog_entries catalogScenario stateAfterAcme
              reachable_stateAfterAcme result Hin) as (H1 & _ & _ & _ & H5).
  split; assumption.
Defined.

(** ** Sorting the result list *)

Lemma comparatorOf_asymmetric t x y :
  positive (comparatorOf t x y) = true -> positive (comparatorOf t y x) = false.
Proof.
  unfold comparatorOf. destruct (jstring_eqb t (str "price_asc"));
    [apply byPriceAsc_asymmetric |].
  destruct (jstring_eqb t (str "price_desc"));
    [apply byPriceDesc_asymmetric | apply byScoreDesc_asymmetric].
Qed.

Lemma sortResults_spec t st :
  searchCache (sortResults t st) = searchCache st
  /\ results (sortResults t st) = results st
  /\ resultList (sortResults t st) = sort (comparatorOf t) (resultList st)
  /\ (forall a, a <> results st -> deref (heap (sortResults t st)) a = deref (heap st) a).
Proof.
  unfold sortResults. fold (comparatorOf t).
  destruct (length (resultList st) =? 0) eqn:E.
  - apply Nat.eqb_eq, length_zero_iff_nil in E. rewrite E. now repeat split.
  - repeat split.
    + unfold resultList at 1. fields. apply deref_store_same, deref_nonempty.
      fold (resultList st). intros N. rewrite N in E. discriminate.
    + intros a Ha. fields. apply deref_store_other. congruence.
Qed.

(** *** The order of the prices *)

Lemma numLe_trans a b c : numLe a b = true -> numLe b c = true -> numLe a c = true.
Proof.
  destruct a as [|[]|x], b as [|[]|y], c as [|[]|z]; simpl; try discriminate;
    try reflexivity.
  rewrite !Qle_bool_iff. apply Qle_trans.
Qed.

Lemma inOrder_sub a b :
  a <> NaN -> b <> NaN -> (positive (sub a b) = false <-> numLe a b = true).
Proof.
  intros Ha Hb. destruct a as [|[]|x], b as [|[]|y]; simpl; try contradiction;
    try (split; congruence).
  rewrite negb_false_iff, !Qle_bool_iff. split; lra.
Qed.

Lemma Sorted_impl_In {A} (R R' : A -> A -> Prop) (l : list A) :
  (forall x y, In x l -> In y l -> R x y -> R' x y) -> Sorted R l -> Sorted R' l.
Proof.
  intros HR Hs. induction Hs as [|x l _ IH Hhd]; constructor.
  - apply IH. intros a b Ha Hb. apply HR; now right.
  - destruct Hhd as [|y l' Hxy]; constructor. apply HR; [now left | right; now left | exact Hxy].
Qed.

Lemma sort_byPriceAsc l :
  Forall (fun result => priceOf result <> NaN) l ->
  StronglySorted (fun a b => numLe (priceOf a) (priceOf b) = true) (sort byPriceAsc l).
Proof.
  intros Hl. apply Sorted_StronglySorted.
  - intros x y z. apply numLe_trans.
  - apply (Sorted_impl_In (inOrder byPriceAsc));
      [| apply sort_sorted, byPriceAsc_asymmetric].
    rewrite List.Forall_forall in Hl. intros x y Hx Hy. apply sort_In in Hx, Hy.
    apply inOrder_sub; now apply Hl.
Qed.

Lemma sort_byPriceDesc l :
  Forall (fun result => priceOf result <> NaN) l ->
  StronglySorted (fun a b => numLe (priceOf b) (priceOf a) = true) (sort byPriceDesc l).
Proof.
  intros Hl. apply Sorted_StronglySorted.
  - intros x y z Hxy Hyz. now apply (numLe_trans _ (priceOf y)).
  - apply (Sorted_impl_In (inOrder byPriceDesc));
      [| apply sort_sorted, byPriceDesc_asymmetric].
    rewrite List.Forall_forall in Hl. intros x y Hx Hy. apply sort_In in Hx, Hy.
    apply inOrder_sub; now apply Hl.
Qed.

(** X9: [sortResults] reorders the current result array in place and
    leaves every other array alone.  When no price is NaN (as in every state
    of a running instance), [price_asc] leaves the prices in non-decreasing
    order and [price_desc] in non-increasing order: every result's price is
    at most, respectively at least, the price of every later result.  Any
    other sort type, [relevance] among them, leaves the scores in
    non-increasing order. *)
Theorem sortResults_orders_in_place (st : State) (sortType : jstring) :
  Forall (fun result => priceOf result <> NaN) (resultList st) ->
  Permutation (resultList st) (resultList (sortResults sortType st))
  /\ results (sortResults sortType st) = results st
  /\ (forall a, a <> results st ->
        deref (heap (sortResults sortType st)) a = deref (heap st) a)
  /\ (sortType = str "price_asc" ->
        StronglySorted (fun a b => numLe (priceOf a) (priceOf b) = true)
          (resultList (sortResults sortType st)))
  /\ (sortType = str "price_desc" ->
        StronglySorted (fun a b => numLe (priceOf b) (priceOf a) = true)
          (resultList (sortResults sortType st)))
  /\ (sortType <> str "price_asc" -> sortType <> str "price_desc" ->
        StronglySorted (fun a b => (ScoredResult.score b <= ScoredResult.score a)%Q)
          (resultList (sortResults sortType st))).
Proof.
  intros Hprices.
  destruct (sortResults_spec sortType st) as (_ & Hres & Hlist & Hother).
  rewrite Hlist. split; [apply sort_perm |].
  split; [exact Hres |]. split; [exact Hother |]. split; [| split].
  - intros ->. now apply sort_byPriceAsc.
  - intros ->. now apply sort_byPriceDesc.
  - intros H1 H2. unfold comparatorOf. apply jstring_eqb_neq in H1, H2.
    rewrite H1, H2. apply byScore_StronglySorted, sort_sorted, byScoreDesc_asymmetric.
Qed.

(** After the search for [acme] the results are the products at 1000 and
    at 50, in score order; [price_asc] puts 50 first and [price_desc] puts
    1000 first. *)
Lemma sortResults_orders_in_place_witness :
  Forall (fun result => priceOf result <> NaN) (resultList stateAfterAcme)
  /\ map priceOf (resultList stateAfterAcme) = [Fin 1000; Fin 50]
  /\ map priceOf (resultList (sortResults (str "price_asc") stateAfterAcme))
     = [Fin 50; Fin 1000]
  /\ map priceOf (resultList (sortResults (str "price_desc")
                                (sortResults (str "price_asc") stateAfterAcme)))
     = [Fin 1000; Fin 50]
  /\ StronglySorted (fun a b => numLe (priceOf a) (priceOf b) = true)
       (resultList (sortResults (str "price_asc") stateAfterAcme)).
Proof.
  assert (H : Forall (fun result => priceOf result <> NaN) (resultList stateAfterAcme))
    by (vm_compute; repeat constructor; discriminate).
  split; [exact H |]. split; [vm_compute; reflexivity |].
  split; [vm_compute; reflexivity |]. split; [vm_compute; reflexivity |].
  exact (proj1 (proj2 (proj2 (proj2 (sortResults_orders_in_place stateAfterAcme
                                        (str "price_asc") H)))) eq_refl).
Defined.

Lemma handleSortChange_spec t st :
  searchCache (handleSortChange t st) = searchCache st
  /\ results (handleSortChange t st) = results st
  /\ resultList (handleSortChange t st) = sort (comparatorOf t) (resultList st)
  /\ (forall a, a <> results st -> deref (heap (handleSortChange t st)) a = deref (heap st) a).
Proof.
  unfold handleSortChange.
  destruct (sortResults_spec t st) as (Hc & Hr & Hl & Ho).
  rewrite renderResults_searchCache, renderResults_resultList.
  destruct (renderResults_heap (sortResults t st)) as [-> ->].
  now repeat split.
Qed.

(** X10: a sort that follows a cache miss does not reach the cache: the
    miss stored a copy, so after any sort of the displayed list a search for
    the same query and category is a hit that returns the list in the
    ranked order of the miss. *)
Theorem sort_after_miss_keeps_cached_order (st : State) (q r sortType : jstring) :
  mapHas (searchCache st) (cacheKeyOf q r) = false ->
  resultList (handleSortChange sortType (search q r st))
  = sort (comparatorOf sortType) (resultList (search q r st))
  /\ resultList (search q r (handleSortChange sortType (search q r st)))
     = resultList (search q r st).
Proof.
  intros Hmiss. destruct (search_miss st q r Hmiss) as (Hheap & Hres & Hlist & Hcache).
  cbv zeta in *. remember (search q r st) as s1 eqn:E1. clear E1.
  destruct (handleSortChange_spec sortType s1) as (Hc2 & _ & Hl2 & Ho2).
  remember (handleSortChange sortType s1) as s2 eqn:E2. clear E2.
  split; [exact Hl2 |].
  assert (Hget : mapGet (searchCache s2) (cacheKeyOf q r) = Some (S (length (heap st)))).
  { rewrite Hc2, Hcache. apply mapGet_mapSet. }
  destruct (search_hit s2 q r _ Hget) as (_ & _ & -> & _).
  rewrite Ho2 by (rewrite Hres; lia). rewrite Hheap, Hlist.
  set (fresh := freshResults _).
  change (heap st ++ [fresh; fresh]) with (heap st ++ [fresh] ++ [fresh]).
  rewrite app_assoc.
  replace (S (length (heap st))) with (length (heap st ++ [fresh]))
    by (rewrite length_app; simpl; lia).
  apply deref_app_new.
Qed.

(** The first search for [100], a price sort, and the search again. *)
Lemma sort_after_miss_keeps_cached_order_witness :
  codesAndScores
    (resultList (search (str "100") []
                   (handleSortChange (str "price_asc")
                      (search (str "100") [] (loaded catalogCodeAndMention)))))
  = [(str "100", (105 # 100)%Q); (str "200", (40 # 100)%Q)].
Proof.
  assert (M : mapHas (searchCache (loaded catalogCodeAndMention)) (cacheKeyOf (str "100") [])
              = false) by (vm_compute; reflexivity).
  rewrite (proj2 (sort_after_miss_keeps_cached_order (loaded catalogCodeAndMention)
                    (str "100") [] (str "price_asc") M)).
  vm_compute. reflexivity.
Defined.

(** ** The catalog is read-only *)

Lemma renderResults_rubros st : rubros (renderResults st) = rubros st.
Proof.
  unfold renderResults, renderProductBatch.
  repeat match goal with |- context [if ?b then _ else _] => destruct b end; reflexivity.
Qed.

Lemma performSearch_rubros st : rubros (performSearch st) = rubros st.
Proof.
  unfold performSearch. destruct (mapHas _ _); [destruct (mapGet _ _); [| reflexivity] |];
    now rewrite renderResults_rubros.
Qed.

Lemma handle_rubros st e : rubros (handle st e) = rubros st.
Proof.
  destruct e as [text|value|value|nearBottom|]; simpl.
  - unfold handleSearchInput. destruct (length text =? 0); [reflexivity |].
    now rewrite performSearch_rubros.
  - unfold handleRubroChange. now rewrite performSearch_rubros.
  - unfold handleSortChange, sortResults. rewrite renderResults_rubros.
    now destruct (length (resultList st) =? 0).
  - unfold handleScroll, renderProductBatch.
    repeat match goal with |- context [if ?b then _ else _] => destruct b end; reflexivity.
  - reflexivity.
Qed.

Lemma reachable_rubros raw st :
  reachable raw st -> exists st0, init raw = Some st0 /\ rubros st = rubros st0.
Proof.
  induction 1 as [st H | st q r _ (st0 & H0 & IH) | st e _ (st0 & H0 & IH)].
  - now exists st.
  - exists st0. split; [assumption |]. unfold search. now rewrite performSearch_rubros.
  - exists st0. split; [assumption |]. now rewrite handle_rubros.
Qed.

(** X11: no search, sort, scroll, input or clear assigns the catalog: in
    every state of a running instance the products, the normalised
    records, the index, the category set and the configuration are the ones
    [init] left. *)
Theorem catalog_is_read_only (raw : list Raw.t) (st : State) :
  reachable raw st ->
  exists st0, init raw = Some st0
    /\ products st = products st0 /\ normalizedData st = normalizedData st0
    /\ searchIndex st = searchIndex st0 /\ rubros st = rubros st0
    /\ CONFIG st = defaultConfig.
Proof.
  intros Hreach. pose proof (reachable_CONFIG raw st Hreach) as Hcfg.
  destruct (reachable_sameCatalog raw st Hreach) as (st0 & H0 & _ & Hp & Hn & Hi).
  destruct (reachable_rubros raw st Hreach) as (st0' & H0' & Hr).
  assert (st0' = st0) as -> by congruence.
  exists st0. now repeat split.
Qed.

(** The catalog after the searches and the sort of the scenario. *)
Lemma catalog_is_read_only_witness :
  exists st0, init catalogCodeAndMention = Some st0
    /\ products stateAfterPriceSort = products st0
    /\ searchIndex stateAfterPriceSort = searchIndex st0.
Proof.
  destruct (catalog_is_read_only catalogCodeAndMention stateAfterPriceSort
              reachable_stateAfterPriceSort) as (st0 & H0 & Hp & _ & Hi & _).
  exists st0. now repeat split.
Defined.

(** ** What is rendered *)

Lemma firstn_add_skipn {A} (o k : nat) (l : list A) :
  firstn o l ++ firstn k (skipn o l) = firstn (o + k) l.
Proof.
  revert l. induction o as [|o IH]; intros l; simpl; [reflexivity |].
  destruct l as [|x l]; simpl; [now rewrite firstn_nil |]. now rewrite IH.
Qed.

Lemma window_prefix st k :
  isLoading st = false ->
  let w := Nat.iter k (handleScroll true) (renderResults st) in
  windowOver (resultList st) (BATCH_SIZE (CONFIG st)) w
  /\ container w = firstn (offset w) (resultList st)
  /\ offset w = Nat.min (S k * BATCH_SIZE (CONFIG st)) (length (resultList st)).
Proof.
  intros Hload. induction k as [|k (Hw & Hc & Ho)]; cbn zeta.
  - destruct (renderResults_window st Hload) as (Hw & Hc & Ho).
    split; [exact Hw |]. simpl Nat.iter. rewrite Hc, Ho. unfold slice.
    rewrite Nat.sub_0_r. simpl Nat.mul. rewrite Nat.add_0_r. now split.
  - cbn zeta in Hw, Hc, Ho. simpl Nat.iter.
    set (w := Nat.iter k (handleScroll true) (renderResults st)) in *.
    destruct (handleScroll_window _ _ w Hw) as (Hw' & Hnext & Hstop).
    split; [exact Hw' |].
    destruct Hw as (_ & _ & _ & Hle & Hmore).
    destruct (hasMore w) eqn:Hm.
    + destruct (Hnext eq_refl) as [Hc' Ho']. symmetry in Hmore.
      apply Nat.ltb_lt in Hmore. rewrite Hc', Ho', Hc. unfold slice.
      rewrite firstn_add_skipn. split; [f_equal; lia |]. simpl Nat.mul in *. lia.
    + rewrite (Hstop eq_refl). symmetry in Hmore. apply Nat.ltb_ge in Hmore.
      split; [exact Hc |]. simpl Nat.mul in *. lia.
Qed.

(** X12: after [renderResults] and any number of page requests, the cards
    in the container are exactly the first [offset] results, in order; after
    [k] requests the offset is the smaller of [(k + 1) * BATCH_SIZE] and the
    number of results; so once [(k + 1) * BATCH_SIZE] reaches that number
    every result is rendered and [hasMore] is false. *)
Theorem rendered_container_is_prefix (st : State) (k : nat) :
  isLoading st = false ->
  let w := Nat.iter k (handleScroll true) (renderResults st) in
  container w = firstn (offset w) (resultList st)
  /\ offset w = Nat.min (S k * BATCH_SIZE (CONFIG st)) (length (resultList st))
  /\ (length (resultList st) <= S k * BATCH_SIZE (CONFIG st) ->
        container w = resultList st /\ hasMore w = false).
Proof.
  intros Hload w. destruct (window_prefix st k Hload) as (Hw & Hc & Ho). fold w in Hw, Hc, Ho.
  split; [exact Hc |]. split; [exact Ho |]. intros Hall.
  rewrite Nat.min_r in Ho by assumption. split.
  - rewrite Hc, Ho. apply firstn_all.
  - destruct Hw as (_ & _ & _ & _ & ->). rewrite Ho. apply Nat.ltb_irrefl.
Qed.

(** Five results and a batch size of 2: two requests after the reset
    render everything. *)
Lemma rendered_container_is_prefix_witness :
  isLoading windowScenario = false
  /\ length (resultList windowScenario) <= 3 * BATCH_SIZE (CONFIG windowScenario)
  /\ container (Nat.iter 2 (handleScroll true) (renderResults windowScenario))
     = resultList windowScenario.
Proof.
  assert (L : isLoading windowScenario = false) by reflexivity.
  assert (B : length (resultList windowScenario) <= 3 * BATCH_SIZE (CONFIG windowScenario))
    by (vm_compute; lia).
  split; [exact L |]. split; [exact B |].
  exact (proj1 (proj2 (proj2 (rendered_container_is_prefix windowScenario 2 L)) B)).
Defined.

(** ** Clearing the search *)

Lemma deref_app_nil h a : deref (h ++ [[]]) a = deref h a.
Proof.
  unfold deref. destruct (Nat.lt_ge_cases a (length h)) as [L | G].
  - now rewrite app_nth1.
  - rewrite app_nth2, (nth_overflow h) by lia. now destruct (a - length h) as [|[|n]].
Qed.

Lemma search_cached st q r :
  exists a, mapGet (searchCache (search q r st)) (cacheKeyOf q r) = Some a
            /\ deref (heap (search q r st)) a = resultList (search q r st).
Proof.
  destruct (mapHas (searchCache st) (cacheKeyOf q r)) eqn:Hhas.
  - destruct (mapGet_has _ _ Hhas) as [a Ha].
    destruct (search_hit st q r a Ha) as (Hheap & _ & Hlist & Hcache).
    exists a. now rewrite Hcache, Hheap, Hlist.
  - destruct (search_miss st q r Hhas) as (Hheap & _ & Hlist & Hcache).
    exists (S (length (heap st))). rewrite Hcache, Hheap, Hlist. split; [apply mapGet_mapSet |].
    set (fresh := freshResults _).
    change (heap st ++ [fresh; fresh]) with (heap st ++ [fresh] ++ [fresh]).
    rewrite app_assoc.
    replace (S (length (heap st))) with (length (heap st ++ [fresh]))
      by (rewrite length_app; simpl; lia).
    apply deref_app_new.
Qed.

(** X13: [clearSearch] empties the query, the filter and the result list
    and leaves the cache alone, so the same search afterwards is a cache hit
    with the same results; it does not reset the window, but a page request
    after it renders nothing and moves no offset. *)
Theorem clearSearch_keeps_cache (st : State) (q r : jstring) (nearBottom : bool) :
  resultList (clearSearch st) = []
  /\ searchTerm (clearSearch st) = [] /\ currentRubro (clearSearch st) = []
  /\ searchCache (clearSearch st) = searchCache st
  /\ offset (clearSearch st) = offset st /\ hasMore (clearSearch st) = hasMore st
  /\ container (handleScroll nearBottom (clearSearch st)) = container st
  /\ offset (handleScroll nearBottom (clearSearch st)) = offset st
  /\ resultList (search q r (clearSearch (search q r st))) = resultList (search q r st).
Proof.
  assert (Hempty : resultList (clearSearch st) = []).
  { unfold clearSearch, resultList, assignNewResults. fields. apply deref_app_new. }
  split; [exact Hempty |]. repeat (split; [reflexivity |]).
  assert (Hscroll : forall s, resultList s = [] ->
            container (handleScroll nearBottom s) = container s
            /\ offset (handleScroll nearBottom s) = offset s).
  { intros s Hs. unfold handleScroll. destruct (negb (hasMore s) || isLoading s);
      [now split |].
    destruct nearBottom; [| now split]. unfold renderProductBatch.
    rewrite (resultList_eq s (set_isLoading true s)) by reflexivity. rewrite Hs.
    now split. }
  destruct (Hscroll (clearSearch st) Hempty) as [Hc Ho].
  split; [exact Hc |]. split; [exact Ho |].
  destruct (search_cached st q r) as (a & Hget & Hderef).
  remember (search q r st) as s1 eqn:E1. clear E1.
  assert (Hget' : mapGet (searchCache (clearSearch s1)) (cacheKeyOf q r) = Some a)
    by exact Hget.
  destruct (search_hit (clearSearch s1) q r a Hget') as (_ & _ & -> & _).
  unfold clearSearch, assignNewResults. fields. now rewrite deref_app_nil.
Qed.

(** ** The order of eviction *)

Lemma runSearches_hits l : forall st,
  (forall k, In k (keysOf l) -> In k (cacheKeys st)) ->
  cacheKeys (runSearches l st) = cacheKeys st /\ CONFIG (runSearches l st) = CONFIG st.
Proof.
  induction l as [|[q r] l IH]; intros st Hall; simpl; [now split |].
  assert (Hstep : searchCache (search q r st) = searchCache st).
  { unfold search. rewrite performSearch_searchCache.
    change (mapHas (searchCache (set_currentRubro r (set_searchTerm q st)))
              (getCacheKey (set_currentRubro r (set_searchTerm q st))))
      with (mapHas (searchCache st) (cacheKeyOf q r)).
    assert (H : mapHas (searchCache st) (cacheKeyOf q r) = true).
    { apply mapHas_In. apply Hall. now left. }
    now rewrite H. }
  destruct (IH (search q r st)) as [Hk Hc].
  - intros k Hk. unfold cacheKeys. rewrite Hstep. apply Hall. now right.
  - rewrite Hk, Hc, search_CONFIG. unfold cacheKeys. now rewrite Hstep.
Qed.

Lemma mapDelete_head {V} k (v : V) m :
  ~ In k (map fst m) -> mapDelete ((k, v) :: m) k = m.
Proof.
  intros Hk. unfold mapDelete. simpl. rewrite jstring_eqb_refl. simpl.
  induction m as [|[k' v'] m IH]; simpl; [reflexivity |].
  simpl in Hk. destruct (jstring_eqb k k') eqn:E.
  - apply jstring_eqb_eq in E. subst k'. tauto.
  - simpl. f_equal. apply IH. tauto.
Qed.

(** X14: the cache evicts by insertion order, not by recency of use: a hit
    changes nothing in the cache, so when 50 searches with distinct keys
    have filled it, any number of repeated searches of those keys (even of
    the first one) does not save the first key: the next new key evicts it,
    and the cache then holds the other 49 keys and the new one, in order. *)
Theorem eviction_ignores_hits (raw : list Raw.t) (st0 : State)
    (first : jstring * jstring) (filling hits : list (jstring * jstring))
    (more : jstring * jstring) :
  init raw = Some st0 ->
  length (first :: filling) = 50 ->
  List.NoDup (keysOf (first :: filling ++ [more])) ->
  (forall k, In k (keysOf hits) -> In k (keysOf (first :: filling))) ->
  cacheKeys (runSearches hits (runSearches (first :: filling) st0))
  = keysOf (first :: filling)
  /\ cacheKeys (runSearches ((first :: filling) ++ hits ++ [more]) st0)
     = keysOf (filling ++ [more]).
Proof.
  intros Hinit Hlen Hnd Hhits.
  pose proof (init_CONFIG raw st0 Hinit) as Hcfg.
  pose proof (init_searchCache raw st0 Hinit) as Hcache.
  change (first :: filling ++ [more]) with ((first :: filling) ++ [more]) in Hnd.
  unfold keysOf in Hnd. rewrite map_app in Hnd. fold (keysOf (first :: filling)) in Hnd.
  destruct (runSearches_fill (first :: filling) st0) as [Hkeys Hc].
  { unfold cacheKeys. rewrite Hcache. simpl app. now apply NoDup_app_remove_r in Hnd. }
  { unfold cacheKeys. rewrite Hcache, Hcfg. simpl. simpl in Hlen. lia. }
  unfold cacheKeys in Hkeys at 2. rewrite Hcache in Hkeys. simpl app in Hkeys.
  set (full := runSearches (first :: filling) st0) in *.
  destruct (runSearches_hits hits full) as [Hk2 Hc2].
  { intros k Hk. rewrite Hkeys. now apply Hhits. }
  split; [now rewrite Hk2 |].
  unfold runSearches. rewrite !fold_left_app.
  fold (runSearches (first :: filling) st0). fold full. fold (runSearches hits full).
  set (used := runSearches hits full) in *. destruct more as [q r]. simpl fold_left.
  unfold cacheKeys. unfold search. rewrite performSearch_searchCache.
  change (mapHas (searchCache (set_currentRubro r (set_searchTerm q used)))
            (getCacheKey (set_currentRubro r (set_searchTerm q used))))
    with (mapHas (searchCache used) (cacheKeyOf q r)).
  change (getCacheKey (set_currentRubro r (set_searchTerm q used))) with (cacheKeyOf q r).
  fields.
  assert (Hnew : ~ In (cacheKeyOf q r) (keysOf (first :: filling))).
  { intros H. apply NoDup_remove_2 in Hnd. apply Hnd. now rewrite app_nil_r. }
  assert (Habs : mapHas (searchCache used) (cacheKeyOf q r) = false).
  { apply mapHas_false. fold (cacheKeys used). now rewrite Hk2, Hkeys. }
  rewrite Habs.
  rewrite Hkeys in Hk2. unfold cacheKeys in Hk2.
  destruct (searchCache used) as [|[k v] cache] eqn:Ec; [discriminate |].
  simpl in Hk2. injection Hk2 as Hk Hrest.
  assert (Hev : evicted (CACHE_SIZE (CONFIG used)) ((k, v) :: cache) = cache).
  { unfold evicted. rewrite Hc2, Hc, Hcfg. simpl length.
    assert (L : length cache = 49).
    { rewrite <- (length_map fst cache), Hrest. unfold keysOf. rewrite length_map.
      simpl in Hlen. lia. }
    rewrite L. cbn [Nat.leb CACHE_SIZE defaultConfig mapFirstKey].
    apply mapDelete_head. rewrite Hrest, Hk.
    apply NoDup_app_remove_r in Hnd. simpl in Hnd. now inversion Hnd. }
  rewrite Hev, mapSet_absent.
  - rewrite map_app, Hrest. unfold keysOf. now rewrite map_app.
  - apply mapHas_false. rewrite Hrest. intros H. apply Hnew. now right.
Qed.

(** Fifty queries, the first one searched again, and a fifty-first. *)
Lemma eviction_ignores_hits_witness :
  cacheKeys (runSearches (fiftyQueries ++ [numberedQuery 0] ++ [numberedQuery 50])
               (loaded catalogScenario))
  = keysOf (map numberedQuery (seq 1 49) ++ [numberedQuery 50]).
Proof.
  refine (proj2 (eviction_ignores_hits catalogScenario (loaded catalogScenario)
                   (numberedQuery 0) (map numberedQuery (seq 1 49)) [numberedQuery 0]
                   (numberedQuery 50) loaded_catalogScenario _ _ _)).
  - reflexivity.
  - change (numberedQuery 0 :: map numberedQuery (seq 1 49) ++ [numberedQuery 50])
      with (map numberedQuery (seq 0 51)).
    apply numberedQuery_keys_NoDup.
  - intros k [<- | []]. now left.
Defined.

Lemma NoDup_map_filter {A B} (f : A -> B) (p : A -> bool) (l : list A) :
  List.NoDup (map f l) -> List.NoDup (map f (List.filter p l)).
Proof.
  induction l as [|x l IH]; simpl; [auto |].
  intros H. inversion H as [|? ? Hx Hl]; subst. destruct (p x); simpl; [| auto].
  constructor; [| auto]. intros Hin. apply Hx.
  apply in_map_iff in Hin as (y & E & Hy). apply filter_In in Hy as [Hy _].
  apply in_map_iff. eauto.
Qed.

Lemma evicted_NoDup capacity cache :
  List.NoDup (map fst cache) -> List.NoDup (map fst (evicted capacity cache)).
Proof.
  intros H. unfold evicted. destruct (capacity <=? length cache); [| assumption].
  destruct (mapFirstKey cache); [| assumption]. now apply NoDup_map_filter.
Qed.

Lemma performSearch_cacheKeys_NoDup st :
  List.NoDup (cacheKeys st) -> List.NoDup (cacheKeys (performSearch st)).
Proof.
  intros H. unfold cacheKeys. rewrite performSearch_searchCache.
  destruct (mapHas (searchCache st) (getCacheKey st)) eqn:E; [assumption |].
  assert (Habs : ~ In (getCacheKey st)
                     (map fst (evicted (CACHE_SIZE (CONFIG st)) (searchCache st)))).
  { intros Hin. apply evicted_keys in Hin. now apply mapHas_false in E. }
  rewrite mapSet_absent by now apply mapHas_false.
  rewrite map_app. apply List.NoDup_app; [now apply evicted_NoDup | repeat constructor; intros [] |].
  intros k Hk [<- | []]. contradiction.
Qed.

Lemma reachable_cacheKeys_NoDup raw st : reachable raw st -> List.NoDup (cacheKeys st).
Proof.
  induction 1 as [st H | st q r Hr IH | st e Hr IH].
  - unfold cacheKeys. rewrite (init_searchCache raw st H). constructor.
  - unfold search. now apply performSearch_cacheKeys_NoDup.
  - pose proof (handle_searchCache_other st e) as Hother.
    destruct e as [text|value|value|nearBottom|]; unfold cacheKeys in *;
      try (rewrite Hother; assumption); simpl.
    + unfold handleSearchInput. destruct (length text =? 0); [assumption |].
      now apply (performSearch_cacheKeys_NoDup (set_searchTerm (trim text) st)).
    + now apply (performSearch_cacheKeys_NoDup (set_currentRubro value st)).
Qed.

(** X15: in every state of a running instance the keys of the cache are
    pairwise distinct, every entry refers to an array that exists in the
    store, and after any search the key of that search is in the cache with
    an array equal to the result list. *)
Theorem cache_entries_are_well_formed (raw : list Raw.t) (st : State) (q r : jstring) :
  reachable raw st ->
  List.NoDup (cacheKeys st)
  /\ (forall key a, In (key, a) (searchCache st) -> a < length (heap st))
  /\ (exists a, mapGet (searchCache (search q r st)) (cacheKeyOf q r) = Some a
                /\ deref (heap (search q r st)) a = resultList (search q r st)).
Proof.
  intros Hreach. split; [now apply (reachable_cacheKeys_NoDup raw) |]. split.
  - intros key a Hin. now apply (reachable_cacheInv raw st Hreach key a).
  - apply search_cached.
Qed.

(** The cache of the scenario after its three searches and the sort. *)
Lemma cache_entries_are_well_formed_witness :
  List.NoDup (cacheKeys stateAfterPriceSort)
  /\ (forall key a, In (key, a) (searchCache stateAfterPriceSort) ->
        a < length (heap stateAfterPriceSort)).
Proof.
  destruct (cache_entries_are_well_formed catalogCodeAndMention stateAfterPriceSort [] []
              reachable_stateAfterPriceSort) as (H1 & H2 & _).
  split; assumption.
Defined.

(** ** What the load keeps *)

Lemma normalizeProduct_Kept_fields index product p n :
  normalizeProduct index product = Kept p n ->
  Normalized.index n = index
  /\ Product.codigo p = Normalized.codigo n
  /\ Product.descripcion p = Normalized.descripcion n
  /\ Product.rubro p = Normalized.rubro n
  /\ Product.marca p = Normalized.marca n
  /\ Product.precio_venta p = Normalized.precio_venta n.
Proof.
  unfold normalizeProduct. destruct (_ || _); [discriminate |].
  destruct (normalizeTextOf (Raw.codigo product)); [| discriminate].
  destruct (normalizeTextOf (Raw.descripcion product)); [| discriminate].
  destruct (normalizeTextOf (or (Raw.marca product) emptyString)); [| discriminate].
  destruct (normalizeTextOf (or (Raw.rubro product) emptyString)); [| discriminate].
  intros [= <- <-]. cbn. now repeat split.
Qed.

Lemma processProducts_from_kept raw : forall index st st',
  processProducts_from index raw st = Some st' ->
  products st' = products st ++ map fst (keptRecords index raw)
  /\ normalizedData st' = normalizedData st ++ map snd (keptRecords index raw).
Proof.
  induction raw as [|product raw IH]; intros index st st'; simpl.
  - intros [= <-]. now rewrite !app_nil_r.
  - destruct (normalizeProduct index product) as [| |p n] eqn:E; [apply IH | discriminate |].
    intros H. apply IH in H. destruct H as [Hp Hn]. simpl map.
    rewrite Hp, Hn. destruct (negb (length (Normalized.rubro n) =? 0)); fields;
      now rewrite <- !app_assoc.
Qed.


Lemma keptRecords_nth raw : forall index i p n,
  nth_error (keptRecords index raw) i = Some (p, n) ->
  exists j x, i <= j /\ nth_error raw j = Some x
              /\ normalizeProduct (index + j) x = Kept p n.
Proof.
  induction raw as [|product raw IH]; intros index i p n; simpl.
  - now destruct i.
  - assert (Hrest : forall i', nth_error (keptRecords (S index) raw) i' = Some (p, n) ->
              exists j x, i' < j /\ nth_error (product :: raw) j = Some x
                          /\ normalizeProduct (index + j) x = Kept p n).
    { intros i' H. destruct (IH _ _ _ _ H) as (j & x & Hij & Hx & Hk).
      exists (S j), x. split; [lia |]. split; [exact Hx |].
      now replace (index + S j) with (S index + j) by lia. }
    destruct (normalizeProduct index product) as [| |p0 n0] eqn:E.
    + intros H. destruct (Hrest i H) as (j & x & ? & ? & ?). exists j, x. split; [lia | auto].
    + intros H. destruct (Hrest i H) as (j & x & ? & ? & ?). exists j, x. split; [lia | auto].
    + destruct i as [|i]; simpl.
      * intros [= -> ->]. exists 0, product. rewrite Nat.add_0_r. split; [lia | auto].
      * intros H. destruct (Hrest i H) as (j & x & ? & ? & ?). exists j, x.
        split; [lia | auto].
Qed.

Lemma keptRecords_length raw : forall index, length (keptRecords index raw) <= length raw.
Proof.
  induction raw as [|product raw IH]; intros index; simpl; [lia |].
  specialize (IH (S index)). destruct (normalizeProduct index product); simpl; lia.
Qed.

Lemma init_kept raw st :
  init raw = Some st ->
  products st = map fst (keptRecords 0 raw)
  /\ normalizedData st = map snd (keptRecords 0 raw).
Proof.
  unfold init. destruct (processProducts raw constructed) as [st1|] eqn:E; [| discriminate].
  intros [= <-]. unfold processProducts in E. apply processProducts_from_kept in E.
  exact E.
Qed.

(** X16: a successful load keeps the valid records in the order of the
    file: the two arrays are the kept records' products and normalised
    records, position by position, and never longer than the file; the
    record at a position [i] comes from a raw record at a position [j >= i],
    the [index] field of the normalised record is that [j] (the position in
    the file, not in the array, once a record before it was skipped), and
    the product has the same trimmed fields and price as it. *)
Theorem load_keeps_valid_records_in_order (raw : list Raw.t) (st : State) :
  init raw = Some st ->
  products st = map fst (keptRecords 0 raw)
  /\ normalizedData st = map snd (keptRecords 0 raw)
  /\ length (products st) = length (normalizedData st)
  /\ length (products st) <= length raw
  /\ forall i p n,
       nth_error (products st) i = Some p -> nth_error (normalizedData st) i = Some n ->
       i <= Normalized.index n
       /\ (exists x, nth_error raw (Normalized.index n) = Some x
                     /\ normalizeProduct (Normalized.index n) x = Kept p n)
       /\ Product.codigo p = Normalized.codigo n
       /\ Product.descripcion p = Normalized.descripcion n
       /\ Product.rubro p = Normalized.rubro n
       /\ Product.marca p = Normalized.marca n
       /\ Product.precio_venta p = Normalized.precio_venta n.
Proof.
  intros Hinit. destruct (init_kept raw st Hinit) as [Hp Hn].
  split; [exact Hp |]. split; [exact Hn |].
  split; [now rewrite Hp, Hn, !length_map |].
  split; [rewrite Hp, length_map; apply keptRecords_length |].
  intros i p n Hpi Hni. rewrite Hp in Hpi. rewrite Hn in Hni.
  rewrite nth_error_map in Hpi, Hni.
  destruct (nth_error (keptRecords 0 raw) i) as [[p' n']|] eqn:E; [| discriminate].
  simpl in Hpi, Hni. injection Hpi as ->. injection Hni as ->.
  destruct (keptRecords_nth raw 0 i p n E) as (j & x & Hij & Hx & Hk). simpl in Hk.
  destruct (normalizeProduct_Kept_fields j x p n Hk) as (Hj & Hfields).
  rewrite Hj. split; [exact Hij |]. split; [now exists x | exact Hfields].
Qed.

(** A record with price 0 between two valid ones: the second valid record
    is at position 1 of the arrays and carries the index 2. *)
Lemma load_keeps_valid_records_in_order_witness :
  init catalogWithGap = Some (loaded catalogWithGap)
  /\ length (products (loaded catalogWithGap)) = 2
  /\ map Normalized.index (normalizedData (loaded catalogWithGap)) = [0; 2].
Proof.
  assert (H : init catalogWithGap = Some (loaded catalogWithGap)) by (vm_compute; reflexivity).
  destruct (load_keeps_valid_records_in_order catalogWithGap _ H) as (Hp & Hn & _).
  split; [exact H |]. split.
  - rewrite Hp. reflexivity.
  - rewrite Hn. reflexivity.
Defined.







(** ** The categories *)

Lemma processProducts_from_rubros raw : forall index st st',
  processProducts_from index raw st = Some st' ->
  (List.NoDup (rubros st) ->
   List.NoDup (rubros st'))
  /\ forall x, In x (rubros st')
       <-> In x (rubros st)
           \/ (x <> [] /\ exists pn, In pn (keptRecords index raw)
                                     /\ Normalized.rubro (snd pn) = x).
Proof.
  induction raw as [|product raw IH]; intros index st st'; simpl.
  - intros [= <-]. split; [auto |]. intros x. split; [auto |].
    intros [H | (_ & pn & [] & _)]. exact H.
  - destruct (normalizeProduct index product) as [| |p n] eqn:E; [apply IH | discriminate |].
    intros H. apply IH in H. destruct H as [Hnd Hin].
    destruct (length (Normalized.rubro n) =? 0) eqn:El; cbn [negb] in *; fields.
    + apply Nat.eqb_eq in El. split; [exact Hnd |]. intros x. rewrite Hin.
      split; intros [H | (Hx & pn & Hpn & Hr)]; auto.
      * right. split; [exact Hx |]. exists pn. split; [now right | exact Hr].
      * destruct Hpn as [<- | Hpn]; [| right; split; [exact Hx |]; now exists pn].
        simpl in Hr. subst x. destruct (Normalized.rubro n); [contradiction | discriminate].
    + apply Nat.eqb_neq in El. split.
      * intros H. apply Hnd. apply setAdd_NoDup; [apply jstring_eqb_eq | exact H].
      * intros x. rewrite Hin. rewrite (setAdd_In_iff jstring_eqb jstring_eqb_eq).
        split.
        -- intros [[H | ->] | (Hx & pn & Hpn & Hr)]; auto.
           ++ right. split; [now destruct (Normalized.rubro n) |].
              exists (p, n). split; [now left | reflexivity].
           ++ right. split; [exact Hx |]. exists pn. split; [now right | exact Hr].
        -- intros [H | (Hx & pn & [<- | Hpn] & Hr)]; auto.
           right. split; [exact Hx |]. now exists pn.
Qed.

(** X18: the category set of a running instance has no duplicates and is
    exactly the set of the non-empty (trimmed) categories of the kept
    products; a product without category adds none. *)
Theorem rubros_are_the_product_categories (raw : list Raw.t) (st : State) :
  reachable raw st ->
  List.NoDup (rubros st)
  /\ forall x, In x (rubros st)
       <-> x <> [] /\ exists p, In p (products st) /\ Product.rubro p = x.
Proof.
  intros Hreach.
  destruct (reachable_sameCatalog raw st Hreach) as (st0 & H0 & _ & Hp & _).
  destruct (reachable_rubros raw st Hreach) as (st0' & H0' & Hr).
  assert (st0' = st0) as -> by congruence.
  rewrite Hr, Hp. clear Hr Hp Hreach st.
  destruct (init_kept raw st0 H0) as [Hp _]. rewrite Hp.
  unfold init in H0. destruct (processProducts raw constructed) as [st1|] eqn:E;
    [| discriminate].
  injection H0 as <-. unfold processProducts in E.
  apply processProducts_from_rubros in E. destruct E as [Hnd Hin]. fields. split; [apply Hnd; constructor |].
  intros x. rewrite Hin. split.
  - intros [[] | (Hx & [p n] & Hpn & Hrub)]. split; [exact Hx |]. exists p. split.
    + apply in_map_iff. now exists (p, n).
    + simpl in Hrub. rewrite <- Hrub.
      apply (In_nth_error (keptRecords 0 raw)) in Hpn as [i Hi].
      destruct (keptRecords_nth raw 0 i p n Hi) as (j & y & _ & _ & Hk).
      now apply normalizeProduct_Kept_fields in Hk.
  - intros (Hx & p & Hp' & Hrub). right. split; [exact Hx |].
    apply in_map_iff in Hp' as ([p' n] & <- & Hpn). exists (p', n). split; [exact Hpn |].
    simpl in *. rewrite <- Hrub.
    apply (In_nth_error (keptRecords 0 raw)) in Hpn as [i Hi].
    destruct (keptRecords_nth raw 0 i p' n Hi) as (j & y & _ & _ & Hk).
    apply normalizeProduct_Kept_fields in Hk. symmetry. apply Hk.
Qed.

(** The scenario catalog after a search and a sort. *)
Lemma rubros_are_the_product_categories_witness :
  List.NoDup (rubros stateAfterAcme)
  /\ forall x, In x (rubros stateAfterAcme)
       <-> x <> [] /\ exists p, In p (products stateAfterAcme) /\ Product.rubro p = x.
Proof.
  exact (rubros_are_the_product_categories catalogScenario stateAfterAcme
           reachable_stateAfterAcme).
Defined.

(** ** The shape of a normalised search text *)

Lemma joinWords_cons word rest : joinWords (word :: rest) = word ++ joinRest rest.
Proof. destruct rest; simpl; [now rewrite app_nil_r | reflexivity]. Qed.

Lemma dropWhile_app_single {A} (p : A -> bool) (l : list A) (a : A) :
  dropWhile p (l ++ [a])
  = match dropWhile p l with
    | [] => if p a then [] else [a]
    | _ :: _ => dropWhile p l ++ [a]
    end.
Proof.
  induction l as [|x l IH]; simpl; [reflexivity |].
  destruct (p x); [exact IH | reflexivity].
Qed.

Lemma trimEnd_cons a s :
  trimEnd (a :: s)
  = match trimEnd s with
    | [] => if isWhitespace a then [] else [a]
    | _ :: _ => a :: trimEnd s
    end.
Proof.
  unfold trimEnd. simpl rev. rewrite dropWhile_app_single.
  destruct (dropWhile isWhitespace (rev s)) as [|x l] eqn:E; simpl;
    [now destruct (isWhitespace a) |].
  rewrite rev_app_distr. simpl.
  destruct (rev l ++ [x]) eqn:E'; [now destruct (rev l) | reflexivity].
Qed.

Lemma trimEnd_nonws a s : isWhitespace a = false -> trimEnd (a :: s) = a :: trimEnd s.
Proof. intros H. rewrite trimEnd_cons, H. now destruct (trimEnd s). Qed.

Lemma trimStart_replaceWsRuns s :
  trimStart (replaceWsRuns s) = replaceWsRuns (trimStart s).
Proof.
  unfold trimStart. induction s as [|c s IH]; [reflexivity |].
  simpl. destruct (isWhitespace c) eqn:Hc.
  - destruct s as [|c' s]; [reflexivity |].
    destruct (isWhitespace c') eqn:Hc'; [exact IH |].
    change (dropWhile isWhitespace (space :: replaceWsRuns (c' :: s)))
      with (dropWhile isWhitespace (replaceWsRuns (c' :: s))).
    exact IH.
  - simpl. now rewrite Hc.
Qed.

(** After the runs are collapsed and the end is trimmed: the first piece,
    then the later words, each after one space. *)
Lemma trimEnd_replaceWsRuns s :
  trimEnd (replaceWsRuns s)
  = firstPiece s ++ joinRest (List.filter nonEmpty (restPieces s)).
Proof.
  induction s as [|c s IH]; [reflexivity |].
  destruct (isWhitespace c) eqn:Hc.
  - rewrite (firstPiece_ws s c Hc). simpl app.
    destruct s as [|c' s].
    + assert (E1 : replaceWsRuns [c] = [space]) by (simpl; now rewrite Hc).
      assert (E2 : restPieces [c] = [[]]) by (unfold restPieces; simpl; now rewrite Hc).
      rewrite E1, E2. reflexivity.
    + destruct (isWhitespace c') eqn:Hc'.
      * assert (E1 : replaceWsRuns (c :: c' :: s) = replaceWsRuns (c' :: s))
          by (simpl; now rewrite Hc, Hc').
        assert (E2 : restPieces (c :: c' :: s) = restPieces (c' :: s))
          by (unfold restPieces; simpl; now rewrite Hc, Hc').
        rewrite E1, E2, IH, (firstPiece_ws s c' Hc'). reflexivity.
      * assert (E1 : replaceWsRuns (c :: c' :: s) = space :: replaceWsRuns (c' :: s))
          by (simpl; now rewrite Hc, Hc').
        assert (E2 : restPieces (c :: c' :: s) = split_ws (c' :: s))
          by (unfold restPieces; simpl; now rewrite Hc, Hc').
        rewrite E1, E2. fold (tokens (c' :: s)). rewrite (tokens_nonws c' s Hc').
        rewrite trimEnd_cons, IH, (firstPiece_nonws c' s Hc').
        assert (E3 : restPieces (c' :: s) = restPieces s).
        { unfold restPieces. now rewrite (split_ws_nonws c' s Hc'). }
        rewrite E3. cbn [app joinRest]. now rewrite joinWords_cons.
  - assert (E1 : replaceWsRuns (c :: s) = c :: replaceWsRuns s) by (simpl; now rewrite Hc).
    assert (E2 : restPieces (c :: s) = restPieces s).
    { unfold restPieces. now rewrite (split_ws_nonws c s Hc). }
    rewrite E1, E2, (trimEnd_nonws c _ Hc), IH, (firstPiece_nonws c s Hc). reflexivity.
Qed.

Lemma trimStart_tokens s : tokens (trimStart s) = tokens s.
Proof.
  unfold trimStart. destruct (dropWhile_split isWhitespace s) as (pre & Hpre & Hs).
  rewrite Hs at 2. now rewrite tokens_ws_prefix.
Qed.

Lemma trimStart_head s :
  trimStart s = [] \/ exists c s', trimStart s = c :: s' /\ isWhitespace c = false.
Proof.
  unfold trimStart. induction s as [|c s IH]; simpl; [now left |].
  destruct (isWhitespace c) eqn:Hc; [exact IH |]. right. now exists c, s.
Qed.

Lemma trim_replaceWsRuns s : trim (replaceWsRuns s) = joinWords (tokens s).
Proof.
  unfold trim. rewrite trimStart_replaceWsRuns, trimEnd_replaceWsRuns.
  rewrite <- (trimStart_tokens s).
  destruct (trimStart_head s) as [-> | (c & s' & -> & Hc)]; [reflexivity |].
  assert (E : restPieces (c :: s') = restPieces s').
  { unfold restPieces. now rewrite (split_ws_nonws c s' Hc). }
  now rewrite (tokens_nonws c s' Hc), joinWords_cons, (firstPiece_nonws c s' Hc), E.
Qed.

(** *** The characters of the words *)

Lemma searchChar_class c :
  isWhitespace (searchChar c) = true \/ isAlnum (searchChar c) = true.
Proof. destruct c as [[] [] [] [] [] [] [] []]; vm_compute; auto. Qed.

Lemma searchChar_alnum c : isAlnum c = true -> searchChar c = c.
Proof. destruct c as [[] [] [] [] [] [] [] []]; vm_compute; congruence. Qed.

Lemma alnum_not_ws c : isAlnum c = true -> isWhitespace c = false.
Proof. destruct c as [[] [] [] [] [] [] [] []]; vm_compute; congruence. Qed.

Lemma firstPiece_chars s c :
  In c (firstPiece s) -> In c s /\ isWhitespace c = false.
Proof.
  induction s as [|x s IH]; [intros [] |].
  destruct (isWhitespace x) eqn:Hx.
  - now rewrite (firstPiece_ws s x Hx).
  - rewrite (firstPiece_nonws x s Hx). intros [<- | H]; [split; [now left | exact Hx] |].
    destruct (IH H). split; [now right | assumption].
Qed.

Lemma tokens_chars s w c :
  In w (tokens s) -> In c w -> In c s /\ isWhitespace c = false.
Proof.
  induction s as [|x s IH]; [intros [] |].
  destruct (isWhitespace x) eqn:Hx.
  - rewrite (tokens_ws x s Hx). intros Hw Hc. destruct (IH Hw Hc). split; [now right | auto].
  - rewrite (tokens_nonws x s Hx). intros [<- | Hw] Hc.
    + destruct Hc as [<- | Hc]; [split; [now left | exact Hx] |].
      destruct (firstPiece_chars s c Hc). split; [now right | auto].
    + assert (Hw' : In w (tokens s)).
      { rewrite tokens_pieces. apply in_or_app. now right. }
      destruct (IH Hw' Hc). split; [now right | auto].
Qed.

Lemma tokens_searchChar_alnum text w c :
  In w (tokens (map searchChar text)) -> In c w -> isAlnum c = true.
Proof.
  intros Hw Hc. destruct (tokens_chars _ w c Hw Hc) as [Hin Hws].
  apply in_map_iff in Hin as (x & <- & _).
  destruct (searchChar_class x) as [H | H]; [congruence | exact H].
Qed.

Lemma tokens_nonempty s w : In w (tokens s) -> w <> [].
Proof. intros H. now apply tokens_In in H. Qed.

Lemma split_ws_word w : forallb isAlnum w = true -> split_ws w = [w].
Proof.
  induction w as [|c w IH]; [reflexivity |]. simpl forallb.
  intros H. apply andb_true_iff in H as [Hc Hw].
  rewrite (split_ws_nonws c w (alnum_not_ws c Hc)). unfold firstPiece, restPieces.
  now rewrite (IH Hw).
Qed.

Lemma map_searchChar_word w : forallb isAlnum w = true -> map searchChar w = w.
Proof.
  induction w as [|c w IH]; [reflexivity |]. simpl. intros H.
  apply andb_true_iff in H as [Hc Hw]. now rewrite (searchChar_alnum c Hc), (IH Hw).
Qed.

Lemma tokens_word w : w <> [] -> forallb isAlnum w = true -> tokens (map searchChar w) = [w].
Proof.
  intros Hne Hw. rewrite (map_searchChar_word w Hw). unfold tokens.
  rewrite (split_ws_word w Hw). simpl. now destruct w.
Qed.

Lemma tokens_joinWords words :
  (forall w, In w words -> w <> [] /\ forallb isAlnum w = true) ->
  tokens (map searchChar (joinWords words)) = words.
Proof.
  induction words as [|w rest IH]; [reflexivity |]. intros H.
  destruct (H w (or_introl eq_refl)) as [Hne Hw].
  assert (Hrest : forall w', In w' rest -> w' <> [] /\ forallb isAlnum w' = true)
    by (intros w' Hw'; apply H; now right).
  destruct rest as [|w' rest'].
  - simpl. now apply tokens_word.
  - change (joinWords (w :: w' :: rest')) with (w ++ space :: joinWords (w' :: rest')).
    rewrite tokens_space, (tokens_word w Hne Hw), (IH Hrest). reflexivity.
Qed.

Lemma joinWords_chars words c :
  In c (joinWords words) -> c = space \/ exists w, In w words /\ In c w.
Proof.
  induction words as [|w rest IH]; [intros [] |].
  rewrite joinWords_cons. intros H. apply in_app_or in H as [H | H].
  - right. exists w. split; [now left | exact H].
  - destruct rest as [|w' rest']; [destruct H |].
    destruct H as [<- | H]; [now left |].
    destruct (IH H) as [-> | (w0 & Hw0 & Hc)]; [now left |].
    right. exists w0. split; [now right | exact Hc].
Qed.

(** X19: a normalised search text is the words of the text (the maximal
    runs of letters and digits after lowering and unaccenting, symbols
    counting as separators) joined by single spaces; it contains only
    [a-z], [0-9] and the space, and normalising it again changes nothing. *)
Theorem normalizeSearchText_joins_the_words (text : jstring) :
  normalizeSearchText text = joinWords (tokens (map searchChar text))
  /\ normalizeSearchText (normalizeSearchText text) = normalizeSearchText text
  /\ Forall (fun c => isAlnum c = true \/ c = space) (normalizeSearchText text).
Proof.
  assert (Hjoin : forall t, normalizeSearchText t = joinWords (tokens (map searchChar t))).
  { intros t. rewrite normalizeSearchText_chars. apply trim_replaceWsRuns. }
  assert (Hwords : forall w, In w (tokens (map searchChar text)) ->
            w <> [] /\ forallb isAlnum w = true).
  { intros w Hw. split; [now apply (tokens_nonempty _ w Hw) |].
    apply forallb_forall. intros c Hc. now apply (tokens_searchChar_alnum text w c). }
  split; [apply Hjoin |]. split.
  - rewrite (Hjoin (normalizeSearchText text)), (Hjoin text).
    now rewrite (tokens_joinWords _ Hwords).
  - apply List.Forall_forall. intros c Hc. rewrite (Hjoin text) in Hc.
    destruct (joinWords_chars _ c Hc) as [-> | (w & Hw & Hcw)]; [now right |].
    left. now apply (tokens_searchChar_alnum text w c).
Qed.

(** X20: every query word and every token of the index of a running
    instance has at least two characters, all of [a-z0-9]; so the regular
    expression [calculateProductScores] builds from a query word contains no
    character with a special meaning. *)
Theorem words_are_alphanumeric (raw : list Raw.t) (st : State) :
  reachable raw st ->
  (forall text word, In word (searchWords text) ->
     2 <= length word /\ forallb isAlnum word = true)
  /\ (forall word positions, searchIndex st !! word = Some positions ->
        2 <= length word /\ forallb isAlnum word = true).
Proof.
  intros Hreach. split.
  - intros text word Hw. apply searchWords_In in Hw as [Hw Hlen]. split; [exact Hlen |].
    apply forallb_forall. intros c Hc. now apply (tokens_searchChar_alnum text word c).
  - intros word positions Hget.
    destruct (reachable_indexSound raw st Hreach) as [Hlong Hsound].
    pose proof (reachable_indexNonEmpty raw st Hreach) as Hne.
    destruct (reachable_catalogOk raw st Hreach) as (_ & Hpairs & _).
    destruct positions as [|p positions]; [now apply Hne in Hget |].
    pose proof (Hlong word _ Hget) as Hlen. split; [exact Hlen |].
    destruct (Hsound word _ p Hget (or_introl eq_refl)) as (n & Hn & Hin).
    destruct (Forall2_nth_error_r _ _ _ _ _ Hpairs Hn) as (prod & _ & (i & x & Hk)).
    assert (Htext : exists t, Normalized.searchText n = normalizeSearchText t).
    { revert Hk. unfold normalizeProduct. destruct (_ || _); [discriminate |].
      destruct (normalizeTextOf (Raw.codigo x)); [| discriminate].
      destruct (normalizeTextOf (Raw.descripcion x)); [| discriminate].
      destruct (normalizeTextOf (or (Raw.marca x) emptyString)); [| discriminate].
      destruct (normalizeTextOf (or (Raw.rubro x) emptyString)); [| discriminate].
      intros [= _ <-]. cbn. eauto. }
    destruct Htext as [t Ht]. rewrite Ht in Hin.
    assert (Hw : In word (tokens (map searchChar t))).
    { rewrite <- tokens_normalizeSearchText. apply tokens_In. split; [exact Hin |].
      intros ->. simpl in Hlen. lia. }
    apply forallb_forall. intros c Hc. now apply (tokens_searchChar_alnum t word c).
Qed.

(** The index of the scenario catalog. *)
Lemma words_are_alphanumeric_witness :
  searchIndex stateAfterAcme !! str "acme" = Some [0; 1]
  /\ 2 <= length (str "acme") /\ forallb isAlnum (str "acme") = true.
Proof.
  assert (H : searchIndex stateAfterAcme !! str "acme" = Some [0; 1])
    by (vm_compute; reflexivity).
  split; [exact H |].
  exact (proj2 (words_are_alphanumeric catalogScenario stateAfterAcme
                  reachable_stateAfterAcme) _ _ H).
Defined.

(** ** Card nodes and the cards on display *)











